(** * racesim: track generation and race simulation

    A shallow embedding of [backend/track_gen.py], [backend/config.py],
    [backend/models.py] and [backend/simulation/engine.py], followed by the
    properties the specification states about them.

    Conventions of the embedding.
    - Python [int] is [Z]; list indices and loop counters are [nat].
    - Python [float] is [Q]: arithmetic is exact, so the rounding error of
      binary64 is outside the model; [round(x, d)] is decimal
      round-half-even.
    - [math.sqrt] is a parameter of the speed profile builder.
    - A [random.Random] instance is an oracle: a tape of raw words and a
      cursor.  Every draw reads one word and advances the cursor, so a
      statement quantified over all oracles covers every seed.
    - A raised exception is the [Raise] branch of [Result]. *)

From Stdlib Require Import String ZArith QArith Qround Qminmax List Bool Lia Lqa.
From Stdlib Require Import Permutation.
Import ListNotations.

Set Implicit Arguments.

(** ** Exceptions *)

Inductive Exn : Type := KeyError | IndexError | ValidationError | ZeroDivisionError.

Inductive Result (A : Type) : Type :=
| Ok (a : A)
| Raise (e : Exn).

Arguments Ok {A} a.
Arguments Raise {A} e.

Definition bind {A B : Type} (r : Result A) (k : A -> Result B) : Result B :=
  match r with
  | Ok a => k a
  | Raise e => Raise e
  end.

Notation "x <- r ;; k" := (bind r (fun x => k))
  (at level 61, r at next level, right associativity).

Fixpoint mapM {A B : Type} (f : A -> Result B) (l : list A) : Result (list B) :=
  match l with
  | [] => Ok []
  | a :: l' => b <- f a ;; bs <- mapM f l' ;; Ok (b :: bs)
  end.

(** ** The random oracle ([random.Random]) *)

Module Random.

Record t : Type := mk { tape : nat -> N; cursor : nat }.

Definition next (g : t) : N * t :=
    (tape g (cursor g), mk (tape g) (S (cursor g))).

  (** [rng.choice(seq)] on a non-empty sequence: an index below [len(seq)]
      decided by the generator state. *)
Definition choice {A : Type} (g : t) (d : A) (seq : list A) : A * t :=
    let (w, g') := next g in
    (nth (N.to_nat (w mod N.of_nat (length seq))) seq d, g').

  (** [rng.random()]: 53 random bits scaled into [0, 1). *)
Definition random (g : t) : Q * t :=
    let (w, g') := next g in
    (inject_Z (Z.of_N w mod 2 ^ 53) / inject_Z (2 ^ 53), g').

  (** [rng.uniform(a, b)] is [a + (b - a) * random()]. *)
Definition uniform (g : t) (a b : Q) : Q * t :=
    let (u, g') := random g in
    (a + (b - a) * u, g').

End Random.

(** ** backend/config.py: track generation *)

Definition TRACK_GRID_SIZE : Z := 12.
Definition TRACK_MIN_STEPS : Z := 24.
Definition TRACK_MAX_RETRIES : nat := 10.

(** ** backend/models.py: tracks *)

Inductive TileType : Type := straight | curve | chicane.

Record TileData : Type := mkTile {
  tile_x : Z;
  tile_y : Z;
  tile_type : TileType;
  orientation : string
}.

Definition Cell : Type := (Z * Z)%type.

Record TrackData : Type := mkTrack {
  grid_width : Z;
  grid_height : Z;
  tiles : list TileData;
  path_order : list Cell
}.

(** ** backend/track_gen.py *)

Definition cell_eqb (a b : Cell) : bool :=
  (fst a =? fst b)%Z && (snd a =? snd b)%Z.

Inductive Compass : Type := cE | cW | cS | cN.

Definition _COMPASS (d : Cell) : option Compass :=
  match d with
  | (1, 0) => Some cE
  | (-1, 0) => Some cW
  | (0, 1) => Some cS
  | (0, -1) => Some cN
  | _ => None
  end%Z.

(** [_CURVE_DIRS] is keyed by the unordered pair of labels. *)
Definition _CURVE_DIRS (a b : Compass) : option string :=
  match a, b with
  | cN, cE | cE, cN => Some "NE"%string
  | cN, cW | cW, cN => Some "NW"%string
  | cS, cE | cE, cS => Some "SE"%string
  | cS, cW | cW, cS => Some "SW"%string
  | _, _ => None
  end.

Definition compass_lookup (d : Cell) : Result Compass :=
  match _COMPASS d with
  | Some c => Ok c
  | None => Raise KeyError
  end.

Definition _tile_type_orientation (came_from_delta going_to_delta : Cell)
  : Result (TileType * string) :=
  if cell_eqb came_from_delta going_to_delta then
    if negb (fst came_from_delta =? 0)%Z
    then Ok (straight, "horizontal"%string)
    else Ok (straight, "vertical"%string)
  else
    from_label <- compass_lookup came_from_delta ;;
    to_label <- compass_lookup going_to_delta ;;
    match _CURVE_DIRS from_label to_label with
    | Some o => Ok (curve, o)
    | None => Ok (straight, "horizontal"%string)
    end.

(** Python's [k % m] for a positive length [m], as a list index. *)
Definition wrap (k : Z) (m : nat) : nat := Z.to_nat (k mod Z.of_nat m).

Definition tile_at (path_order : list Cell) (i : nat) (c : Cell) : Result TileData :=
  let m := length path_order in
  let prev := nth (wrap (Z.of_nat i - 1) m) path_order c in
  let nxt := nth (wrap (Z.of_nat i + 1) m) path_order c in
  let came_from := (fst c - fst prev, snd c - snd prev)%Z in
  let going_to := (fst nxt - fst c, snd nxt - snd c)%Z in
  ty <- _tile_type_orientation came_from going_to ;;
  Ok (mkTile (fst c) (snd c) (fst ty) (snd ty)).

Definition enumerate {A : Type} (l : list A) : list (nat * A) :=
  combine (seq 0 (length l)) l.

Definition _build_track_data (path : list Cell) (n : Z) : Result TrackData :=
  let path_order := removelast path in
  ts <- mapM (fun ic => tile_at path_order (fst ic) (snd ic)) (enumerate path_order) ;;
  Ok (mkTrack n n ts path_order).

Definition DIRS : list Cell := [(1, 0); (-1, 0); (0, 1); (0, -1)]%Z.

Definition step (c d : Cell) : Cell := (fst c + fst d, snd c + snd d)%Z.

Definition start : Cell := (0, 0)%Z.

Definition in_grid (n : Z) (c : Cell) : bool :=
  (0 <=? fst c)%Z && (fst c <? n)%Z && (0 <=? snd c)%Z && (snd c <? n)%Z.

Definition visitedb (visited : list Cell) (c : Cell) : bool :=
  existsb (cell_eqb c) visited.

Definition candidates_of (n : Z) (visited : list Cell) (current : Cell) : list Cell :=
  filter (fun c => in_grid n c && negb (visitedb visited c))
         (map (step current) DIRS).

(** The body of the [for _ in range(max_steps)] loop of [_try_walk]; [fuel]
    is the number of iterations left. *)
Fixpoint walk_loop (fuel : nat) (n min_steps : Z) (visited path : list Cell)
         (current : Cell) (rng : Random.t) : option (list Cell) * Random.t :=
  match fuel with
  | O => (None, rng)
  | S fuel' =>
      if (min_steps <=? Z.of_nat (length path))%Z
         && existsb (fun d => cell_eqb (step current d) start) DIRS
      then (Some (path ++ [start]), rng)
      else
        match candidates_of n visited current with
        | [] => (None, rng)
        | (c0 :: _) as candidates =>
            let (nxt, rng') := Random.choice rng c0 candidates in
            walk_loop fuel' n min_steps (nxt :: visited) (path ++ [nxt]) nxt rng'
        end
  end.

Definition _try_walk (n : Z) (rng : Random.t) : option (list Cell) * Random.t :=
  let max_steps := (n * n)%Z in
  let min_steps := Z.max TRACK_MIN_STEPS (n * 2) in
  walk_loop (Z.to_nat max_steps) n min_steps [start] [start] start rng.

(** [range(a, b)] and [range(a, b, -1)]. *)
Definition range (a b : Z) : list Z :=
  map (fun k => a + Z.of_nat k)%Z (seq 0 (Z.to_nat (b - a))).

Definition range_down (a b : Z) : list Z :=
  map (fun k => a - Z.of_nat k)%Z (seq 0 (Z.to_nat (a - b))).

Definition oval_path (n : Z) : list Cell :=
  let lo := 1%Z in
  let hi := (n - 2)%Z in
  map (fun x => (x, lo)) (range lo (hi + 1))
  ++ map (fun y => (hi, y)) (range (lo + 1) (hi + 1))
  ++ map (fun x => (x, hi)) (range_down (hi - 1) (lo - 1))
  ++ map (fun y => (lo, y)) (range_down (hi - 1) lo).

Definition _oval_fallback (n : Z) : Result TrackData :=
  let path := oval_path n in
  match path with
  | [] => Raise IndexError
  | p0 :: _ => _build_track_data (path ++ [p0]) n
  end.

Fixpoint retry_loop (retries : nat) (n : Z) (rng : Random.t) : Result TrackData :=
  match retries with
  | O => _oval_fallback n
  | S retries' =>
      match _try_walk n rng with
      | (Some path, _) => _build_track_data path n
      | (None, rng') => retry_loop retries' n rng'
      end
  end.

(** [rng] is the generator [random.Random(seed)] builds. *)
Definition generate_track (n : Z) (rng : Random.t) : Result TrackData :=
  retry_loop TRACK_MAX_RETRIES n rng.

(** ** Floats as rationals *)

Local Open Scope Q_scope.

Definition Qltb (x y : Q) : bool := negb (Qle_bool y x).

(** Round to the nearest integer, ties to even. *)
Definition round_half_even (x : Q) : Z :=
  let f := Qfloor x in
  match ((x - inject_Z f) ?= (1 # 2))%Q with
  | Lt => f
  | Gt => (f + 1)%Z
  | Eq => if Z.even f then f else (f + 1)%Z
  end.

(** [round(x, d)] *)
Definition round_nd (d : nat) (x : Q) : Q :=
  inject_Z (round_half_even (x * inject_Z (10 ^ Z.of_nat d))) / inject_Z (10 ^ Z.of_nat d).

(** [int(x)]: truncation toward zero. *)
Definition py_int (x : Q) : Z :=
  if Qltb x 0%Q then (- Qfloor (- x)%Q)%Z else Qfloor x.

(** [x % y] on floats, for [y > 0]. *)
Definition Qmod (x y : Q) : Q := x - y * inject_Z (Qfloor (x / y)).

Definition Qsum (l : list Q) : Q := fold_left Qplus l 0.

(** ** Dictionaries: insertion-ordered association lists *)

Module Dict.
Section Dict.
Variables K V : Type.
Variable eqb : K -> K -> bool.

Definition t : Type := list (K * V).

Fixpoint get (d : t) (k : K) : option V :=
    match d with
    | [] => None
    | (k', v) :: d' => if eqb k' k then Some v else get d' k
    end.

  (** [d[k] = v]: overwrite in place, or append a new key. *)
Fixpoint set (d : t) (k : K) (v : V) : t :=
    match d with
    | [] => [(k, v)]
    | (k', v') :: d' => if eqb k' k then (k', v) :: d' else (k', v') :: set d' k v
    end.

  (** [d[k]] *)
Definition item (d : t) (k : K) : Result V :=
    match get d k with
    | Some v => Ok v
    | None => Raise KeyError
    end.
End Dict.
End Dict.

(** [l[i] = v] on a list, for an index in range. *)
Fixpoint set_nth {A : Type} (i : nat) (v : A) (l : list A) : list A :=
  match l, i with
  | [], _ => []
  | _ :: l', O => v :: l'
  | a :: l', S i' => a :: set_nth i' v l'
  end.

(** [list.sort(key=..., reverse=True)]: stable, descending by key. *)
Section Sort.
Variable A : Type.
Variable key : A -> Q.

Fixpoint insert_desc (x : A) (l : list A) : list A :=
    match l with
    | [] => [x]
    | y :: l' =>
        if Qle_bool (key y) (key x) then x :: y :: l' else y :: insert_desc x l'
    end.

Definition sort_desc (l : list A) : list A := fold_right insert_desc [] l.
End Sort.

(** ** backend/config.py: cars, wear, physics *)

Inductive Slot : Type := engine | tires | suspension | aero | fuel | electronics.

Definition SLOT_NAMES : list Slot := [engine; tires; suspension; aero; fuel; electronics].

Definition slot_eqb (a b : Slot) : bool :=
  match a, b with
  | engine, engine | tires, tires | suspension, suspension
  | aero, aero | fuel, fuel | electronics, electronics => true
  | _, _ => false
  end.

Inductive Tier : Type := standard | upgraded | performance.

Definition tier_eqb (a b : Tier) : bool :=
  match a, b with
  | standard, standard | upgraded, upgraded | performance, performance => true
  | _, _ => false
  end.

Definition TIER_SCORES (t : Tier) : Z :=
  match t with
  | standard => 40
  | upgraded => 70
  | performance => 100
  end.

Definition SLOT_WEIGHT_UNITS (s : Slot) (t : Tier) : Z :=
  match s, t with
  | engine, standard => 10 | engine, upgraded => 14 | engine, performance => 18
  | tires, standard => 8 | tires, upgraded => 10 | tires, performance => 13
  | suspension, standard => 6 | suspension, upgraded => 8 | suspension, performance => 11
  | aero, standard => 5 | aero, upgraded => 7 | aero, performance => 10
  | fuel, standard => 9 | fuel, upgraded => 11 | fuel, performance => 15
  | electronics, standard => 4 | electronics, upgraded => 6 | electronics, performance => 9
  end.

Definition WEIGHT_LIMIT : Z := 70.

Definition BASE_WEAR_PCT : Q := 15.

Definition WEAR_MULTIPLIERS : Dict.t string Q :=
  [ ("sprint", 1); ("endurance", 18 # 10); ("time_trial", 8 # 10);
    ("wet_track", 12 # 10); ("night_race", 1); ("altitude", 11 # 10);
    ("spec_class", 1); ("weight_limit", 1) ]%string.

Definition EVENT_STRESSED_SLOTS : Dict.t string (list Slot) :=
  [ ("sprint", [engine]); ("endurance", [fuel; tires]); ("time_trial", []);
    ("wet_track", [tires; suspension]); ("night_race", [electronics]);
    ("altitude", [suspension; aero]); ("spec_class", [electronics]);
    ("weight_limit", [aero; fuel]) ]%string.

(** One row of [EVENT_SLOT_WEIGHTS], in [SLOT_NAMES] order. *)
Definition weights_row (e t s a f el : Q) : Dict.t Slot Q :=
  [ (engine, e); (tires, t); (suspension, s); (aero, a); (fuel, f); (electronics, el) ].

Definition EVENT_SLOT_WEIGHTS : Dict.t string (Dict.t Slot Q) :=
  [ ("sprint", weights_row (15 # 10) 1 1 1 1 1);
    ("endurance", weights_row 1 (14 # 10) 1 1 (14 # 10) 1);
    ("time_trial", weights_row 1 1 1 1 1 1);
    ("wet_track", weights_row 1 (15 # 10) (13 # 10) 1 1 1);
    ("night_race", weights_row 1 1 1 1 1 (15 # 10));
    ("altitude", weights_row (8 # 10) 1 (14 # 10) (13 # 10) 1 1);
    ("spec_class", weights_row 1 1 1 1 1 (14 # 10));
    ("weight_limit", weights_row 1 1 1 1 1 1) ]%string.

Definition RACE_TICK_INTERVAL_MS : Q := 62.
Definition TILE_FEET : Q := 30.
Definition TOP_SPEED_MPH : Q := 120.
Definition CORNER_SPEED_MPH : Q := 60.
Definition CHICANE_SPEED_MPH : Q := 45.
Definition ACCEL_G : Q := 1 # 2.
Definition BRAKE_G : Q := 1.
Definition FT_PER_SEC_PER_G : Q := 32174 # 1000.
Definition MPH_TO_FPS : Q := 5280 / 3600.
Definition TOP_SPEED_FPS : Q := TOP_SPEED_MPH * MPH_TO_FPS.
Definition CORNER_SPEED_FPS : Q := CORNER_SPEED_MPH * MPH_TO_FPS.
Definition CHICANE_SPEED_FPS : Q := CHICANE_SPEED_MPH * MPH_TO_FPS.
Definition ACCEL_FPS2 : Q := ACCEL_G * FT_PER_SEC_PER_G.
Definition BRAKE_FPS2 : Q := BRAKE_G * FT_PER_SEC_PER_G.
Definition TRAILING_GRACE_TICKS : Z := 160.

(** ** backend/models.py: cars, entries, results *)

Record SlotPart : Type := mkSlotPart { tier : Tier; readiness : Q }.

(** The validated constructor: [readiness] is [Field(ge=0.0, le=100.0)]. *)
Definition SlotPart_new (t : Tier) (r : Q) : Result SlotPart :=
  if Qle_bool 0 r && Qle_bool r 100 then Ok (mkSlotPart t r) else Raise ValidationError.

Record CarSlots : Type := mkCarSlots {
  car_engine : SlotPart;
  car_tires : SlotPart;
  car_suspension : SlotPart;
  car_aero : SlotPart;
  car_fuel : SlotPart;
  car_electronics : SlotPart
}.

Definition get_slot (car : CarSlots) (name : Slot) : SlotPart :=
  match name with
  | engine => car_engine car
  | tires => car_tires car
  | suspension => car_suspension car
  | aero => car_aero car
  | fuel => car_fuel car
  | electronics => car_electronics car
  end.

Record RaceEntry : Type := mkRaceEntry {
  entry_player_id : string;
  entry_username : string;
  locked_car : option CarSlots;
  entered_at : string
}.

Record SlotResult : Type := mkSlotResult {
  sr_tier : Tier;
  sr_readiness : Q;
  tier_score : Z;
  event_weight : Q;
  weighted_score : Q;
  readiness_penalty : Q
}.

Record EntryResult : Type := mkEntryResult {
  player_id : string;
  username : string;
  position : Z;
  result_score : Q;
  build_quality : Q;
  event_fit : Q;
  readiness_score : Q;
  luck_delta : Q;
  counterfactual_position : Z;
  per_slot : Dict.t Slot SlotResult;
  luck_tag : string;
  dnf : bool;
  dnf_slot : option Slot
}.

Inductive RaceStatus : Type := upcoming | open | locked | running | finished.

Record Race : Type := mkRace {
  race_id : string;
  scheduled_time : string;
  event_type : string;
  status : RaceStatus;
  entry_fee : Z;
  lap_count : Z;
  grid_size : Z;
  track : option TrackData;
  entries : list RaceEntry;
  results : list EntryResult
}.

(** ** backend/simulation/engine.py: the race simulator *)

Definition _LUCK_TAGS_POSITIVE : list string :=
  [ "Perfect run through all sectors"; "Clean air throughout";
    "Flawless pit strategy"; "Ideal conditions hit at the right moment";
    "Competitor incident cleared the way" ]%string.

Definition _LUCK_TAGS_NEGATIVE : list string :=
  [ "Mechanical issue on lap 3"; "Traffic incident cost time";
    "Safety car negated the lead"; "Unexpected surface grip loss";
    "Debris on track forced evasion" ]%string.

Definition _LUCK_TAG_NEUTRAL : string := "Uneventful run — luck was a non-factor".

Definition Zsum (l : list Z) : Z := fold_left Z.add l 0%Z.

Definition len {A : Type} (l : list A) : Q := inject_Z (Z.of_nat (length l)).

Fixpoint foldM {A S : Type} (f : S -> A -> Result S) (l : list A) (s : S) : Result S :=
  match l with
  | [] => Ok s
  | a :: l' => s' <- f s a ;; foldM f l' s'
  end.

Definition _build_quality (car : CarSlots) : Q :=
  inject_Z (Zsum (map (fun s => TIER_SCORES (tier (get_slot car s))) SLOT_NAMES))
  / len SLOT_NAMES.

Definition event_penalty (car : CarSlots) (event_type : string) : Q :=
  let penalty := 0 in
  if (event_type =? "wet_track")%string && tier_eqb (tier (car_tires car)) standard
  then penalty + 15
  else if (event_type =? "night_race")%string
          && tier_eqb (tier (car_electronics car)) standard
  then penalty + 10
  else if (event_type =? "endurance")%string then
    if Qltb (readiness (car_tires car)) 50 || Qltb (readiness (car_fuel car)) 50
    then penalty + 10 else penalty
  else if (event_type =? "weight_limit")%string then
    let total_weight :=
      Zsum (map (fun s => SLOT_WEIGHT_UNITS s (tier (get_slot car s))) SLOT_NAMES) in
    if (WEIGHT_LIMIT <? total_weight)%Z then penalty + 20 else penalty
  else penalty.

Definition _event_fit (car : CarSlots) (event_type : string)
  : Result (Q * Dict.t Slot SlotResult) :=
  weights <- Dict.item String.eqb EVENT_SLOT_WEIGHTS event_type ;;
  let total_w := Qsum (map snd weights) in
  acc <- foldM (fun (acc : Q * Dict.t Slot SlotResult) s =>
                  let (weighted_sum, per_slot) := acc in
                  let part := get_slot car s in
                  let ts := TIER_SCORES (tier part) in
                  w <- Dict.item slot_eqb weights s ;;
                  let ws := inject_Z ts * w in
                  Ok (weighted_sum + ws,
                      Dict.set slot_eqb per_slot s
                        (mkSlotResult (tier part) (readiness part) ts w (ws / total_w) 0)))
               SLOT_NAMES (0, []) ;;
  let (weighted_sum, per_slot) := acc in
  let raw_fit := weighted_sum / total_w in
  Ok (Qmax 0 (raw_fit - event_penalty car event_type), per_slot).

Definition model_copy_readiness_penalty (sr : SlotResult) (penalty : Q) : SlotResult :=
  mkSlotResult (sr_tier sr) (sr_readiness sr) (tier_score sr) (event_weight sr)
               (weighted_score sr) penalty.

Definition _readiness_score (car : CarSlots) (per_slot : Dict.t Slot SlotResult)
  : Result (Q * Dict.t Slot SlotResult) :=
  acc <- foldM (fun (acc : Q * Dict.t Slot SlotResult) s =>
                  let (total, per_slot) := acc in
                  let r := readiness (get_slot car s) in
                  if Qltb r 50 then
                    let penalty := 50 - r in
                    let r := Qmax 0 (r - penalty) in
                    sr <- Dict.item slot_eqb per_slot s ;;
                    Ok (total + r,
                        Dict.set slot_eqb per_slot s
                          (model_copy_readiness_penalty sr penalty))
                  else Ok (total + r, per_slot))
               SLOT_NAMES (0, per_slot) ;;
  Ok (fst acc / len SLOT_NAMES, snd acc).

Fixpoint check_dnf_loop (slots : list Slot) (car : CarSlots) (rng : Random.t)
  : bool * option Slot * Random.t :=
  match slots with
  | [] => (false, None, rng)
  | s :: slots' =>
      if Qltb (readiness (get_slot car s)) 20 then
        let (u, rng') := Random.random rng in
        if Qltb u (1 # 10) then (true, Some s, rng')
        else check_dnf_loop slots' car rng'
      else check_dnf_loop slots' car rng
  end.

Definition _check_dnf (car : CarSlots) (rng : Random.t) : bool * option Slot * Random.t :=
  check_dnf_loop SLOT_NAMES car rng.

(** [random.choice] here is the module-level function: it draws from the
    interpreter-wide generator [g], not from the entrant's seeded one. *)
Definition _luck_tag (delta : Q) (g : Random.t) : string * Random.t :=
  if Qltb 5 delta then Random.choice g ""%string _LUCK_TAGS_POSITIVE
  else if Qltb delta (-5) then Random.choice g ""%string _LUCK_TAGS_NEGATIVE
  else (_LUCK_TAG_NEUTRAL, g).

(** One element of [raw_results]. *)
Record RawResult : Type := mkRaw {
  raw_player_id : string;
  raw_username : string;
  raw_score : Q;
  raw_build_quality : Q;
  raw_event_fit : Q;
  raw_readiness_score : Q;
  raw_luck_delta : Q;
  raw_per_slot : Dict.t Slot SlotResult;
  raw_dnf : bool;
  raw_dnf_slot : option Slot
}.

Definition is_time_trial (event_type : string) : bool := (event_type =? "time_trial")%string.
Definition luck_range (event_type : string) : Q := if is_time_trial event_type then 5 else 15.
Definition bq_weight (event_type : string) : Q :=
  if is_time_trial event_type then 50 # 100 else 40 # 100.

Definition neutral_score (event_type : string) (r : RawResult) : Q :=
  (raw_build_quality r * bq_weight event_type) + (raw_event_fit r * (35 # 100))
  + (raw_readiness_score r * (25 # 100)).

Section Simulator.

  (** [_seeded_rng(race_id, player_id)]: the generator seeded from the
      SHA-256 digest of ["race_id:player_id"]. *)
Variable _seeded_rng : string -> string -> Random.t.

  (** The loop body of [simulate_race] for an entry whose car is locked. *)
Definition simulate_entry (id event_type : string) (entry : RaceEntry) (car : CarSlots)
    : Result RawResult :=
    let rng := _seeded_rng id (entry_player_id entry) in
    let '(dnf, dnf_slot, rng) := _check_dnf car rng in
    let bq := _build_quality car in
    ef_ps <- _event_fit car event_type ;;
    rs_ps <- _readiness_score car (snd ef_ps) ;;
    let ef := fst ef_ps in
    let rs := fst rs_ps in
    let (luck, _) := Random.uniform rng (- luck_range event_type) (luck_range event_type) in
    let score :=
      if dnf then 0
      else Qmax 0 (Qmin 100 ((bq * bq_weight event_type) + (ef * (35 # 100))
                             + (rs * (25 # 100)) + luck)) in
    Ok (mkRaw (entry_player_id entry) (entry_username entry) score bq ef rs luck
              (snd rs_ps) dnf dnf_slot).

Fixpoint collect_raw (id event_type : string) (es : list RaceEntry)
    : Result (list RawResult) :=
    match es with
    | [] => Ok []
    | entry :: es' =>
        match locked_car entry with
        | None => collect_raw id event_type es'
        | Some car =>
            r <- simulate_entry id event_type entry car ;;
            rs <- collect_raw id event_type es' ;;
            Ok (r :: rs)
        end
    end.

Definition cf_rank_of (neutral_scores : list (string * Q)) : Dict.t string Z :=
    fold_left (fun d ip => Dict.set String.eqb d (fst (snd ip)) (Z.of_nat (fst ip) + 1)%Z)
              (enumerate neutral_scores) [].

Fixpoint build_results (pos : Z) (raws : list RawResult) (cf_rank : Dict.t string Z)
           (g : Random.t) : Result (list EntryResult * Random.t) :=
    match raws with
    | [] => Ok ([], g)
    | r :: raws' =>
        cf <- Dict.item String.eqb cf_rank (raw_player_id r) ;;
        let (tag, g') := _luck_tag (raw_luck_delta r) g in
        rest <- build_results (pos + 1) raws' cf_rank g' ;;
        Ok (mkEntryResult (raw_player_id r) (raw_username r) pos
              (round_nd 2 (raw_score r)) (round_nd 2 (raw_build_quality r))
              (round_nd 2 (raw_event_fit r)) (round_nd 2 (raw_readiness_score r))
              (round_nd 2 (raw_luck_delta r)) cf (raw_per_slot r) tag
              (raw_dnf r) (raw_dnf_slot r) :: fst rest, snd rest)
    end.

Definition sorted_raw (race : Race) : Result (list RawResult) :=
    raw_results <- collect_raw (race_id race) (event_type race) (entries race) ;;
    Ok (sort_desc raw_score raw_results).

Definition neutral_scores_of (event_type : string) (raw_results : list RawResult)
    : list (string * Q) :=
    sort_desc snd (map (fun r => (raw_player_id r, neutral_score event_type r)) raw_results).

  (** [g] is the state of the interpreter-wide generator at the call; the
      state after the call is returned with the results. *)
Definition simulate_race (race : Race) (g : Random.t)
    : Result (list EntryResult * Random.t) :=
    raw_results <- sorted_raw race ;;
    let cf_rank := cf_rank_of (neutral_scores_of (event_type race) raw_results) in
    build_results 1 raw_results cf_rank g.

End Simulator.

(** ** backend/simulation/engine.py: speed profile and tick stream *)

Definition raw_target (ty : TileType) : Q :=
  match ty with
  | chicane => CHICANE_SPEED_FPS
  | curve => CORNER_SPEED_FPS
  | straight => TOP_SPEED_FPS
  end.

Definition tile_type_by_pos (ts : list TileData) : Dict.t Cell TileType :=
  fold_left (fun d t => Dict.set cell_eqb d (tile_x t, tile_y t) (tile_type t)) ts [].

(** [tile_type_by_pos.get(pos, "straight")] *)
Definition tile_type_of (track : TrackData) (pos : Cell) : TileType :=
  match Dict.get cell_eqb (tile_type_by_pos (tiles track)) pos with
  | Some ty => ty
  | None => straight
  end.

Definition raw_speeds (track : TrackData) : list Q :=
  map (fun pos => raw_target (tile_type_of track pos)) (path_order track).

Record CarTick : Type := mkCarTick {
  car_id : string;
  ct_username : string;
  progress : Q;
  speed : Q;
  incident : option string
}.

Record Tick : Type := mkTick {
  tick : Z;
  tick_lap_count : Z;
  cars : list CarTick
}.

(** The per-car dictionaries of [generate_tick_stream]; every key read was
    written by the set-up loop, so they are total maps with update. *)
Definition upd {V : Type} (m : string -> V) (k : string) (v : V) : string -> V :=
  fun k' => if (k' =? k)%string then v else m k'.

Record CarState : Type := mkCarState {
  car_pos : string -> Q;
  car_vel : string -> Q;
  car_finished : string -> option Z;
  dnf_fired : string -> bool;
  leader_finished_tick : option Z
}.

Record Setup : Type := mkSetup {
  car_factor : string -> Q;
  dnf_stop : string -> option Q
}.

Definition max_ticks : Z := 200000.

Section Physics.

  (** [math.sqrt] *)
Variable sqrt : Q -> Q.

  (** One iteration of a constraint pass at tile [i]; [neighbour] is the
      tile whose speed bounds it and [a] the acceleration constant. *)
Definition constrain (a : Q) (neighbour : nat -> nat) (st : list Q * bool) (i : nat)
    : list Q * bool :=
    let (speed, changed) := st in
    let limit := sqrt (nth (neighbour i) speed 0 ^ 2 + 2 * a * TILE_FEET) in
    if Qltb (limit + (1 # 100)) (nth i speed 0)
    then (set_nth i limit speed, true)
    else (speed, changed).

Definition backward_pass (n : nat) (st : list Q * bool) : list Q * bool :=
    fold_left (constrain BRAKE_FPS2 (fun i => wrap (Z.of_nat i + 1) n)) (seq 0 n) st.

Definition forward_pass (n : nat) (st : list Q * bool) : list Q * bool :=
    fold_left (constrain ACCEL_FPS2 (fun i => wrap (Z.of_nat i - 1) n)) (seq 0 n) st.

Fixpoint sweeps (passes n : nat) (speed : list Q) : list Q :=
    match passes with
    | O => speed
    | S passes' =>
        let (speed', changed) := forward_pass n (backward_pass n (speed, false)) in
        if changed then sweeps passes' n speed' else speed'
    end.

Definition build_speed_profile (track : TrackData) : list Q :=
    sweeps 10 (length (path_order track)) (raw_speeds track).

  (** [random.Random(hash(pid))] *)
Variable hash_rng : string -> Random.t.

Definition max_score_of (rs : list EntryResult) : Q :=
    match map result_score rs with
    | [] => 1
    | s :: ss =>
        let m := fold_left Qmax ss s in
        if Qeq_bool m 0 then 1 else m
    end.

Definition init_state : CarState :=
    mkCarState (fun _ => 0) (fun _ => 0) (fun _ => None) (fun _ => false) None.

Definition init_setup (rs : list EntryResult) : Setup :=
    let max_score := max_score_of rs in
    fold_left (fun su r =>
                 let pid := player_id r in
                 mkSetup (upd (car_factor su) pid (Qmax (3 # 10) (result_score r / max_score)))
                         (if dnf r
                          then upd (dnf_stop su) pid
                                   (Some (fst (Random.uniform (hash_rng pid) (3 # 10) (7 # 10))))
                          else dnf_stop su))
              rs (mkSetup (fun _ => 0) (fun _ => None)).

Definition dt : Q := RACE_TICK_INTERVAL_MS / 1000.

Section Stream.
Variable profile : list Q.
Variable n_tiles : Z.
Variable total_distance : Q.
Variable su : Setup.

Definition target_speed (pos : Q) (pid : string) : Q :=
      let lap_distance := TILE_FEET * inject_Z n_tiles in
      let feet_into_lap := Qmod pos lap_distance in
      let tile_idx := (py_int (feet_into_lap / TILE_FEET) mod n_tiles)%Z in
      nth (Z.to_nat tile_idx) profile 0 * car_factor su pid.

Definition next_vel (vel target : Q) : Q :=
      if Qltb vel target then Qmin target (vel + ACCEL_FPS2 * dt)
      else if Qltb target vel then Qmax target (vel - BRAKE_FPS2 * dt)
      else vel.

Definition at_stop_point (st : CarState) (r : EntryResult) : bool :=
      dnf r &&
      match dnf_stop su (player_id r) with
      | Some stop => Qle_bool (stop * total_distance) (car_pos st (player_id r))
      | None => false
      end.

    (** The body of [for r in results] inside one tick. *)
Definition car_step (tick_num : Z) (acc : CarState * list CarTick * bool)
               (r : EntryResult) : CarState * list CarTick * bool :=
      let '(st, cars_data, all_done) := acc in
      let pid := player_id r in
      match car_finished st pid with
      | Some _ =>
          (st,
           cars_data ++ [mkCarTick pid (username r)
                           (round_nd 4 (Qmin 1 (car_pos st pid / total_distance)))
                           (round_nd 0 (car_vel st pid / MPH_TO_FPS))
                           (if dnf r then Some "dnf"%string else None)],
           all_done)
      | None =>
          if at_stop_point st r then
            let inc := if negb (dnf_fired st pid) then "dnf_start"%string else "dnf"%string in
            (mkCarState (car_pos st) (upd (car_vel st) pid 0)
                        (upd (car_finished st) pid (Some tick_num))
                        (upd (dnf_fired st) pid true) (leader_finished_tick st),
             cars_data ++ [mkCarTick pid (username r)
                             (round_nd 4 (car_pos st pid / total_distance))
                             0 (Some inc)],
             all_done)
          else
            let vel := next_vel (car_vel st pid) (target_speed (car_pos st pid) pid) in
            let pos := car_pos st pid + vel * dt in
            let finished_now := Qle_bool 1 (pos / total_distance) in
            let pos := if finished_now then total_distance else pos in
            (mkCarState (upd (car_pos st) pid pos) (upd (car_vel st) pid vel)
                        (if finished_now
                         then upd (car_finished st) pid (Some tick_num)
                         else car_finished st)
                        (dnf_fired st)
                        (if finished_now
                         then match leader_finished_tick st with
                              | None => Some tick_num
                              | Some l => Some l
                              end
                         else leader_finished_tick st),
             cars_data ++ [mkCarTick pid (username r)
                             (round_nd 4 (Qmin 1 (pos / total_distance)))
                             (round_nd 0 (vel / MPH_TO_FPS))
                             None],
             false)
      end.

Definition run_tick (rs : list EntryResult) (tick_num : Z) (st : CarState)
      : CarState * list CarTick * bool :=
      fold_left (car_step tick_num) rs (st, [], true).

Definition grace_elapsed (st : CarState) (tick_num : Z) : bool :=
      match leader_finished_tick st with
      | Some l => (TRAILING_GRACE_TICKS <=? tick_num - l)%Z
      | None => false
      end.

    (** The [while tick_num < max_ticks] loop; [fuel] is
        [max_ticks - tick_num]. *)
Fixpoint tick_loop (fuel : nat) (rs : list EntryResult) (lap_count tick_num : Z)
             (st : CarState) : list Tick :=
      match fuel with
      | O => []
      | S fuel' =>
          let tick_num := (tick_num + 1)%Z in
          let '(st', cars_data, all_done) := run_tick rs tick_num st in
          let snapshot := mkTick tick_num lap_count cars_data in
          if all_done || grace_elapsed st' tick_num then [snapshot]
          else snapshot :: tick_loop fuel' rs lap_count tick_num st'
      end.
End Stream.

  (** The whole stream as the list of snapshots the generator yields.
      With a zero total distance the first progress division of the first
      tick raises before anything is yielded. *)
Definition generate_tick_stream (rs : list EntryResult) (lap_count : Z)
             (track : option TrackData) : Result (list Tick) :=
    match rs with
    | [] => Ok []
    | _ :: _ =>
        let (profile, n_tiles) :=
          match track with
          | Some t =>
              match path_order t with
              | [] => ([TOP_SPEED_FPS], 1%Z)
              | _ :: _ => (build_speed_profile t, Z.of_nat (length (path_order t)))
              end
          | None => ([TOP_SPEED_FPS], 1%Z)
          end in
        let total_distance := TILE_FEET * inject_Z n_tiles * inject_Z lap_count in
        if Qeq_bool total_distance 0 then Raise ZeroDivisionError
        else Ok (tick_loop profile n_tiles total_distance (init_setup rs)
                           (Z.to_nat max_ticks) rs lap_count 0 init_state)
    end.

End Physics.

(** ** backend/simulation/engine.py: wear *)

Definition wear_of (event_type : string) (s : Slot) : Q :=
  let multiplier :=
    match Dict.get String.eqb WEAR_MULTIPLIERS event_type with
    | Some m => m
    | None => 1
    end in
  let stressed :=
    match Dict.get String.eqb EVENT_STRESSED_SLOTS event_type with
    | Some l => l
    | None => []
    end in
  let wear := BASE_WEAR_PCT * multiplier in
  if existsb (slot_eqb s) stressed then wear * (15 # 10) else wear.

(** [CarSlots] built from the keyword dictionary [updated]: an absent
    keyword takes the default part. *)
Definition CarSlots_kwargs (updated : Dict.t Slot SlotPart) : CarSlots :=
  let field s :=
    match Dict.get slot_eqb updated s with
    | Some p => p
    | None => mkSlotPart standard 100
    end in
  mkCarSlots (field engine) (field tires) (field suspension)
             (field aero) (field fuel) (field electronics).

Definition apply_wear (car : CarSlots) (event_type : string) : Result CarSlots :=
  updated <- foldM (fun (updated : Dict.t Slot SlotPart) s =>
                      let part := get_slot car s in
                      let wear := wear_of event_type s in
                      let new_r := Qmax 0 (readiness part - wear) in
                      p <- SlotPart_new (tier part) (round_nd 1 new_r) ;;
                      Ok (Dict.set slot_eqb updated s p))
                   SLOT_NAMES [] ;;
  Ok (CarSlots_kwargs updated).

(** * Properties *)

(** ** Rounding *)

Lemma Qltb_lt (x y : Q) : Qltb x y = true <-> x < y.
Proof.
  unfold Qltb. rewrite negb_true_iff.
  split; intro H.
  - apply Qnot_le_lt. intro L. apply Qle_bool_iff in L. congruence.
  - destruct (Qle_bool y x) eqn:E; [|reflexivity].
    apply Qle_bool_iff in E. apply Qle_not_lt in E. contradiction.
Qed.

Lemma Qltb_ge (x y : Q) : Qltb x y = false <-> y <= x.
Proof.
  unfold Qltb. rewrite negb_false_iff. apply Qle_bool_iff.
Qed.

Lemma Qmax_spec_le (x y : Q) : x <= Qmax x y /\ y <= Qmax x y.
Proof. split; [apply Q.le_max_l | apply Q.le_max_r]. Qed.

Lemma Qmax_cases (x y : Q) : (y <= x /\ Qmax x y == x) \/ (x <= y /\ Qmax x y == y).
Proof.
  destruct (Qlt_le_dec x y) as [L|L].
  - right. split; [apply Qlt_le_weak, L | apply Q.max_r, Qlt_le_weak, L].
  - left. split; [exact L | apply Q.max_l, L].
Qed.

Lemma Qmin_cases (x y : Q) : (x <= y /\ Qmin x y == x) \/ (y <= x /\ Qmin x y == y).
Proof.
  destruct (Qlt_le_dec y x) as [L|L].
  - right. split; [apply Qlt_le_weak, L | apply Q.min_r, Qlt_le_weak, L].
  - left. split; [exact L | apply Q.min_l, L].
Qed.

Ltac qcompare H :=
  first [apply Qeq_alt in H | apply Qlt_alt in H | apply Qgt_alt in H].

Lemma inject_Z_succ (f : Z) : inject_Z (f + 1) == inject_Z f + 1.
Proof. rewrite inject_Z_plus. reflexivity. Qed.

Lemma round_half_even_bounds (x : Q) :
  inject_Z (round_half_even x) - (1 # 2) <= x <= inject_Z (round_half_even x) + (1 # 2).
Proof.
  unfold round_half_even.
  pose proof (Qfloor_le x) as Hlo.
  pose proof (Qlt_floor x) as Hhi.
  rewrite inject_Z_succ in Hhi.
  destruct (Qcompare (x - inject_Z (Qfloor x)) (1 # 2)) eqn:C.
  - apply Qeq_alt in C.
    destruct (Z.even (Qfloor x)); [|rewrite inject_Z_succ]; lra.
  - apply Qlt_alt in C. lra.
  - apply Qgt_alt in C. rewrite inject_Z_succ. lra.
Qed.

Lemma inject_Z_lt_succ (a b : Z) : inject_Z a < inject_Z b -> inject_Z a + 1 <= inject_Z b.
Proof.
  intro H. rewrite <- Zlt_Qlt in H.
  change 1 with (inject_Z 1). rewrite <- inject_Z_plus, <- Zle_Qle. lia.
Qed.

Lemma round_half_even_mono (x y : Q) : x <= y -> (round_half_even x <= round_half_even y)%Z.
Proof.
  intro L.
  pose proof (Qfloor_resp_le _ _ L) as F.
  pose proof (Qfloor_le x) as Hx. pose proof (Qlt_floor x) as Hx'.
  pose proof (Qfloor_le y) as Hy. pose proof (Qlt_floor y) as Hy'.
  rewrite inject_Z_succ in Hx', Hy'.
  unfold round_half_even.
  destruct (Z.eq_dec (Qfloor x) (Qfloor y)) as [E|N].
  - rewrite <- E in *.
    destruct (Qcompare (x - inject_Z (Qfloor x)) (1 # 2)) eqn:Cx;
      destruct (Qcompare (y - inject_Z (Qfloor x)) (1 # 2)) eqn:Cy;
      qcompare Cx; qcompare Cy;
      destruct (Z.even (Qfloor x)); try lia; exfalso; lra.
  - assert (Qfloor x + 1 <= Qfloor y)%Z by lia.
    destruct (Qcompare (x - inject_Z (Qfloor x)) (1 # 2));
      destruct (Qcompare (y - inject_Z (Qfloor y)) (1 # 2));
      destruct (Z.even (Qfloor x)); destruct (Z.even (Qfloor y)); lia.
Qed.

Lemma round_half_even_inject (z : Z) : round_half_even (inject_Z z) = z.
Proof.
  unfold round_half_even. rewrite Qfloor_Z.
  assert (C : Qcompare (inject_Z z - inject_Z z) (1 # 2) = Lt).
  { apply (proj1 (Qlt_alt _ _)). lra. }
  rewrite C. reflexivity.
Qed.

Lemma pow10_pos (d : nat) : 0 < inject_Z (10 ^ Z.of_nat d).
Proof.
  change 0 with (inject_Z 0). rewrite <- Zlt_Qlt. apply Z.pow_pos_nonneg; lia.
Qed.

Lemma round_nd_mono (d : nat) (x y : Q) : x <= y -> round_nd d x <= round_nd d y.
Proof.
  intro L. unfold round_nd.
  pose proof (pow10_pos d) as P.
  apply Qle_shift_div_l; [exact P|].
  unfold Qdiv. rewrite <- Qmult_assoc, (Qmult_comm (/ _)), Qmult_inv_r, Qmult_1_r by lra.
  rewrite <- Zle_Qle. apply round_half_even_mono.
  apply Qmult_le_compat_r; lra.
Qed.

Lemma round_nd_inject (d : nat) (z : Z) : round_nd d (inject_Z z) == inject_Z z.
Proof.
  unfold round_nd. rewrite <- inject_Z_mult, round_half_even_inject, inject_Z_mult.
  pose proof (pow10_pos d). field. lra.
Qed.

Lemma round_nd_0 (d : nat) : round_nd d 0 == 0.
Proof. exact (round_nd_inject d 0). Qed.

Lemma round_nd_err (d : nat) (x : Q) :
  x - (1 # 2) / inject_Z (10 ^ Z.of_nat d) <= round_nd d x
  /\ round_nd d x <= x + (1 # 2) / inject_Z (10 ^ Z.of_nat d).
Proof.
  unfold round_nd.
  pose proof (pow10_pos d) as P.
  pose proof (round_half_even_bounds (x * inject_Z (10 ^ Z.of_nat d))) as [B1 B2].
  set (p := inject_Z (10 ^ Z.of_nat d)) in *.
  set (r := inject_Z (round_half_even (x * p))) in *.
  split.
  - apply Qle_shift_div_l; [exact P|].
    assert (E : (x - (1 # 2) / p) * p == x * p - (1 # 2)) by (field; lra).
    rewrite E. lra.
  - apply Qle_shift_div_r; [exact P|].
    assert (E : (x + (1 # 2) / p) * p == x * p + (1 # 2)) by (field; lra).
    rewrite E. lra.
Qed.

(** ** Speed profile: the sweeps only lower speeds *)

Lemma Forall2_Qle_refl (l : list Q) : Forall2 Qle l l.
Proof. induction l; constructor; [apply Qle_refl | assumption]. Qed.

Lemma Forall2_Qle_trans (l1 l2 l3 : list Q) :
  Forall2 Qle l1 l2 -> Forall2 Qle l2 l3 -> Forall2 Qle l1 l3.
Proof.
  intro H. revert l3. induction H; intros l3 H3; inversion H3; subst; constructor.
  - eapply Qle_trans; eassumption.
  - apply IHForall2. assumption.
Qed.

Lemma set_nth_le (l : list Q) (i : nat) (v : Q) :
  v <= nth i l 0 -> Forall2 Qle (set_nth i v l) l.
Proof.
  revert i. induction l as [|a l IH]; intros [|i] H; simpl in *; try constructor.
  - exact H.
  - apply Forall2_Qle_refl.
  - apply Qle_refl.
  - apply IH, H.
Qed.

Lemma below_with_margin (l x : Q) : l + (1 # 100) < x -> l <= x.
Proof. intro H. lra. Qed.

Section ProfileBound.
Variable sqrt : Q -> Q.

Lemma constrain_le (a : Q) (nb : nat -> nat) (st : list Q * bool) (i : nat) :
    Forall2 Qle (fst (constrain sqrt a nb st i)) (fst st).
  Proof.
    destruct st as [speed changed]. unfold constrain.
    destruct (Qltb _ _) eqn:E; simpl.
    - apply Qltb_lt in E. apply set_nth_le.
      apply below_with_margin, E.
    - apply Forall2_Qle_refl.
  Qed.

Lemma pass_le (a : Q) (nb : nat -> nat) (idx : list nat) (st : list Q * bool) :
    Forall2 Qle (fst (fold_left (constrain sqrt a nb) idx st)) (fst st).
  Proof.
    revert st. induction idx as [|i idx IH]; intro st; simpl.
    - apply Forall2_Qle_refl.
    - eapply Forall2_Qle_trans; [apply IH | apply constrain_le].
  Qed.

Lemma sweeps_le (passes n : nat) (speed : list Q) :
    Forall2 Qle (sweeps sqrt passes n speed) speed.
  Proof.
    revert speed. induction passes as [|p IH]; intro speed; simpl.
    - apply Forall2_Qle_refl.
    - destruct (forward_pass sqrt n (backward_pass sqrt n (speed, false)))
        as [speed' changed] eqn:E.
      assert (L : Forall2 Qle speed' speed).
      { change speed' with (fst (speed', changed)). rewrite <- E.
        unfold forward_pass, backward_pass.
        eapply Forall2_Qle_trans; [apply pass_le|].
        exact (pass_le _ _ _ (speed, false)). }
      destruct changed; [|exact L].
      eapply Forall2_Qle_trans; [apply IH | exact L].
  Qed.
End ProfileBound.

(** C8. For every track (and whatever [math.sqrt] computes), every entry of
    the speed profile is at most the raw per-type target speed of the tile at
    the same place in the path, the profile has one entry per tile of the
    path, and the raw targets are ordered chicane < curve < straight. *)
Theorem build_speed_profile_below_raw_target (sqrt : Q -> Q) (track : TrackData) :
  Forall2 Qle (build_speed_profile sqrt track)
          (map (fun pos => raw_target (tile_type_of track pos)) (path_order track))
  /\ length (build_speed_profile sqrt track) = length (path_order track)
  /\ raw_target chicane < raw_target curve < raw_target straight.
Proof.
  assert (L : Forall2 Qle (build_speed_profile sqrt track) (raw_speeds track))
    by apply sweeps_le.
  split; [exact L|]. split.
  - apply Forall2_length in L. rewrite L. unfold raw_speeds. apply length_map.
  - split; reflexivity.
Qed.

(** ** Wear *)

Definition valid_part (p : SlotPart) : Prop := 0 <= readiness p <= 100.

Definition valid_car (car : CarSlots) : Prop := forall s, valid_part (get_slot car s).

(** The wear amount in the words of the specification: the base amount
    scaled by the event multiplier, and half as much again for a slot that is
    stressed in the event. *)
Definition wear_amount_spec (multiplier : Q) (stressed : bool) : Q :=
  if stressed then BASE_WEAR_PCT * multiplier + (1 # 2) * (BASE_WEAR_PCT * multiplier)
  else BASE_WEAR_PCT * multiplier.

Definition event_multiplier (event_type : string) : Q :=
  match Dict.get String.eqb WEAR_MULTIPLIERS event_type with
  | Some m => m
  | None => 1
  end.

Definition is_stressed (event_type : string) (s : Slot) : bool :=
  match Dict.get String.eqb EVENT_STRESSED_SLOTS event_type with
  | Some l => existsb (slot_eqb s) l
  | None => false
  end.

Lemma wear_of_spec (event_type : string) (s : Slot) :
  wear_of event_type s
  == wear_amount_spec (event_multiplier event_type) (is_stressed event_type s).
Proof.
  unfold wear_of, wear_amount_spec, event_multiplier, is_stressed.
  destruct (Dict.get String.eqb EVENT_STRESSED_SLOTS event_type) as [l|]; simpl.
  - destruct (existsb (slot_eqb s) l); [|reflexivity]. ring.
  - reflexivity.
Qed.

Lemma event_multiplier_lower (event_type : string) : 8 # 10 <= event_multiplier event_type.
Proof.
  unfold event_multiplier, WEAR_MULTIPLIERS. cbn [Dict.get].
  repeat match goal with
         | |- context [String.eqb ?a ?b] => destruct (String.eqb a b)
         end; unfold Qle; simpl; lia.
Qed.

Lemma wear_of_lower (event_type : string) (s : Slot) : 12 <= wear_of event_type s.
Proof.
  rewrite wear_of_spec. pose proof (event_multiplier_lower event_type) as M.
  unfold wear_amount_spec, BASE_WEAR_PCT.
  destruct (is_stressed event_type s); lra.
Qed.

Lemma worn_readiness_bounds (r w : Q) :
  0 <= r -> 12 <= w ->
  0 <= round_nd 1 (Qmax 0 (r - w)) /\ round_nd 1 (Qmax 0 (r - w)) <= r.
Proof.
  intros Hr Hw. split.
  - pose proof (round_nd_0 1) as Z0.
    pose proof (@round_nd_mono 1 0 (Qmax 0 (r - w)) (Q.le_max_l _ _)) as M.
    lra.
  - destruct (Qmax_cases 0 (r - w)) as [[L E]|[L E]].
    + assert (R : round_nd 1 (Qmax 0 (r - w)) <= round_nd 1 0)
        by (apply round_nd_mono; lra).
      pose proof (round_nd_0 1) as Z0. lra.
    + destruct (round_nd_err 1 (Qmax 0 (r - w))) as [_ U].
      assert (P : (1 # 2) / inject_Z (10 ^ Z.of_nat 1) == 1 # 20) by reflexivity.
      lra.
Qed.

Lemma round_nd_comp (d : nat) (x y : Q) : x == y -> round_nd d x == round_nd d y.
Proof.
  intro E. apply Qle_antisym; apply round_nd_mono; rewrite E; apply Qle_refl.
Qed.

Lemma SlotPart_new_ok (t : Tier) (r : Q) :
  0 <= r <= 100 -> SlotPart_new t r = Ok (mkSlotPart t r).
Proof.
  intros [H1 H2]. unfold SlotPart_new.
  apply Qle_bool_iff in H1. apply Qle_bool_iff in H2. rewrite H1, H2. reflexivity.
Qed.

(** The part [apply_wear] builds for one slot. *)
Definition worn_part (car : CarSlots) (event_type : string) (s : Slot) : SlotPart :=
  mkSlotPart (tier (get_slot car s))
             (round_nd 1 (Qmax 0 (readiness (get_slot car s) - wear_of event_type s))).

Lemma apply_wear_ok (car : CarSlots) (event_type : string) :
  valid_car car ->
  apply_wear car event_type
  = Ok (mkCarSlots (worn_part car event_type engine) (worn_part car event_type tires)
                   (worn_part car event_type suspension) (worn_part car event_type aero)
                   (worn_part car event_type fuel) (worn_part car event_type electronics)).
Proof.
  intro V. unfold apply_wear, SLOT_NAMES. cbn [foldM].
  assert (W : forall s, SlotPart_new (tier (get_slot car s))
                (round_nd 1 (Qmax 0 (readiness (get_slot car s) - wear_of event_type s)))
              = Ok (worn_part car event_type s)).
  { intro s. apply SlotPart_new_ok.
    destruct (V s) as [V0 V1].
    destruct (worn_readiness_bounds V0 (wear_of_lower event_type s)) as [B0 B1].
    split; [exact B0 | eapply Qle_trans; eassumption]. }
  rewrite (W engine). cbn [bind foldM]. rewrite (W tires). cbn [bind foldM].
  rewrite (W suspension). cbn [bind foldM]. rewrite (W aero). cbn [bind foldM].
  rewrite (W fuel). cbn [bind foldM]. rewrite (W electronics). cbn [bind foldM].
  reflexivity.
Qed.

(** C9. For every valid car configuration and every event type (also one
    the wear tables do not list), [apply_wear] returns a configuration in
    which every slot keeps its tier and has a readiness between 0 and its
    pre-wear value; the new readiness is the old one less the wear amount,
    floored at 0 and rounded to one decimal, where the wear amount is the
    base wear scaled by the event multiplier, and 50% more for a slot stressed
    in that event. *)
Theorem apply_wear_bounds (car : CarSlots) (event_type : string) :
  valid_car car ->
  exists car',
    apply_wear car event_type = Ok car'
    /\ forall s,
         tier (get_slot car' s) = tier (get_slot car s)
         /\ 0 <= readiness (get_slot car' s) <= readiness (get_slot car s)
         /\ readiness (get_slot car' s)
            == round_nd 1 (Qmax 0 (readiness (get_slot car s)
                                   - wear_amount_spec (event_multiplier event_type)
                                                      (is_stressed event_type s))).
Proof.
  intro V. eexists. split; [apply apply_wear_ok, V|].
  intro s.
  assert (E : get_slot (mkCarSlots (worn_part car event_type engine)
                 (worn_part car event_type tires) (worn_part car event_type suspension)
                 (worn_part car event_type aero) (worn_part car event_type fuel)
                 (worn_part car event_type electronics)) s = worn_part car event_type s)
    by (destruct s; reflexivity).
  rewrite E. unfold worn_part. cbn [tier readiness].
  split; [reflexivity|]. split.
  - destruct (V s) as [V0 _].
    exact (worn_readiness_bounds V0 (wear_of_lower event_type s)).
  - apply round_nd_comp. rewrite (wear_of_spec event_type s). reflexivity.
Qed.

Definition car_example : CarSlots :=
  mkCarSlots (mkSlotPart performance 100) (mkSlotPart upgraded (125 # 10))
             (mkSlotPart standard 60) (mkSlotPart standard 45)
             (mkSlotPart upgraded 18) (mkSlotPart performance 0).

Lemma car_example_valid : valid_car car_example.
Proof. intros []; split; unfold Qle; simpl; lia. Qed.

Lemma apply_wear_bounds_witness :
  exists car',
    apply_wear car_example "endurance" = Ok car'
    /\ forall s,
         tier (get_slot car' s) = tier (get_slot car_example s)
         /\ 0 <= readiness (get_slot car' s) <= readiness (get_slot car_example s)
         /\ readiness (get_slot car' s)
            == round_nd 1 (Qmax 0 (readiness (get_slot car_example s)
                                   - wear_amount_spec (event_multiplier "endurance")
                                                      (is_stressed "endurance" s))).
Proof. exact (apply_wear_bounds "endurance" car_example_valid). Defined.

(** ** Dictionaries *)

Section DictFacts.
Variables K V : Type.
Variable eqb : K -> K -> bool.
Hypothesis eqb_spec : forall a b, eqb a b = true <-> a = b.

Lemma eqb_refl (a : K) : eqb a a = true.
  Proof. apply eqb_spec. reflexivity. Qed.

Lemma Dict_get_set (d : Dict.t K V) (k k' : K) (v : V) :
    Dict.get eqb (Dict.set eqb d k v) k'
    = if eqb k k' then Some v else Dict.get eqb d k'.
  Proof.
    induction d as [|[k0 v0] d IH]; simpl.
    - reflexivity.
    - destruct (eqb k0 k) eqn:E0; simpl.
      + apply eqb_spec in E0. subst k0.
        destruct (eqb k k'); reflexivity.
      + destruct (eqb k0 k') eqn:E1.
        * apply eqb_spec in E1. subst k0.
          destruct (eqb k k') eqn:E2; [|reflexivity].
          apply eqb_spec in E2. subst k'. rewrite eqb_refl in E0. discriminate.
        * exact IH.
  Qed.
End DictFacts.

Lemma slot_eqb_spec (a b : Slot) : slot_eqb a b = true <-> a = b.
Proof. destruct a, b; simpl; split; intro H; congruence. Qed.

Lemma string_eqb_spec (a b : string) : String.eqb a b = true <-> a = b.
Proof. apply String.eqb_eq. Qed.

Lemma all_slots (s : Slot) : In s SLOT_NAMES.
Proof. destruct s; simpl; tauto. Qed.

(** ** Readiness score *)

Definition has_all (V : Type) (ps : Dict.t Slot V) : Prop :=
  forall s, Dict.get slot_eqb ps s <> None.

Lemma has_all_set (V : Type) (ps : Dict.t Slot V) (s : Slot) (v : V) :
  has_all ps -> has_all (Dict.set slot_eqb ps s v).
Proof.
  intros H s'. rewrite (@Dict_get_set _ _ slot_eqb slot_eqb_spec).
  destruct (slot_eqb s s'); [discriminate | apply H].
Qed.

(** What one slot adds to the readiness total, in the words of the
    specification: the readiness itself at 50 or above, and below 50 the
    readiness with the shortfall below 50 subtracted again, floored at 0. *)
Definition slot_contribution_spec (r : Q) : Q :=
  if Qltb r 50 then Qmax 0 (r - (50 - r)) else r.

Definition readiness_score_spec (car : CarSlots) : Q :=
  Qsum (map (fun s => slot_contribution_spec (readiness (get_slot car s))) SLOT_NAMES) / 6.

Definition readiness_step (car : CarSlots) (acc : Q * Dict.t Slot SlotResult) (s : Slot)
  : Result (Q * Dict.t Slot SlotResult) :=
  let (total, per_slot) := acc in
  let r := readiness (get_slot car s) in
  if Qltb r 50 then
    let penalty := 50 - r in
    let r := Qmax 0 (r - penalty) in
    sr <- Dict.item slot_eqb per_slot s ;;
    Ok (total + r, Dict.set slot_eqb per_slot s (model_copy_readiness_penalty sr penalty))
  else Ok (total + r, per_slot).

Lemma readiness_step_ok (car : CarSlots) (total : Q) (ps : Dict.t Slot SlotResult)
      (s : Slot) :
  has_all ps ->
  exists ps',
    readiness_step car (total, ps) s
    = Ok (total + slot_contribution_spec (readiness (get_slot car s)), ps')
    /\ has_all ps'.
Proof.
  intro H. unfold readiness_step, slot_contribution_spec.
  destruct (Qltb (readiness (get_slot car s)) 50).
  - unfold Dict.item. destruct (Dict.get slot_eqb ps s) as [sr|] eqn:G.
    + cbn [bind]. eexists. split; [reflexivity|]. apply has_all_set, H.
    + exfalso. exact (H s G).
  - exists ps. split; [reflexivity | exact H].
Qed.

Lemma readiness_fold (car : CarSlots) (slots : list Slot) (total : Q)
      (ps : Dict.t Slot SlotResult) :
  has_all ps ->
  exists ps',
    foldM (readiness_step car) slots (total, ps)
    = Ok (fold_left Qplus
            (map (fun s => slot_contribution_spec (readiness (get_slot car s))) slots)
            total, ps')
    /\ has_all ps'.
Proof.
  revert total ps. induction slots as [|s slots IH]; intros total ps H.
  - exists ps. split; [reflexivity | exact H].
  - cbn [foldM map fold_left].
    destruct (readiness_step_ok car total s H) as [ps1 [E1 H1]].
    rewrite E1. cbn [bind]. apply IH, H1.
Qed.

Lemma readiness_score_ok (car : CarSlots) (ps : Dict.t Slot SlotResult) :
  has_all ps ->
  exists ps', _readiness_score car ps = Ok (readiness_score_spec car, ps') /\ has_all ps'.
Proof.
  intro H. destruct (readiness_fold car SLOT_NAMES 0 H) as [ps' [E H']].
  exists ps'. split; [|exact H'].
  unfold _readiness_score. change (foldM _ SLOT_NAMES (0, ps)) with
    (foldM (readiness_step car) SLOT_NAMES (0, ps)).
  rewrite E. reflexivity.
Qed.

(** ** Event fit *)

Definition known_event (event_type : string) : Prop :=
  exists weights, Dict.get String.eqb EVENT_SLOT_WEIGHTS event_type = Some weights.

Lemma weights_rows_complete (event_type : string) (weights : Dict.t Slot Q) :
  Dict.get String.eqb EVENT_SLOT_WEIGHTS event_type = Some weights -> has_all weights.
Proof.
  unfold EVENT_SLOT_WEIGHTS. cbn [Dict.get].
  repeat match goal with
         | |- context [String.eqb ?a ?b] => destruct (String.eqb a b)
         end; intro E; try discriminate;
    injection E as <-; intros []; discriminate.
Qed.

Definition event_fit_step (car : CarSlots) (weights : Dict.t Slot Q) (total_w : Q)
           (acc : Q * Dict.t Slot SlotResult) (s : Slot)
  : Result (Q * Dict.t Slot SlotResult) :=
  let (weighted_sum, per_slot) := acc in
  let part := get_slot car s in
  let ts := TIER_SCORES (tier part) in
  w <- Dict.item slot_eqb weights s ;;
  let ws := inject_Z ts * w in
  Ok (weighted_sum + ws,
      Dict.set slot_eqb per_slot s
        (mkSlotResult (tier part) (readiness part) ts w (ws / total_w) 0)).

Lemma event_fit_fold_total (car : CarSlots) (weights : Dict.t Slot Q) (total_w : Q)
      (slots : list Slot) (acc : Q * Dict.t Slot SlotResult) :
  has_all weights ->
  exists res, foldM (event_fit_step car weights total_w) slots acc = Ok res.
Proof.
  intro H. revert acc. induction slots as [|s slots IH]; intros [ws ps].
  - eexists. reflexivity.
  - cbn [foldM]. unfold event_fit_step at 1, Dict.item.
    destruct (Dict.get slot_eqb weights s) eqn:G; [|exfalso; exact (H s G)].
    cbn [bind]. apply IH.
Qed.

Lemma event_fit_fold_keys (car : CarSlots) (weights : Dict.t Slot Q) (total_w : Q)
      (slots : list Slot) (acc res : Q * Dict.t Slot SlotResult) :
  foldM (event_fit_step car weights total_w) slots acc = Ok res ->
  forall s, In s slots \/ Dict.get slot_eqb (snd acc) s <> None ->
            Dict.get slot_eqb (snd res) s <> None.
Proof.
  revert acc. induction slots as [|s0 slots IH]; intros [ws ps] E s Hs.
  - cbn in E. injection E as <-. destruct Hs as [[]|Hs]. exact Hs.
  - cbn [foldM] in E. unfold event_fit_step at 1, Dict.item in E.
    destruct (Dict.get slot_eqb weights s0); [|discriminate].
    cbn [bind] in E. apply (IH _ E).
    cbn [snd]. rewrite (@Dict_get_set _ _ slot_eqb slot_eqb_spec).
    destruct (slot_eqb s0 s) eqn:Q0.
    + right. discriminate.
    + destruct Hs as [[->|Hs]|Hs].
      * rewrite (proj2 (slot_eqb_spec s s) eq_refl) in Q0. discriminate.
      * left. exact Hs.
      * right. exact Hs.
Qed.

Lemma event_fit_unfold (car : CarSlots) (event_type : string) :
  _event_fit car event_type
  = (weights <- Dict.item String.eqb EVENT_SLOT_WEIGHTS event_type ;;
     acc <- foldM (event_fit_step car weights (Qsum (map snd weights))) SLOT_NAMES (0, []) ;;
     Ok (Qmax 0 (fst acc / Qsum (map snd weights) - event_penalty car event_type), snd acc)).
Proof.
  unfold _event_fit. destruct (Dict.item String.eqb EVENT_SLOT_WEIGHTS event_type);
    [|reflexivity].
  cbn [bind].
  change (foldM _ SLOT_NAMES (0, [])) with
    (foldM (event_fit_step car a (Qsum (map snd a))) SLOT_NAMES (0, [])).
  destruct (foldM (event_fit_step car a (Qsum (map snd a))) SLOT_NAMES (0, []))
    as [[ws ps]|]; reflexivity.
Qed.

Lemma event_fit_total (car : CarSlots) (event_type : string) :
  known_event event_type -> exists res, _event_fit car event_type = Ok res.
Proof.
  intros [w Hw]. rewrite event_fit_unfold. unfold Dict.item. rewrite Hw. cbn [bind].
  destruct (event_fit_fold_total car (Qsum (map snd w)) SLOT_NAMES (0, [])
              (weights_rows_complete _ Hw)) as [res E].
  rewrite E. cbn [bind]. eexists. reflexivity.
Qed.

Lemma event_fit_has_all (car : CarSlots) (event_type : string)
      (res : Q * Dict.t Slot SlotResult) :
  _event_fit car event_type = Ok res -> has_all (snd res).
Proof.
  rewrite event_fit_unfold. unfold Dict.item.
  destruct (Dict.get String.eqb EVENT_SLOT_WEIGHTS event_type) as [w|]; [|discriminate].
  cbn [bind].
  destruct (foldM (event_fit_step car w (Qsum (map snd w))) SLOT_NAMES (0, []))
    as [acc|] eqn:E; [|discriminate].
  cbn [bind]. intro R. injection R as <-. cbn [snd].
  intro s. apply (event_fit_fold_keys _ _ _ _ _ E). left. apply all_slots.
Qed.

(** C6. For every car, the readiness score is the mean of the six per-slot
    contributions, where a slot at 50 or above contributes its readiness
    and a slot strictly below 50 contributes its readiness less the
    shortfall below 50, floored at 0.  The score is computed on the slot
    table that [_event_fit] returned, as [simulate_race] calls it. *)
Theorem readiness_score_is_penalized_mean (car : CarSlots) (event_type : string)
        (fit : Q * Dict.t Slot SlotResult) :
  _event_fit car event_type = Ok fit ->
  exists per_slot,
    _readiness_score car (snd fit) = Ok (readiness_score_spec car, per_slot).
Proof.
  intro E. destruct (readiness_score_ok car (event_fit_has_all _ _ E)) as [ps [R _]].
  exists ps. exact R.
Qed.

Lemma sprint_is_known : known_event "sprint".
Proof. eexists. reflexivity. Qed.

Lemma readiness_score_is_penalized_mean_witness :
  exists fit per_slot,
    _event_fit car_example "sprint" = Ok fit
    /\ _readiness_score car_example (snd fit)
       = Ok (readiness_score_spec car_example, per_slot).
Proof.
  destruct (event_fit_total car_example sprint_is_known) as [fit E].
  exists fit.
  destruct (readiness_score_is_penalized_mean car_example "sprint" E) as [ps R].
  exists ps. split; [exact E | exact R].
Defined.

(** ** Sorting *)

Section SortFacts.
Variable A : Type.
Variable key : A -> Q.

  (** Non-increasing in [key] from left to right. *)
Fixpoint descending (l : list A) : Prop :=
    match l with
    | [] => True
    | x :: l' => (forall y, In y l' -> key y <= key x) /\ descending l'
    end.

Lemma insert_desc_perm (x : A) (l : list A) : Permutation (insert_desc key x l) (x :: l).
  Proof.
    induction l as [|y l IH]; simpl.
    - apply Permutation_refl.
    - destruct (Qle_bool (key y) (key x)).
      + apply Permutation_refl.
      + eapply Permutation_trans; [apply perm_skip, IH | apply perm_swap].
  Qed.

Lemma sort_desc_perm (l : list A) : Permutation (sort_desc key l) l.
  Proof.
    induction l as [|x l IH]; simpl.
    - apply Permutation_refl.
    - eapply Permutation_trans; [apply insert_desc_perm | apply perm_skip, IH].
  Qed.

Lemma sort_desc_length (l : list A) : length (sort_desc key l) = length l.
  Proof. apply Permutation_length, sort_desc_perm. Qed.

Lemma insert_desc_descending (x : A) (l : list A) :
    descending l -> descending (insert_desc key x l).
  Proof.
    induction l as [|y l IH]; simpl; intro D.
    - split; [intros ? []|exact I].
    - destruct D as [Dy Dl].
      destruct (Qle_bool (key y) (key x)) eqn:E.
      + apply Qle_bool_iff in E. simpl. repeat split; try assumption.
        intros z [<-|Hz]; [exact E|].
        eapply Qle_trans; [apply Dy, Hz | exact E].
      + simpl. split; [|apply IH, Dl].
        intros z Hz.
        apply (Permutation_in _ (insert_desc_perm x l)) in Hz.
        destruct Hz as [<-|Hz]; [|apply Dy, Hz].
        destruct (Qlt_le_dec (key y) (key x)) as [L|L]; [|exact L].
        apply Qlt_le_weak in L. apply Qle_bool_iff in L. congruence.
  Qed.

Lemma sort_desc_descending (l : list A) : descending (sort_desc key l).
  Proof.
    induction l as [|x l IH]; simpl; [exact I|].
    apply insert_desc_descending, IH.
  Qed.

Lemma sort_desc_fixed (l : list A) : descending l -> sort_desc key l = l.
  Proof.
    induction l as [|x l IH]; simpl; intro D; [reflexivity|].
    destruct D as [Dx Dl]. rewrite (IH Dl).
    destruct l as [|y l]; simpl; [reflexivity|].
    assert (E : Qle_bool (key y) (key x) = true)
      by (apply Qle_bool_iff, Dx; left; reflexivity).
    rewrite E. reflexivity.
  Qed.

Lemma descending_nth (l : list A) (d : A) (i j : nat) :
    descending l -> (i < j)%nat -> (j < length l)%nat -> key (nth j l d) <= key (nth i l d).
  Proof.
    revert i j. induction l as [|x l IH]; intros i j D Hij Hj; simpl in Hj; [lia|].
    destruct D as [Dx Dl]. destruct j as [|j]; [lia|]. destruct i as [|i]; simpl.
    - apply Dx. apply nth_In. lia.
    - apply IH; [exact Dl | lia | lia].
  Qed.
End SortFacts.

(** ** The counterfactual rank table *)

Definition cf_fold (a : nat) (l : list (string * Q)) (d : Dict.t string Z) : Dict.t string Z :=
  fold_left (fun d ip => Dict.set String.eqb d (fst (snd ip)) (Z.of_nat (fst ip) + 1)%Z)
            (combine (seq a (length l)) l) d.

Lemma cf_fold_cons (a : nat) (p : string * Q) (l : list (string * Q)) (d : Dict.t string Z) :
  cf_fold a (p :: l) d = cf_fold (S a) l (Dict.set String.eqb d (fst p) (Z.of_nat a + 1)%Z).
Proof. reflexivity. Qed.

Lemma cf_fold_in (a : nat) (l : list (string * Q)) (d : Dict.t string Z) (k : string) :
  In k (map fst l) \/ Dict.get String.eqb d k <> None ->
  Dict.get String.eqb (cf_fold a l d) k <> None.
Proof.
  revert a d. induction l as [|p l IH]; intros a d H.
  - destruct H as [[]|H]. exact H.
  - rewrite cf_fold_cons. apply IH.
    rewrite (@Dict_get_set _ _ String.eqb string_eqb_spec).
    destruct (String.eqb (fst p) k) eqn:E.
    + right. discriminate.
    + destruct H as [[H|H]|H].
      * subst k. rewrite String.eqb_refl in E. discriminate.
      * left. exact H.
      * right. exact H.
Qed.

Lemma cf_fold_notin (a : nat) (l : list (string * Q)) (d : Dict.t string Z) (k : string) :
  ~ In k (map fst l) -> Dict.get String.eqb (cf_fold a l d) k = Dict.get String.eqb d k.
Proof.
  revert a d. induction l as [|p l IH]; intros a d H; [reflexivity|].
  rewrite cf_fold_cons, IH by (intro; apply H; right; assumption).
  rewrite (@Dict_get_set _ _ String.eqb string_eqb_spec).
  destruct (String.eqb (fst p) k) eqn:E; [|reflexivity].
  apply String.eqb_eq in E. exfalso. apply H. left. exact E.
Qed.

Lemma cf_fold_nth (a : nat) (l : list (string * Q)) (d : Dict.t string Z)
      (i : nat) (dflt : string * Q) :
  NoDup (map fst l) -> (i < length l)%nat ->
  Dict.get String.eqb (cf_fold a l d) (fst (nth i l dflt)) = Some (Z.of_nat (a + i) + 1)%Z.
Proof.
  revert a d i. induction l as [|p l IH]; intros a d i ND Hi; simpl in Hi; [lia|].
  inversion ND as [|? ? Hp ND']; subst. rewrite cf_fold_cons.
  destruct i as [|i]; simpl nth.
  - rewrite cf_fold_notin by exact Hp.
    rewrite (@Dict_get_set _ _ String.eqb string_eqb_spec), String.eqb_refl.
    f_equal. lia.
  - rewrite IH by (try assumption; lia). f_equal. lia.
Qed.

Lemma cf_rank_of_eq (l : list (string * Q)) : cf_rank_of l = cf_fold 0 l [].
Proof. reflexivity. Qed.

(** ** The race simulator *)

Definition has_car (e : RaceEntry) : bool :=
  match locked_car e with
  | Some _ => true
  | None => false
  end.

(** The composite score in the words of the specification. *)
Definition clamp (lo hi x : Q) : Q := Qmin hi (Qmax lo x).

Definition composite_score_spec (event_type : string) (is_dnf : bool) (bq ef rs luck : Q) : Q :=
  if is_dnf then 0
  else
    let w := if (event_type =? "time_trial")%string then 1 # 2 else 2 # 5 in
    clamp 0 100 (bq * w + ef * (35 # 100) + rs * (25 # 100) + luck).

(** How an output record relates to the element of [raw_results] it is
    built from. *)
Record result_of (cf_rank : Dict.t string Z) (raw : RawResult) (r : EntryResult) : Prop := {
  ro_player_id : player_id r = raw_player_id raw;
  ro_username : username r = raw_username raw;
  ro_score : result_score r = round_nd 2 (raw_score raw);
  ro_build_quality : build_quality r = round_nd 2 (raw_build_quality raw);
  ro_event_fit : event_fit r = round_nd 2 (raw_event_fit raw);
  ro_readiness : readiness_score r = round_nd 2 (raw_readiness_score raw);
  ro_luck : luck_delta r = round_nd 2 (raw_luck_delta raw);
  ro_dnf : dnf r = raw_dnf raw;
  ro_dnf_slot : dnf_slot r = raw_dnf_slot raw;
  ro_cf : Dict.get String.eqb cf_rank (raw_player_id raw) = Some (counterfactual_position r)
}.

Definition positions_from (pos : Z) (k : nat) : list Z :=
  map (fun i => pos + Z.of_nat i)%Z (seq 0 k).

Lemma positions_from_S (pos : Z) (k : nat) :
  positions_from pos (S k) = pos :: positions_from (pos + 1) k.
Proof.
  unfold positions_from. simpl. f_equal; [lia|].
  rewrite <- seq_shift, map_map. apply map_ext. intro i. lia.
Qed.

Section SimulatorFacts.
Variable rng : string -> string -> Random.t.

Lemma build_results_spec (raws : list RawResult) (cf_rank : Dict.t string Z) :
    forall pos g res g',
      build_results pos raws cf_rank g = Ok (res, g') ->
      Forall2 (result_of cf_rank) raws res
      /\ map position res = positions_from pos (length raws).
  Proof.
    induction raws as [|raw raws IH]; intros pos g res g' E.
    - cbn in E. injection E as <- <-. split; [constructor | reflexivity].
    - cbn [build_results] in E. unfold Dict.item in E.
      destruct (Dict.get String.eqb cf_rank (raw_player_id raw)) as [cf|] eqn:G;
        [|discriminate].
      cbn [bind] in E. destruct (_luck_tag (raw_luck_delta raw) g) as [tag g1].
      destruct (build_results (pos + 1) raws cf_rank g1) as [[rest g2]|] eqn:R;
        [|discriminate].
      cbn [bind fst snd] in E. injection E as <- <-.
      destruct (IH _ _ _ _ R) as [F P]. split.
      + constructor; [|exact F]. constructor; try reflexivity. exact G.
      + cbn [map position length]. rewrite positions_from_S, P. reflexivity.
  Qed.

Lemma build_results_total (raws : list RawResult) (cf_rank : Dict.t string Z) :
    (forall raw, In raw raws -> Dict.get String.eqb cf_rank (raw_player_id raw) <> None) ->
    forall pos g, exists res g', build_results pos raws cf_rank g = Ok (res, g').
  Proof.
    induction raws as [|raw raws IH]; intros H pos g.
    - do 2 eexists. reflexivity.
    - cbn [build_results]. unfold Dict.item.
      destruct (Dict.get String.eqb cf_rank (raw_player_id raw)) as [cf|] eqn:G.
      + cbn [bind]. destruct (_luck_tag (raw_luck_delta raw) g) as [tag g1].
        destruct (IH (fun r Hr => H r (or_intror Hr)) (pos + 1)%Z g1) as [rest [g2 R]].
        rewrite R. cbn [bind]. do 2 eexists. reflexivity.
      + exfalso. exact (H raw (or_introl eq_refl) G).
  Qed.

Lemma simulate_entry_total (id event_type : string) (entry : RaceEntry) (car : CarSlots) :
    known_event event_type -> exists raw, simulate_entry rng id event_type entry car = Ok raw.
  Proof.
    intro K. unfold simulate_entry.
    destruct (_check_dnf car (rng id (entry_player_id entry))) as [[d ds] rng1].
    destruct (event_fit_total car K) as [fit Ef]. rewrite Ef. cbn [bind].
    destruct (readiness_score_ok car (event_fit_has_all _ _ Ef)) as [ps [Rs _]].
    rewrite Rs. cbn [bind]. destruct (Random.uniform _ _ _). eexists. reflexivity.
  Qed.

  (** What [simulate_entry] computes for an entry. *)
Record raw_of (id event_type : string) (entry : RaceEntry) (car : CarSlots)
         (raw : RawResult) : Prop := {
    rw_player_id : raw_player_id raw = entry_player_id entry;
    rw_build_quality : raw_build_quality raw = _build_quality car;
    rw_event_fit : exists fit, _event_fit car event_type = Ok fit /\ raw_event_fit raw = fst fit;
    rw_readiness : raw_readiness_score raw = readiness_score_spec car;
    rw_dnf : raw_dnf raw = fst (fst (_check_dnf car (rng id (entry_player_id entry))));
    rw_luck : raw_luck_delta raw
              = fst (Random.uniform (snd (_check_dnf car (rng id (entry_player_id entry))))
                                    (- luck_range event_type) (luck_range event_type));
    rw_score : raw_score raw
               = if raw_dnf raw then 0
                 else Qmax 0 (Qmin 100 (neutral_score event_type raw + raw_luck_delta raw))
  }.

Lemma simulate_entry_spec (id event_type : string) (entry : RaceEntry) (car : CarSlots)
        (raw : RawResult) :
    simulate_entry rng id event_type entry car = Ok raw ->
    raw_of id event_type entry car raw.
  Proof.
    unfold simulate_entry.
    destruct (_check_dnf car (rng id (entry_player_id entry))) as [[d ds] rng1] eqn:D.
    destruct (_event_fit car event_type) as [fit|] eqn:Ef; [|discriminate].
    cbn [bind].
    destruct (readiness_score_ok car (event_fit_has_all _ _ Ef)) as [ps [Rs _]].
    rewrite Rs. cbn [bind fst snd].
    destruct (Random.uniform rng1 _ _) as [luck rng2] eqn:U.
    intro E. injection E as <-.
    constructor; rewrite ?D;
      cbn [raw_player_id raw_build_quality raw_event_fit raw_readiness_score raw_dnf
           raw_luck_delta raw_score fst snd]; rewrite ?U; try reflexivity.
    exists fit. split; [exact Ef | reflexivity].
  Qed.

Lemma collect_raw_total (id event_type : string) (es : list RaceEntry) :
    known_event event_type -> exists raws, collect_raw rng id event_type es = Ok raws.
  Proof.
    intro K. induction es as [|e es [raws IH]]; [eexists; reflexivity|].
    cbn [collect_raw]. destruct (locked_car e) as [car|]; [|exists raws; exact IH].
    destruct (simulate_entry_total id e car K) as [raw E].
    rewrite E, IH. cbn [bind]. eexists. reflexivity.
  Qed.

Lemma collect_raw_spec (id event_type : string) (es : list RaceEntry) :
    forall raws,
      collect_raw rng id event_type es = Ok raws ->
      Forall2 (fun e raw => exists car, locked_car e = Some car
                                        /\ simulate_entry rng id event_type e car = Ok raw)
              (filter has_car es) raws.
  Proof.
    induction es as [|e es IH]; intros raws E.
    - cbn in E. injection E as <-. constructor.
    - cbn [collect_raw] in E. cbn [filter]. unfold has_car at 1.
      destruct (locked_car e) as [car|] eqn:L; [|apply IH, E].
      destruct (simulate_entry rng id event_type e car) as [raw|] eqn:S; [|discriminate].
      cbn [bind] in E.
      destruct (collect_raw rng id event_type es) as [rs|]; [|discriminate].
      cbn [bind] in E. injection E as <-.
      constructor; [|apply IH; reflexivity].
      exists car. split; [exact L | exact S].
  Qed.
End SimulatorFacts.

Lemma Forall2_nth (A B : Type) (R : A -> B -> Prop) (l1 : list A) (l2 : list B)
      (i : nat) (d1 : A) (d2 : B) :
  Forall2 R l1 l2 -> (i < length l1)%nat -> R (nth i l1 d1) (nth i l2 d2).
Proof.
  intro F. revert i. induction F as [|a b l1 l2 Hab F IH]; intros [|i] Hi; simpl in *;
    try lia; [exact Hab | apply IH; lia].
Qed.

Lemma positions_from_nth (pos : Z) (k i : nat) (d : Z) :
  (i < k)%nat -> nth i (positions_from pos k) d = (pos + Z.of_nat i)%Z.
Proof.
  intro H. unfold positions_from.
  rewrite (nth_indep _ d (pos + Z.of_nat 0)%Z) by (rewrite length_map, length_seq; exact H).
  rewrite (map_nth (fun i => (pos + Z.of_nat i)%Z)), seq_nth by exact H. reflexivity.
Qed.

Section RaceFacts.
Variable rng : string -> string -> Random.t.

  (** The shape of a successful run: the raw results in input order, sorted
      into finishing order, and the output records built from them. *)
Record run_of (race : Race) (run_raws : list RawResult) (results : list EntryResult)
    : Prop := {
    run_collect : collect_raw rng (race_id race) (event_type race) (entries race)
                  = Ok run_raws;
    run_records :
      Forall2 (result_of (cf_rank_of (neutral_scores_of (event_type race)
                                        (sort_desc raw_score run_raws))))
              (sort_desc raw_score run_raws) results;
    run_positions : map position results = positions_from 1 (length run_raws)
  }.

Lemma simulate_race_run (race : Race) (g : Random.t) :
    known_event (event_type race) ->
    exists raws results g',
      simulate_race rng race g = Ok (results, g') /\ run_of race raws results.
  Proof.
    intro K.
    destruct (collect_raw_total rng (race_id race) (entries race) K) as [raws C].
    unfold simulate_race, sorted_raw. rewrite C. cbn [bind].
    set (sorted := sort_desc raw_score raws).
    set (cf := cf_rank_of (neutral_scores_of (event_type race) sorted)).
    assert (H : forall raw, In raw sorted ->
                            Dict.get String.eqb cf (raw_player_id raw) <> None).
    { intros raw Hin. unfold cf. rewrite cf_rank_of_eq. apply cf_fold_in. left.
      unfold neutral_scores_of.
      eapply Permutation_in.
      - apply Permutation_map, Permutation_sym, sort_desc_perm.
      - rewrite map_map. cbn [fst]. apply in_map_iff. exists raw. split; [reflexivity|exact Hin]. }
    destruct (build_results_total sorted cf H 1%Z g) as [results [g' B]].
    exists raws, results, g'. split; [exact B|].
    destruct (build_results_spec _ _ _ _ B) as [F P].
    constructor; [exact C | exact F |].
    rewrite P. unfold sorted. rewrite sort_desc_length. reflexivity.
  Qed.

Lemma run_raw_of (race : Race) (raws : list RawResult) :
    collect_raw rng (race_id race) (event_type race) (entries race) = Ok raws ->
    Forall2 (fun e raw => exists car, locked_car e = Some car
                                      /\ raw_of rng (race_id race) (event_type race) e car raw)
            (filter has_car (entries race)) raws.
  Proof.
    intro C. apply collect_raw_spec in C.
    induction C as [|e raw es rs [car [L S]] _ IH]; constructor; [|exact IH].
    exists car. split; [exact L | apply simulate_entry_spec, S].
  Qed.

Lemma run_raw_score (race : Race) (raws : list RawResult) (raw : RawResult) :
    collect_raw rng (race_id race) (event_type race) (entries race) = Ok raws ->
    In raw raws ->
    raw_score raw
    = if raw_dnf raw then 0
      else Qmax 0 (Qmin 100 (neutral_score (event_type race) raw + raw_luck_delta raw)).
  Proof.
    intros C Hin. apply run_raw_of in C.
    induction C as [|e r es rs [car [_ S]] _ IH]; [destruct Hin|].
    destruct Hin as [<-|Hin]; [apply (rw_score S) | apply IH, Hin].
  Qed.
End RaceFacts.

Lemma Forall2_map_eq (A B C : Type) (R : A -> B -> Prop) (f : A -> C) (h : B -> C)
      (l1 : list A) (l2 : list B) :
  (forall a b, R a b -> f a = h b) -> Forall2 R l1 l2 -> map f l1 = map h l2.
Proof.
  intros H F. induction F as [|a b l1 l2 Hab F IH]; simpl; [reflexivity|].
  rewrite (H _ _ Hab), IH. reflexivity.
Qed.

Lemma In_position_index (results : list EntryResult) (k : nat) (r : EntryResult) :
  map position results = positions_from 1 k ->
  In r results ->
  exists i, (i < length results)%nat /\ nth i results r = r
            /\ position r = (1 + Z.of_nat i)%Z.
Proof.
  intros P Hin. destruct (In_nth _ _ r Hin) as [i [Hi E]].
  exists i. split; [exact Hi|]. split; [exact E|].
  assert (L : length results = k).
  { apply (f_equal (@length Z)) in P.
    unfold positions_from in P. rewrite !length_map, length_seq in P. exact P. }
  rewrite <- E at 1. rewrite <- (map_nth position), P.
  apply positions_from_nth. lia.
Qed.

(** C3. For every race with a known event type, [simulate_race] returns one
    result per entry that has a locked car (entries without one are skipped),
    the positions are exactly 1..k in order, and every DNF entrant is placed
    after every entrant whose score is strictly positive. *)
Theorem simulate_race_positions (rng : string -> string -> Random.t) (race : Race)
        (g : Random.t) :
  known_event (event_type race) ->
  exists results g',
    simulate_race rng race g = Ok (results, g')
    /\ Permutation (map player_id results)
                   (map entry_player_id (filter has_car (entries race)))
    /\ map position results = positions_from 1 (length (filter has_car (entries race)))
    /\ forall r1 r2,
         In r1 results -> In r2 results ->
         dnf r1 = true -> 0 < result_score r2 ->
         (position r2 < position r1)%Z.
Proof.
  intro K. destruct (simulate_race_run rng race g K) as [raws [results [g' [E Run]]]].
  exists results, g'. split; [exact E|].
  destruct Run as [C F P].
  pose proof (run_raw_of rng race C) as RO.
  assert (Len : length raws = length (filter has_car (entries race)))
    by (symmetry; exact (Forall2_length RO)).
  split; [|split].
  - rewrite <- (Forall2_map_eq raw_player_id player_id
                  (fun a b (H : result_of _ a b) => eq_sym (ro_player_id H)) F).
    eapply Permutation_trans; [apply Permutation_map, sort_desc_perm|].
    rewrite (Forall2_map_eq entry_player_id raw_player_id
               (R := fun e raw => exists car, locked_car e = Some car
                       /\ raw_of rng (race_id race) (event_type race) e car raw)
               (l1 := filter has_car (entries race)) (l2 := raws)).
    + apply Permutation_refl.
    + intros e raw [car [_ S]]. symmetry. exact (rw_player_id S).
    + exact RO.
  - rewrite P, Len. reflexivity.
  - intros r1 r2 H1 H2 D1 S2.
    destruct (@In_position_index _ _ _ P H1) as [i1 [L1 [N1 P1]]].
    destruct (@In_position_index _ _ _ P H2) as [i2 [L2 [N2 P2]]].
    rewrite P1, P2.
    set (sorted := sort_desc raw_score raws) in *.
    assert (LS : length sorted = length results) by exact (Forall2_length F).
    assert (Sc : forall i r, (i < length results)%nat -> nth i results r = r ->
                 forall raw0, result_score r = round_nd 2 (raw_score (nth i sorted raw0))
                              /\ dnf r = raw_dnf (nth i sorted raw0)
                              /\ In (nth i sorted raw0) raws).
    { intros i r Li Ni raw0.
      pose proof (@Forall2_nth _ _ _ _ _ i raw0 r F ltac:(lia)) as Hr. rewrite Ni in Hr.
      split; [exact (ro_score Hr)|]. split; [exact (ro_dnf Hr)|].
      apply (Permutation_in _ (sort_desc_perm raw_score raws)).
      fold sorted. apply nth_In. lia. }
    destruct raws as [|raw0 raws']; [simpl in LS; lia|].
    destruct (Sc i1 r1 L1 N1 raw0) as [S1 [Dn1 In1]].
    destruct (Sc i2 r2 L2 N2 raw0) as [S2' [_ _]].
    pose proof (@run_raw_score rng race _ _ C In1) as Z1.
    rewrite <- Dn1, D1 in Z1.
    destruct (Nat.lt_trichotomy i2 i1) as [Lt|[Eq|Gt]]; [lia| |]; exfalso.
    + subst i2. rewrite S2', Z1 in S2.
      pose proof (round_nd_0 2). lra.
    + pose proof (@descending_nth _ raw_score sorted raw0 i1 i2
                    (sort_desc_descending raw_score (raw0 :: raws')) Gt ltac:(lia)) as Le.
      rewrite Z1 in Le. apply (@round_nd_mono 2) in Le.
      rewrite <- S2' in Le. pose proof (round_nd_0 2). lra.
Qed.

(** A concrete race: two locked entrants and one that never locked. *)
Definition rng_example (id pid : string) : Random.t :=
  Random.mk (fun k => if (pid =? "ann")%string then 2 ^ 52 else 2 ^ 52 + 2 ^ 51)%N 0.

Definition global_example : Random.t := Random.mk N.of_nat 0.

Definition race_example : Race :=
  {| race_id := "2026-01-01_12:00"; scheduled_time := "2026-01-01T12:00:00Z";
     event_type := "sprint"; status := running; entry_fee := 100; lap_count := 25;
     grid_size := 12; track := None;
     entries := [ mkRaceEntry "ann" "Ann" (Some car_example) "";
                  mkRaceEntry "bob" "Bob" None "";
                  mkRaceEntry "cyd" "Cyd"
                    (Some (mkCarSlots (mkSlotPart standard 100) (mkSlotPart standard 100)
                                      (mkSlotPart standard 100) (mkSlotPart standard 100)
                                      (mkSlotPart standard 100) (mkSlotPart standard 100)))
                    "" ];
     results := [] |}.

Lemma simulate_race_positions_witness :
  exists results g',
    simulate_race rng_example race_example global_example = Ok (results, g')
    /\ Permutation (map player_id results)
                   (map entry_player_id (filter has_car (entries race_example)))
    /\ map position results
       = positions_from 1 (length (filter has_car (entries race_example)))
    /\ forall r1 r2,
         In r1 results -> In r2 results ->
         dnf r1 = true -> 0 < result_score r2 ->
         (position r2 < position r1)%Z.
Proof.
  apply (simulate_race_positions rng_example race_example global_example).
  eexists. reflexivity.
Defined.

Lemma Forall2_In_l (A B : Type) (R : A -> B -> Prop) (l1 : list A) (l2 : list B) (a : A) :
  Forall2 R l1 l2 -> In a l1 -> exists b, In b l2 /\ R a b.
Proof.
  intro F. induction F as [|x y l1 l2 Hxy F IH]; intros [].
  - subst. exists y. split; [left; reflexivity | exact Hxy].
  - destruct (IH H) as [b [Hb Rb]]. exists b. split; [right; exact Hb | exact Rb].
Qed.

Lemma clamp_order (x y : Q) : x == y -> Qmax 0 (Qmin 100 x) == clamp 0 100 y.
Proof.
  intro E. unfold clamp.
  destruct (Qmin_cases 100 x) as [[L1 E1]|[L1 E1]];
    destruct (Qmax_cases 0 (Qmin 100 x)) as [[L2 E2]|[L2 E2]];
    destruct (Qmax_cases 0 y) as [[L3 E3]|[L3 E3]];
    destruct (Qmin_cases 100 (Qmax 0 y)) as [[L4 E4]|[L4 E4]]; lra.
Qed.

Lemma raw_score_spec (event_type : string) (raw : RawResult) :
  raw_score raw
  = (if raw_dnf raw then 0
     else Qmax 0 (Qmin 100 (neutral_score event_type raw + raw_luck_delta raw))) ->
  raw_score raw
  == composite_score_spec event_type (raw_dnf raw) (raw_build_quality raw)
       (raw_event_fit raw) (raw_readiness_score raw) (raw_luck_delta raw).
Proof.
  intros ->. unfold composite_score_spec. destruct (raw_dnf raw); [reflexivity|].
  apply clamp_order. unfold neutral_score, bq_weight, is_time_trial.
  destruct (event_type =? "time_trial")%string; lra.
Qed.

(** C5. For every race with a known event type and every entrant with a
    locked car: the simulator computes a score for the entrant that is 0 when
    the entrant is DNF and otherwise build_quality*w + event_fit*0.35 +
    readiness_score*0.25 + luck_delta clamped to [0,100], with w = 0.50 for
    a time trial and 0.40 for any other event; the sub-scores are those
    the per-entry functions return for the locked car, and the entrant's
    output record carries the score rounded to two decimals. *)
Theorem composite_score_formula (rng : string -> string -> Random.t) (race : Race)
        (g : Random.t) :
  known_event (event_type race) ->
  exists results g',
    simulate_race rng race g = Ok (results, g')
    /\ forall entry car,
         In entry (entries race) -> locked_car entry = Some car ->
         exists raw r,
           simulate_entry rng (race_id race) (event_type race) entry car = Ok raw
           /\ raw_build_quality raw = _build_quality car
           /\ (exists fit, _event_fit car (event_type race) = Ok fit
                           /\ raw_event_fit raw = fst fit)
           /\ raw_readiness_score raw = readiness_score_spec car
           /\ raw_score raw
              == composite_score_spec (event_type race) (raw_dnf raw)
                   (raw_build_quality raw) (raw_event_fit raw)
                   (raw_readiness_score raw) (raw_luck_delta raw)
           /\ (raw_dnf raw = true -> raw_score raw = 0)
           /\ In r results
           /\ player_id r = entry_player_id entry
           /\ dnf r = raw_dnf raw
           /\ result_score r = round_nd 2 (raw_score raw).
Proof.
  intro K. destruct (simulate_race_run rng race g K) as [raws [results [g' [E Run]]]].
  exists results, g'. split; [exact E|].
  destruct Run as [C F P]. intros entry car Hin L.
  assert (Hf : In entry (filter has_car (entries race))).
  { apply filter_In. split; [exact Hin|]. unfold has_car. rewrite L. reflexivity. }
  destruct (@Forall2_In_l _ _ _ _ _ _ (@collect_raw_spec rng _ _ _ _ C) Hf) as [raw [Hraw [car' [L' S]]]].
  rewrite L in L'. injection L' as <-.
  assert (Hs : In raw (sort_desc raw_score raws))
    by (apply (Permutation_in _ (Permutation_sym (sort_desc_perm raw_score raws))), Hraw).
  destruct (@Forall2_In_l _ _ _ _ _ _ F Hs) as [r [Hr Ro]].
  pose proof (@simulate_entry_spec rng _ _ _ _ _ S) as Rw.
  exists raw, r. split; [exact S|].
  split; [exact (rw_build_quality Rw)|]. split; [exact (rw_event_fit Rw)|].
  split; [exact (rw_readiness Rw)|]. split; [apply raw_score_spec, (rw_score Rw)|].
  split; [intro D; rewrite (rw_score Rw), D; reflexivity|].
  split; [exact Hr|]. split; [rewrite (ro_player_id Ro); exact (rw_player_id Rw)|].
  split; [exact (ro_dnf Ro) | exact (ro_score Ro)].
Qed.

Lemma composite_score_formula_witness :
  exists results g',
    simulate_race rng_example race_example global_example = Ok (results, g')
    /\ forall entry car,
         In entry (entries race_example) -> locked_car entry = Some car ->
         exists raw r,
           simulate_entry rng_example (race_id race_example) (event_type race_example)
                          entry car = Ok raw
           /\ raw_build_quality raw = _build_quality car
           /\ (exists fit, _event_fit car (event_type race_example) = Ok fit
                           /\ raw_event_fit raw = fst fit)
           /\ raw_readiness_score raw = readiness_score_spec car
           /\ raw_score raw
              == composite_score_spec (event_type race_example) (raw_dnf raw)
                   (raw_build_quality raw) (raw_event_fit raw)
                   (raw_readiness_score raw) (raw_luck_delta raw)
           /\ (raw_dnf raw = true -> raw_score raw = 0)
           /\ In r results
           /\ player_id r = entry_player_id entry
           /\ dnf r = raw_dnf raw
           /\ result_score r = round_nd 2 (raw_score raw).
Proof.
  apply (composite_score_formula rng_example race_example global_example).
  eexists. reflexivity.
Defined.

(** ** Counterfactual rank *)

Lemma descending_map (A B : Type) (f : A -> B) (key : B -> Q) (l : list A) :
  descending (fun a => key (f a)) l <-> descending key (map f l).
Proof.
  induction l as [|x l IH]; simpl; [tauto|].
  rewrite IH. split; intros [H D]; (split; [|exact D]).
  - intros y Hy. apply in_map_iff in Hy. destruct Hy as [a [<- Ha]]. apply H, Ha.
  - intros a Ha. apply H, in_map, Ha.
Qed.

Lemma keys_index_unique (N : list (string * Q)) (d : string * Q) (i j : nat) :
  NoDup (map fst N) -> (i < length N)%nat -> (j < length N)%nat ->
  fst (nth i N d) = fst (nth j N d) -> i = j.
Proof.
  intros ND Hi Hj E.
  apply (proj1 (NoDup_nth (map fst N) (fst d)) ND); rewrite ?length_map; try assumption.
  rewrite !(map_nth fst). exact E.
Qed.

Lemma perm_same_keys (N M : list (string * Q)) (d : string * Q) :
  Permutation N M -> NoDup (map fst M) ->
  (forall i, (i < length M)%nat -> fst (nth i N d) = fst (nth i M d)) ->
  N = M.
Proof.
  intros P ND H.
  pose proof (Permutation_length P) as L.
  apply (nth_ext _ _ d d L). intros i Hi.
  assert (Hin : In (nth i N d) M) by (apply (Permutation_in _ P), nth_In, Hi).
  destruct (In_nth _ _ d Hin) as [k [Hk Ek]].
  assert (k = i).
  { apply (@keys_index_unique M d k i ND Hk ltac:(lia)).
    rewrite Ek. apply H. lia. }
  subst k. symmetry. exact Ek.
Qed.

Definition raw_default : RawResult := mkRaw "" "" 0 0 0 0 0 [] false None.

Definition result_default : EntryResult :=
  mkEntryResult "" "" 0 0 0 0 0 0 0 [] "" false None.

Definition neutral_pair (event_type : string) (r : RawResult) : string * Q :=
  (raw_player_id r, neutral_score event_type r).

Lemma neutral_scores_of_eq (event_type : string) (sorted : list RawResult) :
  neutral_scores_of event_type sorted = sort_desc snd (map (neutral_pair event_type) sorted).
Proof. reflexivity. Qed.

(** C4, as the code has it.  For a race with a known event type and
    pairwise-distinct ids among the locked entrants: every entrant's
    counterfactual_position is one plus the index of its id in the stable
    descending sort of the luck-free sums build_quality*w + event_fit*0.35
    + readiness_score*0.25 (not clamped, and not zeroed for a DNF), taken
    over the entrants in finishing order; and counterfactual_position equals
    position for every entrant exactly when the finishing order is already
    non-increasing in that luck-free sum. *)
Theorem counterfactual_position_rank (rng : string -> string -> Random.t) (race : Race)
        (g : Random.t) :
  known_event (event_type race) ->
  NoDup (map entry_player_id (filter has_car (entries race))) ->
  exists sorted results g',
    sorted_raw rng race = Ok sorted
    /\ simulate_race rng race g = Ok (results, g')
    /\ (forall r, In r results ->
          exists i,
            nth_error (map fst (neutral_scores_of (event_type race) sorted)) i
            = Some (player_id r)
            /\ counterfactual_position r = (Z.of_nat i + 1)%Z)
    /\ ((forall r, In r results -> counterfactual_position r = position r)
        <-> descending (neutral_score (event_type race)) sorted).
Proof.
  intros K ND.
  destruct (simulate_race_run rng race g K) as [raws [results [g' [E [C F P]]]]].
  exists (sort_desc raw_score raws), results, g'.
  split; [unfold sorted_raw; rewrite C; reflexivity|]. split; [exact E|].
  set (ev := event_type race) in *.
  set (sorted := sort_desc raw_score raws) in *.
  set (d := neutral_pair ev raw_default).
  set (M := map (neutral_pair ev) sorted).
  set (N := neutral_scores_of ev sorted) in *.
  assert (PNM : Permutation N M) by apply sort_desc_perm.
  assert (NDM : NoDup (map fst M)).
  { unfold M. rewrite map_map. cbn [neutral_pair fst].
    apply (Permutation_NoDup
             (l := map entry_player_id (filter has_car (entries race)))); [|exact ND].
    rewrite (Forall2_map_eq entry_player_id raw_player_id
               (R := fun e raw => exists car, locked_car e = Some car
                       /\ raw_of rng (race_id race) ev e car raw)
               (l1 := filter has_car (entries race)) (l2 := raws)).
    - apply Permutation_map, Permutation_sym, sort_desc_perm.
    - intros e raw [car [_ S]]. symmetry. exact (rw_player_id S).
    - exact (run_raw_of rng race C). }
  assert (NDN : NoDup (map fst N))
    by (apply (Permutation_NoDup (Permutation_map fst (Permutation_sym PNM))), NDM).
  assert (LM : length M = length sorted) by apply length_map.
  assert (LN : length N = length sorted) by (rewrite (Permutation_length PNM); exact LM).
  assert (LR : length sorted = length results) by exact (Forall2_length F).
  assert (LS : length sorted = length raws) by apply sort_desc_length.
  (* the rank recorded for the entrant at index i of the finishing order *)
  assert (Rank : forall i, (i < length results)%nat ->
            exists j, (j < length N)%nat
                      /\ nth j N d = neutral_pair ev (nth i sorted raw_default)
                      /\ counterfactual_position (nth i results result_default)
                         = (Z.of_nat j + 1)%Z
                      /\ position (nth i results result_default) = (1 + Z.of_nat i)%Z).
  { intros i Hi.
    pose proof (@Forall2_nth _ _ _ _ _ i raw_default result_default F ltac:(lia)) as Ro.
    assert (Hin : In (neutral_pair ev (nth i sorted raw_default)) N).
    { apply (Permutation_in _ (Permutation_sym PNM)). unfold M.
      apply in_map, nth_In. lia. }
    destruct (In_nth _ _ d Hin) as [j [Hj Ej]].
    exists j. split; [exact Hj|]. split; [exact Ej|]. split.
    - pose proof (ro_cf Ro) as G. fold N in G.
      rewrite cf_rank_of_eq in G.
      pose proof (@cf_fold_nth 0 N [] j d NDN Hj) as G'.
      rewrite Ej in G'. cbn [neutral_pair fst] in G'. rewrite G' in G.
      injection G as <-. f_equal.
    - rewrite <- (map_nth position), P. apply positions_from_nth. lia. }
  split.
  - intros r Hr. destruct (In_nth _ _ result_default Hr) as [i [Hi Ei]].
    destruct (Rank i Hi) as [j [Hj [Ej [Cf _]]]]. rewrite Ei in Cf.
    exists j. split; [|exact Cf].
    rewrite (nth_error_nth' _ (fst d)) by (rewrite length_map; exact Hj).
    rewrite (map_nth fst), Ej. cbn [neutral_pair fst]. f_equal.
    pose proof (@Forall2_nth _ _ _ _ _ i raw_default result_default F ltac:(lia)) as Ro.
    rewrite Ei in Ro. symmetry. exact (ro_player_id Ro).
  - split.
    + intro H.
      assert (NM : N = M).
      { apply (perm_same_keys d PNM NDM). intros i Hi.
        assert (Hi' : (i < length results)%nat) by lia.
        destruct (Rank i Hi') as [j [Hj [Ej [Cf Pos]]]].
        rewrite (H _ (nth_In results result_default Hi')), Pos in Cf.
        assert (j = i) by lia. subst j.
        rewrite Ej. unfold M, d. rewrite (map_nth (neutral_pair ev)). reflexivity. }
      apply (proj2 (descending_map (neutral_pair ev) snd sorted)).
      fold M. rewrite <- NM. apply sort_desc_descending.
    + intros D r Hr.
      assert (NM : N = M).
      { apply sort_desc_fixed.
        apply (proj1 (descending_map (neutral_pair ev) snd sorted)). exact D. }
      destruct (In_nth _ _ result_default Hr) as [i [Hi Ei]].
      destruct (Rank i Hi) as [j [Hj [Ej [Cf Pos]]]]. rewrite Ei in Cf, Pos.
      assert (j = i).
      { apply (@keys_index_unique N d j i NDN Hj ltac:(lia)).
        rewrite Ej, NM. unfold M, d. rewrite (map_nth (neutral_pair ev)). reflexivity. }
      subst j. rewrite Cf, Pos. lia.
Qed.

Lemma counterfactual_position_rank_witness :
  exists sorted results g',
    sorted_raw rng_example race_example = Ok sorted
    /\ simulate_race rng_example race_example global_example = Ok (results, g')
    /\ (forall r, In r results ->
          exists i,
            nth_error (map fst (neutral_scores_of (event_type race_example) sorted)) i
            = Some (player_id r)
            /\ counterfactual_position r = (Z.of_nat i + 1)%Z)
    /\ ((forall r, In r results -> counterfactual_position r = position r)
        <-> descending (neutral_score (event_type race_example)) sorted).
Proof.
  apply (counterfactual_position_rank rng_example race_example global_example).
  - eexists. reflexivity.
  - cbn. repeat constructor; cbn; intuition discriminate.
Defined.

(** A race in which every luck draw is exactly zero and one entrant is
    DNF: a performance car with a worn engine against a standard car. *)
Definition rng_no_luck (id pid : string) : Random.t :=
  Random.mk (fun k => if (pid =? "dan")%string && (k =? 0)%nat then 0 else 2 ^ 52)%N 0.

Definition race_no_luck : Race :=
  {| race_id := "2026-01-01_12:00"; scheduled_time := "2026-01-01T12:00:00Z";
     event_type := "sprint"; status := running; entry_fee := 100; lap_count := 25;
     grid_size := 12; track := None;
     entries := [ mkRaceEntry "dan" "Dan"
                    (Some (mkCarSlots (mkSlotPart performance 10) (mkSlotPart performance 100)
                                      (mkSlotPart performance 100) (mkSlotPart performance 100)
                                      (mkSlotPart performance 100) (mkSlotPart performance 100)))
                    "";
                  mkRaceEntry "eve" "Eve"
                    (Some (mkCarSlots (mkSlotPart standard 100) (mkSlotPart standard 100)
                                      (mkSlotPart standard 100) (mkSlotPart standard 100)
                                      (mkSlotPart standard 100) (mkSlotPart standard 100)))
                    "" ];
     results := [] |}.

(** C4 as stated fails: with all luck deltas zero the DNF entrant finishes
    second but has counterfactual position 1, and the finisher has
    counterfactual position 2. *)
Lemma counterfactual_differs_without_luck :
  exists results g',
    simulate_race rng_no_luck race_no_luck global_example = Ok (results, g')
    /\ Forall (fun r => luck_delta r == 0) results
    /\ map (fun r => (player_id r, dnf r, position r, counterfactual_position r)) results
       = [("eve", false, 1, 2); ("dan", true, 2, 1)]%Z%string.
Proof.
  do 2 eexists. split; [vm_compute; reflexivity|].
  split; [repeat constructor | reflexivity].
Qed.

(** C1 fails on the code: the luck tag of an entrant whose luck delta
    exceeds 5 is drawn from the interpreter-wide generator, so two calls on
    the same race, the second made in the state the first one left, return
    different tags. *)
Lemma luck_tag_depends_on_shared_generator :
  exists results1 g1 results2 g2,
    simulate_race rng_example race_example global_example = Ok (results1, g1)
    /\ simulate_race rng_example race_example g1 = Ok (results2, g2)
    /\ map luck_tag results1 <> map luck_tag results2
    /\ map (fun r => (player_id r, position r, Qred (result_score r), dnf r)) results1
       = map (fun r => (player_id r, position r, Qred (result_score r), dnf r)) results2.
Proof.
  do 4 eexists. split; [vm_compute; reflexivity|].
  split; [vm_compute; reflexivity|].
  split; [vm_compute; discriminate | reflexivity].
Qed.

(** ** Track generation *)

Local Open Scope Z_scope.

Definition adjacent (a b : Cell) : Prop :=
  Z.abs (fst a - fst b) + Z.abs (snd a - snd b) = 1.

(** Consecutive cells of the list are grid-adjacent. *)
Definition chain (l : list Cell) : Prop :=
  forall i, (S i < length l)%nat -> adjacent (nth i l start) (nth (S i) l start).

(** Consecutive cells are grid-adjacent, the last one to the first. *)
Definition closed_cycle (l : list Cell) : Prop :=
  forall i, (i < length l)%nat ->
            adjacent (nth i l start) (nth (wrap (Z.of_nat i + 1) (length l)) l start).

Lemma wrap_small (k : Z) (m : nat) : 0 <= k < Z.of_nat m -> wrap k m = Z.to_nat k.
Proof. intro H. unfold wrap. rewrite Z.mod_small by exact H. reflexivity. Qed.

Lemma wrap_next (i m : nat) :
  (i < m)%nat -> wrap (Z.of_nat i + 1) m = if (S i =? m)%nat then O else S i.
Proof.
  intro H. destruct (Nat.eqb_spec (S i) m) as [E|E].
  - unfold wrap. replace (Z.of_nat i + 1) with (Z.of_nat m) by lia.
    rewrite Z.mod_same by lia. reflexivity.
  - rewrite wrap_small by lia. lia.
Qed.

Lemma wrap_prev (i m : nat) :
  (i < m)%nat -> wrap (Z.of_nat i - 1) m = if (i =? 0)%nat then (m - 1)%nat else (i - 1)%nat.
Proof.
  intro H. destruct (Nat.eqb_spec i 0) as [E|E].
  - subst i. unfold wrap.
    replace ((Z.of_nat 0 - 1) mod Z.of_nat m) with (Z.of_nat m - 1); [lia|].
    apply Z.mod_unique with (q := -1); lia.
  - rewrite wrap_small by lia. lia.
Qed.

Lemma adjacent_delta (a b : Cell) :
  adjacent a b ->
  let d := (fst b - fst a, snd b - snd a) in
  d = (1, 0) \/ d = (-1, 0) \/ d = (0, 1) \/ d = (0, -1).
Proof.
  unfold adjacent. destruct a as [ax ay], b as [bx b_y]. cbn [fst snd]. intro H.
  assert (C : (bx - ax = 1 /\ b_y - ay = 0) \/ (bx - ax = -1 /\ b_y - ay = 0)
              \/ (bx - ax = 0 /\ b_y - ay = 1) \/ (bx - ax = 0 /\ b_y - ay = -1)) by lia.
  destruct C as [[E1 E2]|[[E1 E2]|[[E1 E2]|[E1 E2]]]]; rewrite E1, E2; tauto.
Qed.

Lemma tile_type_never_chicane (a b : Cell) (ty : TileType) (o : string) :
  _tile_type_orientation a b = Ok (ty, o) -> ty = straight \/ ty = curve.
Proof.
  unfold _tile_type_orientation.
  destruct (cell_eqb a b).
  - destruct (negb _); intro E; injection E as <- _; left; reflexivity.
  - destruct (compass_lookup a) as [fl|]; [|discriminate]. cbn [bind].
    destruct (compass_lookup b) as [tl|]; [|discriminate]. cbn [bind].
    destruct (_CURVE_DIRS fl tl); intro E; injection E as <- _; tauto.
Qed.

Lemma tile_type_orientation_ok (prev c nxt : Cell) :
  adjacent prev c -> adjacent c nxt ->
  exists ty, _tile_type_orientation (fst c - fst prev, snd c - snd prev)
                                    (fst nxt - fst c, snd nxt - snd c) = Ok ty.
Proof.
  intros H1 H2. apply adjacent_delta in H1. apply adjacent_delta in H2. cbv zeta in *.
  destruct H1 as [E1|[E1|[E1|E1]]]; destruct H2 as [E2|[E2|[E2|E2]]];
    rewrite E1, E2; eexists; reflexivity.
Qed.

Lemma mapM_ok (A B : Type) (f : A -> Result B) (l : list A) :
  (forall a, In a l -> exists b, f a = Ok b) -> exists bs, mapM f l = Ok bs.
Proof.
  induction l as [|a l IH]; intro H; [eexists; reflexivity|].
  destruct (H a (or_introl eq_refl)) as [b Eb].
  destruct (IH (fun x Hx => H x (or_intror Hx))) as [bs Ebs].
  cbn [mapM]. rewrite Eb, Ebs. cbn [bind]. eexists. reflexivity.
Qed.

Lemma mapM_Forall (A B : Type) (f : A -> Result B) (P : B -> Prop) (l : list A) :
  (forall a b, f a = Ok b -> P b) ->
  forall bs, mapM f l = Ok bs -> Forall P bs.
Proof.
  intro H. induction l as [|a l IH]; intros bs E; cbn [mapM] in E.
  - injection E as <-. constructor.
  - destruct (f a) as [b|] eqn:Eb; [|discriminate]. cbn [bind] in E.
    destruct (mapM f l) as [bs'|]; [|discriminate]. cbn [bind] in E.
    injection E as <-. constructor; [exact (H _ _ Eb) | apply IH; reflexivity].
Qed.

Lemma in_combine_seq (A : Type) (l : list A) (a : nat) (i : nat) (c d : A) :
  In (i, c) (combine (seq a (length l)) l) ->
  (a <= i < a + length l)%nat /\ nth (i - a) l d = c.
Proof.
  revert a. induction l as [|x l IH]; intros a H; [destruct H|].
  cbn [length seq combine] in H. destruct H as [E|H].
  - injection E as <- <-. split; [simpl; lia|]. rewrite Nat.sub_diag. reflexivity.
  - destruct (IH _ H) as [B N]. split; [simpl; lia|].
    replace (i - a)%nat with (S (i - S a)) by lia. exact N.
Qed.

Lemma tile_at_ok (po : list Cell) (i : nat) :
  closed_cycle po -> (i < length po)%nat ->
  exists t, tile_at po i (nth i po start) = Ok t.
Proof.
  intros Cy Hi. unfold tile_at.
  set (c := nth i po start). set (m := length po) in *.
  assert (Hp : (wrap (Z.of_nat i - 1) m < m)%nat)
    by (rewrite wrap_prev by exact Hi; destruct (Nat.eqb_spec i 0); lia).
  assert (Hn : (wrap (Z.of_nat i + 1) m < m)%nat)
    by (rewrite wrap_next by exact Hi; destruct (Nat.eqb_spec (S i) m); lia).
  rewrite (nth_indep po c start Hp), (nth_indep po c start Hn).
  assert (A1 : adjacent (nth (wrap (Z.of_nat i - 1) m) po start) c).
  { pose proof (Cy _ Hp) as A. fold m in A.
    replace (wrap (Z.of_nat (wrap (Z.of_nat i - 1) m) + 1) m) with i in A; [exact A|].
    rewrite wrap_next by exact Hp. rewrite wrap_prev by exact Hi.
    destruct (Nat.eqb_spec i 0) as [->|Ne].
    - replace (S (m - 1) =? m)%nat with true; [reflexivity|].
      symmetry. apply Nat.eqb_eq. lia.
    - replace (S (i - 1) =? m)%nat with false; [lia|].
      symmetry. apply Nat.eqb_neq. lia. }
  pose proof (Cy _ Hi) as A2. fold m c in A2.
  destruct (tile_type_orientation_ok A1 A2) as [ty E].
  rewrite E. cbn [bind]. eexists. reflexivity.
Qed.

Lemma build_track_data_ok (po : list Cell) (x : Cell) (n : Z) :
  closed_cycle po ->
  exists ts, _build_track_data (po ++ [x]) n = Ok (mkTrack n n ts po).
Proof.
  intro Cy. unfold _build_track_data. rewrite removelast_last.
  destruct (@mapM_ok _ _ (fun ic => tile_at po (fst ic) (snd ic)) (enumerate po)) as [ts E].
  - intros [i c] Hin. apply (in_combine_seq po 0 i c start) in Hin.
    destruct Hin as [B N]. cbn [fst snd]. rewrite Nat.sub_0_r in N. subst c.
    apply tile_at_ok; [exact Cy | lia].
  - rewrite E. cbn [bind]. exists ts. reflexivity.
Qed.

Lemma build_track_data_types (path : list Cell) (n : Z) (t : TrackData) :
  _build_track_data path n = Ok t ->
  Forall (fun tile => tile_type tile = straight \/ tile_type tile = curve) (tiles t).
Proof.
  unfold _build_track_data.
  destruct (mapM _ _) as [ts|] eqn:E; [|discriminate]. cbn [bind].
  intro H. injection H as <-. cbn [tiles].
  refine (@mapM_Forall _ _ _ _ _ _ _ E).
  intros [i c] tile. unfold tile_at. cbn [fst snd].
  destruct (_tile_type_orientation _ _) as [[ty o]|] eqn:T; [|discriminate].
  cbn [bind fst snd]. intro H. injection H as <-. cbn [tile_type].
  exact (tile_type_never_chicane _ _ T).
Qed.

(** *** The random walk *)

Lemma cell_eqb_eq (a b : Cell) : cell_eqb a b = true <-> a = b.
Proof.
  unfold cell_eqb. destruct a as [ax ay], b as [bx b_y]. cbn [fst snd].
  rewrite andb_true_iff, !Z.eqb_eq. split.
  - intros [-> ->]. reflexivity.
  - intro E. injection E as -> ->. split; reflexivity.
Qed.

Lemma visitedb_In (visited : list Cell) (c : Cell) : visitedb visited c = true <-> In c visited.
Proof.
  unfold visitedb. rewrite existsb_exists. split.
  - intros [x [Hx E]]. apply cell_eqb_eq in E. subst x. exact Hx.
  - intro H. exists c. split; [exact H | apply cell_eqb_eq; reflexivity].
Qed.

Lemma step_adjacent (c d : Cell) : In d DIRS -> adjacent c (step c d).
Proof.
  unfold adjacent, step. destruct c as [cx cy]. cbn [fst snd].
  intros [<-|[<-|[<-|[<-|[]]]]]; cbn [fst snd]; lia.
Qed.

Lemma candidates_spec (n : Z) (visited : list Cell) (current c : Cell) :
  In c (candidates_of n visited current) ->
  adjacent current c /\ ~ In c visited.
Proof.
  unfold candidates_of. rewrite filter_In, in_map_iff.
  intros [[d [<- Hd]] B]. apply andb_true_iff in B. destruct B as [_ B].
  split; [apply step_adjacent, Hd|].
  intro V. apply visitedb_In in V. rewrite V in B. discriminate.
Qed.

Lemma choice_In (A : Type) (g : Random.t) (d : A) (l : list A) :
  l <> [] -> In (fst (Random.choice g d l)) l.
Proof.
  intro H. unfold Random.choice, Random.next. cbn [fst].
  apply nth_In.
  assert (L : (0 < length l)%nat) by (destruct l; [congruence | simpl; lia]).
  pose proof (N.mod_lt (Random.tape g (Random.cursor g)) (N.of_nat (length l))
                       ltac:(lia)).
  lia.
Qed.

Lemma close_adjacent (current : Cell) :
  existsb (fun d => cell_eqb (step current d) start) DIRS = true ->
  adjacent current start.
Proof.
  rewrite existsb_exists. intros [d [Hd E]]. apply cell_eqb_eq in E.
  rewrite <- E. apply step_adjacent, Hd.
Qed.

Record walk_inv (path visited : list Cell) (current : Cell) : Prop := {
  wi_nonempty : (0 < length path)%nat;
  wi_head : nth 0 path start = start;
  wi_last : nth (length path - 1) path start = current;
  wi_nodup : NoDup path;
  wi_visited : forall c, In c visited <-> In c path;
  wi_chain : chain path
}.

Lemma walk_inv_init : walk_inv [start] [start] start.
Proof.
  constructor.
  - simpl. lia.
  - reflexivity.
  - reflexivity.
  - repeat constructor. intros [].
  - intro c. tauto.
  - intros i Hi. simpl in Hi. lia.
Qed.

Lemma walk_inv_step (path visited : list Cell) (current nxt : Cell) :
  walk_inv path visited current ->
  adjacent current nxt -> ~ In nxt visited ->
  walk_inv (path ++ [nxt]) (nxt :: visited) nxt.
Proof.
  intros [Hne Hh Hl Hnd Hv Hc] A NV.
  constructor.
  - rewrite length_app. simpl. lia.
  - rewrite app_nth1 by exact Hne. exact Hh.
  - rewrite length_app. cbn [length].
    rewrite app_nth2 by lia.
    replace (length path + 1 - 1 - length path)%nat with O by lia. reflexivity.
  - apply NoDup_app; [exact Hnd | repeat constructor; intros [] | ].
    intros c Hc' [<-|[]]. apply NV, Hv, Hc'.
  - intro c. rewrite in_app_iff. cbn [In]. rewrite Hv. tauto.
  - intros i Hi. rewrite length_app in Hi. cbn [length] in Hi.
    destruct (Nat.eq_dec (S i) (length path)) as [E|E].
    + rewrite app_nth1 by lia. rewrite app_nth2 by lia.
      replace (S i - length path)%nat with O by lia. cbn [nth].
      replace i with (length path - 1)%nat by lia. rewrite Hl. exact A.
    + rewrite !app_nth1 by lia. apply Hc. lia.
Qed.

(** What a successful walk returns. *)
Record closed_walk (min_steps : Z) (po : list Cell) : Prop := {
  cw_nodup : NoDup po;
  cw_cycle : closed_cycle po;
  cw_min : min_steps <= Z.of_nat (length po)
}.

Lemma walk_inv_close (min_steps : Z) (path visited : list Cell) (current : Cell) :
  walk_inv path visited current ->
  min_steps <= Z.of_nat (length path) ->
  adjacent current start ->
  closed_walk min_steps path.
Proof.
  intros [Hne Hh Hl Hnd Hv Hc] M A. constructor; [exact Hnd | | exact M].
  intros i Hi. rewrite wrap_next by exact Hi.
  destruct (Nat.eqb_spec (S i) (length path)) as [E|E].
  - replace i with (length path - 1)%nat by lia. rewrite Hl, Hh. exact A.
  - apply Hc. lia.
Qed.

Lemma walk_loop_spec (fuel : nat) (n min_steps : Z) :
  forall visited path current rng p rng',
    walk_inv path visited current ->
    walk_loop fuel n min_steps visited path current rng = (Some p, rng') ->
    exists po, p = po ++ [start] /\ closed_walk min_steps po.
Proof.
  induction fuel as [|fuel IH]; intros visited path current rng p rng' Inv E;
    cbn [walk_loop] in E; [discriminate|].
  destruct ((min_steps <=? Z.of_nat (length path))
            && existsb (fun d => cell_eqb (step current d) start) DIRS) eqn:C.
  - injection E as <- <-. apply andb_true_iff in C. destruct C as [M A].
    exists path. split; [reflexivity|].
    apply (walk_inv_close Inv); [apply Z.leb_le, M | apply close_adjacent, A].
  - destruct (candidates_of n visited current) as [|c0 cs] eqn:Cs; [discriminate|].
    pose proof (@choice_In _ rng c0 (c0 :: cs) ltac:(discriminate)) as Hin.
    destruct (Random.choice rng c0 (c0 :: cs)) as [nxt rng1]. cbn [fst] in Hin.
    rewrite <- Cs in Hin. apply candidates_spec in Hin. destruct Hin as [A NV].
    exact (IH _ _ _ _ _ _ (walk_inv_step Inv A NV) E).
Qed.

Lemma try_walk_spec (n : Z) (rng rng' : Random.t) (p : list Cell) :
  _try_walk n rng = (Some p, rng') ->
  exists po, p = po ++ [start] /\ closed_walk (Z.max TRACK_MIN_STEPS (n * 2)) po.
Proof. unfold _try_walk. apply walk_loop_spec, walk_inv_init. Qed.

(** *** The oval fallback *)

(** The cell at index [i] of the oval on a grid of size [n = k + 3]. *)
Definition oval_cell (n : Z) (k i : nat) : Cell :=
  if (i <=? k)%nat then (1 + Z.of_nat i, 1)
  else if (i <=? 2 * k)%nat then (n - 2, 1 + Z.of_nat (i - k))
  else if (i <=? 3 * k)%nat then (n - 2 - Z.of_nat (i - 2 * k), n - 2)
  else (1, n - 2 - Z.of_nat (i - 3 * k)).

Lemma map_seq_offset (A : Type) (f : nat -> A) (a len : nat) :
  map f (seq a len) = map (fun j => f (a + j)%nat) (seq 0 len).
Proof.
  revert a. induction len as [|len IH]; intro a; [reflexivity|].
  cbn [seq map]. rewrite Nat.add_0_r. f_equal.
  rewrite IH, <- seq_shift, map_map. apply map_ext. intro j. f_equal. lia.
Qed.

Ltac oval_cases :=
  unfold oval_cell;
  repeat match goal with
         | |- context [(?a <=? ?b)%nat] => destruct (Nat.leb_spec a b)
         | H : context [(?a <=? ?b)%nat] |- _ => destruct (Nat.leb_spec a b)
         end.

Lemma oval_path_eq (n : Z) (k : nat) :
  (1 <= k)%nat -> n = Z.of_nat k + 3 ->
  oval_path n = map (oval_cell n k) (seq 0 (4 * k)).
Proof.
  intros Hk Hn. unfold oval_path, range, range_down.
  replace (4 * k)%nat with ((k + 1) + (k + (k + (k - 1))))%nat by lia.
  rewrite (seq_app (k + 1) (k + (k + (k - 1))) 0).
  rewrite (seq_app k (k + (k - 1)) (0 + (k + 1))).
  rewrite (seq_app k (k - 1) (0 + (k + 1) + k)).
  rewrite !map_app, !map_map. cbn [Nat.add].
  replace (Z.to_nat (n - 2 + 1 - 1)) with (k + 1)%nat by lia.
  replace (Z.to_nat (n - 2 + 1 - (1 + 1))) with k by lia.
  replace (Z.to_nat (n - 2 - 1 - (1 - 1))) with k by lia.
  replace (Z.to_nat (n - 2 - 1 - 1)) with (k - 1)%nat by lia.
  rewrite (map_seq_offset (oval_cell n k) (k + 1)).
  rewrite (map_seq_offset (oval_cell n k) (k + 1 + k)).
  rewrite (map_seq_offset (oval_cell n k) (k + 1 + k + k)).
  apply f_equal2; [|apply f_equal2; [|apply f_equal2]];
    apply map_ext_in; intros j Hj; apply in_seq in Hj;
    oval_cases; try lia; f_equal; lia.
Qed.

Lemma NoDup_map_seq (A : Type) (f : nat -> A) (m : nat) :
  (forall i j, (i < m)%nat -> (j < m)%nat -> f i = f j -> i = j) ->
  NoDup (map f (seq 0 m)).
Proof.
  intro Inj. induction m as [|m IH]; [constructor|].
  rewrite seq_S, map_app. cbn [map Nat.add].
  apply NoDup_app.
  - apply IH. intros i j Hi Hj. apply Inj; lia.
  - repeat constructor. intros [].
  - intros x Hx [<-|[]]. apply in_map_iff in Hx. destruct Hx as [i [E Hi]].
    apply in_seq in Hi. apply Inj in E; lia.
Qed.

Lemma oval_cell_inj (n : Z) (k i j : nat) :
  (1 <= k)%nat -> n = Z.of_nat k + 3 -> (i < 4 * k)%nat -> (j < 4 * k)%nat ->
  oval_cell n k i = oval_cell n k j -> i = j.
Proof.
  intros Hk Hn Hi Hj. oval_cases; intro E;
    pose proof (f_equal fst E) as E1; pose proof (f_equal snd E) as E2;
    cbn [fst snd] in E1, E2; lia.
Qed.

Lemma oval_cell_next (n : Z) (k i : nat) :
  (1 <= k)%nat -> n = Z.of_nat k + 3 -> (i < 4 * k)%nat ->
  adjacent (oval_cell n k i)
           (oval_cell n k (if (S i =? 4 * k)%nat then O else S i)).
Proof.
  intros Hk Hn Hi. unfold adjacent.
  destruct (Nat.eqb_spec (S i) (4 * k)); oval_cases; cbn [fst snd]; lia.
Qed.

Lemma oval_closed_walk (n : Z) :
  4 <= n ->
  NoDup (oval_path n) /\ closed_cycle (oval_path n)
  /\ Z.of_nat (length (oval_path n)) = 4 * (n - 3).
Proof.
  intro Hn. set (k := Z.to_nat (n - 3)).
  assert (Hk : (1 <= k)%nat) by lia.
  assert (En : n = Z.of_nat k + 3) by lia.
  rewrite (oval_path_eq Hk En).
  assert (L : length (map (oval_cell n k) (seq 0 (4 * k))) = (4 * k)%nat)
    by (rewrite length_map, length_seq; reflexivity).
  assert (Nth : forall i, (i < 4 * k)%nat ->
                nth i (map (oval_cell n k) (seq 0 (4 * k))) start = oval_cell n k i).
  { intros i Hi.
    rewrite (nth_indep _ start (oval_cell n k 0)) by (rewrite L; exact Hi).
    rewrite (map_nth (oval_cell n k)), seq_nth by exact Hi. reflexivity. }
  split; [|split].
  - apply NoDup_map_seq. intros i j Hi Hj. apply (oval_cell_inj Hk En Hi Hj).
  - intros i Hi. rewrite L in *. rewrite wrap_next by exact Hi.
    rewrite Nth by exact Hi. rewrite Nth by (destruct (Nat.eqb_spec (S i) (4 * k)); lia).
    apply (oval_cell_next Hk En Hi).
  - rewrite L. lia.
Qed.

(** *** generate_track *)

Lemma oval_fallback_ok (n : Z) :
  4 <= n -> exists ts, _oval_fallback n = Ok (mkTrack n n ts (oval_path n)).
Proof.
  intro Hn. destruct (oval_closed_walk Hn) as [_ [Cy L]].
  unfold _oval_fallback. destruct (oval_path n) as [|p0 rest] eqn:E.
  - change (Z.of_nat (length (@nil Cell))) with 0 in L. lia.
  - apply build_track_data_ok. exact Cy.
Qed.

Lemma retry_loop_spec (retries : nat) (n : Z) :
  4 <= n ->
  forall rng,
  exists t,
    retry_loop retries n rng = Ok t
    /\ (path_order t = oval_path n
        \/ closed_walk (Z.max TRACK_MIN_STEPS (n * 2)) (path_order t)).
Proof.
  intro Hn. induction retries as [|retries IH]; intro rng; cbn [retry_loop].
  - destruct (oval_fallback_ok Hn) as [ts E]. eexists. split; [exact E|]. left. reflexivity.
  - destruct (_try_walk n rng) as [[p|] rng'] eqn:W; [|apply IH].
    destruct (try_walk_spec _ _ W) as [po [-> Cw]].
    destruct (build_track_data_ok start n (cw_cycle Cw)) as [ts E].
    eexists. split; [exact E|]. right. exact Cw.
Qed.

Lemma retry_loop_types (retries : nat) (n : Z) :
  forall rng t,
    retry_loop retries n rng = Ok t ->
    Forall (fun tile => tile_type tile = straight \/ tile_type tile = curve) (tiles t).
Proof.
  induction retries as [|retries IH]; intros rng t; cbn [retry_loop].
  - unfold _oval_fallback. destruct (oval_path n); [discriminate|].
    apply build_track_data_types.
  - destruct (_try_walk n rng) as [[p|] rng']; [apply build_track_data_types | apply IH].
Qed.

(** C2, as the code has it.  For every grid size n >= 4 and every
    generator state, [generate_track] returns a track whose path is a simple
    closed cycle: the cells are pairwise distinct and consecutive cells,
    the last and the first included, are grid-adjacent.  The path either
    comes from the random walk and has at least max(24, 2n) cells, or is the
    oval of 4(n-3) cells; so the minimum length holds on every return path
    exactly from n >= 9 on. *)
Theorem generate_track_cycle (n : Z) (rng : Random.t) :
  4 <= n ->
  exists t,
    generate_track n rng = Ok t
    /\ NoDup (path_order t)
    /\ closed_cycle (path_order t)
    /\ (Z.max TRACK_MIN_STEPS (n * 2) <= Z.of_nat (length (path_order t))
        \/ (path_order t = oval_path n
            /\ Z.of_nat (length (path_order t)) = 4 * (n - 3)))
    /\ (9 <= n -> Z.max TRACK_MIN_STEPS (n * 2) <= Z.of_nat (length (path_order t))).
Proof.
  intro Hn. destruct (retry_loop_spec TRACK_MAX_RETRIES Hn rng) as [t [E H]].
  exists t. split; [exact E|].
  destruct (oval_closed_walk Hn) as [Nd [Cy L]].
  destruct H as [Ov|Cw].
  - rewrite Ov. split; [exact Nd|]. split; [exact Cy|]. split.
    + right. split; [reflexivity | exact L].
    + intro H9. rewrite L. unfold TRACK_MIN_STEPS. lia.
  - split; [exact (cw_nodup Cw)|]. split; [exact (cw_cycle Cw)|]. split.
    + left. exact (cw_min Cw).
    + intros _. exact (cw_min Cw).
Qed.

Lemma generate_track_cycle_witness :
  exists t,
    generate_track 12 global_example = Ok t
    /\ NoDup (path_order t)
    /\ closed_cycle (path_order t)
    /\ (Z.max TRACK_MIN_STEPS (12 * 2) <= Z.of_nat (length (path_order t))
        \/ (path_order t = oval_path 12
            /\ Z.of_nat (length (path_order t)) = 4 * (12 - 3)))
    /\ (9 <= 12 -> Z.max TRACK_MIN_STEPS (12 * 2) <= Z.of_nat (length (path_order t))).
Proof. apply (@generate_track_cycle 12 global_example). lia. Defined.

(** C2 as stated fails at n = 4: a 4x4 grid has 16 cells, so the walk can
    never reach 24 cells, every retry fails, and the oval that is returned
    has 4 cells. *)
Lemma generate_track_4_below_minimum :
  exists t,
    generate_track 4 global_example = Ok t
    /\ path_order t = [(1, 1); (2, 1); (2, 2); (1, 2)]
    /\ Z.of_nat (length (path_order t)) < Z.max TRACK_MIN_STEPS (4 * 2).
Proof.
  eexists. split; [vm_compute; reflexivity|]. split; [reflexivity|].
  vm_compute. reflexivity.
Qed.

(** C10. For every grid size and generator state, every tile of a track
    that [generate_track] returns has type straight or curve, never
    chicane; and for n >= 4 a track is returned. *)
Theorem generate_track_tile_types (n : Z) (rng : Random.t) :
  (4 <= n -> exists t, generate_track n rng = Ok t)
  /\ forall t,
       generate_track n rng = Ok t ->
       Forall (fun tile => tile_type tile = straight \/ tile_type tile = curve) (tiles t).
Proof.
  split.
  - intro Hn. destruct (retry_loop_spec TRACK_MAX_RETRIES Hn rng) as [t [E _]].
    exists t. exact E.
  - intro t. apply retry_loop_types.
Qed.

Lemma generate_track_tile_types_witness :
  exists t,
    generate_track 12 global_example = Ok t
    /\ Forall (fun tile => tile_type tile = straight \/ tile_type tile = curve) (tiles t).
Proof.
  destruct (generate_track_tile_types 12 global_example) as [T F].
  destruct (T ltac:(lia)) as [t E].
  exists t. split; [exact E | exact (F t E)].
Defined.

(** ** The tick stream *)

Local Open Scope Q_scope.

Lemma div_le_one (x t : Q) : 0 < t -> x <= t -> x / t <= 1.
Proof. intros Ht H. apply Qle_shift_div_r; [exact Ht | lra]. Qed.

Lemma div_lt_one_inv (x t : Q) : 0 < t -> x / t < 1 -> x < t.
Proof.
  intros Ht H. destruct (Qlt_le_dec x t) as [L|L]; [exact L|].
  exfalso. assert (1 <= x / t) by (apply Qle_shift_div_l; [exact Ht | lra]). lra.
Qed.

Lemma div_mono (x y t : Q) : 0 < t -> x <= y -> x / t <= y / t.
Proof.
  intros Ht H. unfold Qdiv. apply Qmult_le_compat_r; [exact H|].
  apply Qinv_le_0_compat. lra.
Qed.

Lemma div_nonneg (x t : Q) : 0 < t -> 0 <= x -> 0 <= x / t.
Proof. intros Ht H. apply Qle_shift_div_l; [exact Ht | lra]. Qed.

Lemma upd_same (V : Type) (m : string -> V) (k : string) (v : V) : upd m k v k = v.
Proof. unfold upd. rewrite String.eqb_refl. reflexivity. Qed.

Lemma upd_cases (V : Type) (m : string -> V) (k k' : string) (v : V) :
  upd m k v k' = v \/ upd m k v k' = m k'.
Proof. unfold upd. destruct (k' =? k)%string; tauto. Qed.

Lemma next_vel_nonneg (vel target : Q) : 0 <= vel -> 0 <= target -> 0 <= next_vel vel target.
Proof.
  intros Hv Ht. unfold next_vel.
  assert (A : 0 < ACCEL_FPS2 * dt) by reflexivity.
  destruct (Qltb vel target); [|destruct (Qltb target vel)].
  - destruct (Qmin_cases target (vel + ACCEL_FPS2 * dt)) as [[L E]|[L E]]; lra.
  - pose proof (Q.le_max_l target (vel - BRAKE_FPS2 * dt)). lra.
  - exact Hv.
Qed.

Section StepFacts.
Variable profile : list Q.
Variable n_tiles : Z.
Variable total : Q.
Variable su : Setup.
Hypothesis profile_nonneg : Forall (Qle 0) profile.
Hypothesis total_pos : 0 < total.
Hypothesis factor_nonneg : forall pid, 0 <= car_factor su pid.

  (** The progress reported for a car at position [x]. *)
Definition reported (x : Q) : Q := round_nd 4 (Qmin 1 (x / total)).

Definition state_ok (st : CarState) : Prop :=
    forall pid, 0 <= car_vel st pid /\ 0 <= car_pos st pid /\ car_pos st pid <= total.

Lemma reported_mono (x y : Q) : x <= y -> reported x <= reported y.
  Proof.
    intro H. apply round_nd_mono. pose proof (div_mono total_pos H).
    destruct (Qmin_cases 1 (x / total)) as [[L1 E1]|[L1 E1]];
      destruct (Qmin_cases 1 (y / total)) as [[L2 E2]|[L2 E2]]; lra.
  Qed.

Lemma reported_bounds (x : Q) : 0 <= x -> 0 <= reported x <= 1.
  Proof.
    intro H. pose proof (div_nonneg total_pos H).
    pose proof (round_nd_0 4). pose proof (round_nd_inject 4 1) as R1.
    change (inject_Z 1) with 1 in R1.
    split.
    - assert (round_nd 4 0 <= reported x); [|lra].
      apply round_nd_mono. destruct (Qmin_cases 1 (x / total)) as [[L E]|[L E]]; lra.
    - assert (reported x <= round_nd 4 1); [|lra].
      apply round_nd_mono. apply Q.le_min_l.
  Qed.

Lemma reported_at_total : reported total == 1.
  Proof.
    unfold reported.
    assert (E : Qmin 1 (total / total) == 1).
    { assert (total / total == 1) by (field; lra).
      destruct (Qmin_cases 1 (total / total)) as [[L E]|[L E]]; lra. }
    rewrite (round_nd_comp 4 E). exact (round_nd_inject 4 1).
  Qed.

Lemma target_speed_nonneg (pos : Q) (pid : string) :
    0 <= target_speed profile n_tiles su pos pid.
  Proof.
    unfold target_speed. apply Qmult_le_0_compat; [|apply factor_nonneg].
    set (i := Z.to_nat _). clearbody i. revert i.
    induction profile_nonneg as [|x l Hx Hl IH]; intros [|i]; simpl;
      try apply Qle_refl; auto.
  Qed.

  (** What one iteration of the per-car loop does to the state and what it
      reports. *)
Lemma car_step_spec (tick_num : Z) (st : CarState) (cars_data : list CarTick)
        (all_done : bool) (r : EntryResult) :
    state_ok st ->
    exists st' ct all_done',
      car_step profile n_tiles total su tick_num (st, cars_data, all_done) r
      = (st', cars_data ++ [ct], all_done')
      /\ state_ok st'
      /\ (forall pid, car_pos st pid <= car_pos st' pid)
      /\ car_id ct = player_id r
      /\ progress ct == reported (car_pos st' (player_id r))
      /\ (incident ct = Some "dnf_start"%string ->
          exists stop, dnf_stop su (player_id r) = Some stop
                       /\ round_nd 4 stop <= progress ct)
      /\ (car_finished st (player_id r) = None ->
          car_finished st' (player_id r) <> None ->
          dnf r = false -> progress ct == 1).
  Proof.
    intro Ok. unfold car_step. cbv zeta. set (pid := player_id r).
    destruct (car_finished st pid) as [ft|] eqn:Fin.
    - do 3 eexists. split; [reflexivity|]. split; [exact Ok|].
      split; [intro; apply Qle_refl|]. split; [reflexivity|].
      split; [apply Qeq_refl|]. split.
      + cbn [incident]. destruct (dnf r); discriminate.
      + discriminate.
    - destruct (at_stop_point total su st r) eqn:Stop.
      + do 3 eexists. split; [reflexivity|].
        destruct (Ok pid) as [Hv [Hp0 Hp1]].
        split; [|split; [intro; apply Qle_refl|]]; [|split; [reflexivity|]].
        * intro p. cbn [car_vel car_pos]. destruct (Ok p) as [Hv' Hp'].
          split; [|exact Hp'].
          destruct (upd_cases (car_vel st) pid p 0) as [E|E]; rewrite E;
            [apply Qle_refl | exact Hv'].
        * cbn [progress car_pos incident].
          assert (E : Qmin 1 (car_pos st pid / total) == car_pos st pid / total)
            by (apply Q.min_r, div_le_one; assumption).
          split; [symmetry; apply round_nd_comp, E|]. split.
          -- intros _. unfold at_stop_point in Stop. apply andb_true_iff in Stop.
             destruct Stop as [_ Stop]. fold pid in Stop.
             destruct (dnf_stop su pid) as [stop|]; [|discriminate].
             exists stop. split; [reflexivity|]. apply round_nd_mono.
             apply Qle_bool_iff in Stop. apply Qle_shift_div_l; assumption.
          -- intros _ _ D. unfold at_stop_point in Stop. rewrite D in Stop. discriminate.
      + destruct (Ok pid) as [Hv [Hp0 Hp1]].
        set (vel := next_vel (car_vel st pid) (target_speed profile n_tiles su (car_pos st pid) pid)).
        assert (Hvel : 0 <= vel)
          by (apply next_vel_nonneg; [exact Hv | apply target_speed_nonneg]).
        assert (Hdt : 0 < dt) by reflexivity.
        assert (Hmove : 0 <= vel * dt) by (apply Qmult_le_0_compat; lra).
        set (pos1 := car_pos st pid + vel * dt) in *.
        destruct (Qle_bool 1 (pos1 / total)) eqn:Fn.
        * do 3 eexists. split; [reflexivity|]. cbn [car_pos car_vel progress incident car_finished].
          split; [|split]; [| |split; [reflexivity|]].
          -- intro p. cbn [car_pos car_vel]. destruct (Ok p) as [Hv' [Hp0' Hp1']].
             destruct (upd_cases (car_vel st) pid p vel) as [E|E]; rewrite E;
               destruct (upd_cases (car_pos st) pid p total) as [E'|E']; rewrite E';
               repeat split; try assumption; lra.
          -- intro p. cbn [car_pos car_vel]. destruct (Ok p) as [_ [_ Hp1']].
             destruct (upd_cases (car_pos st) pid p total) as [E|E]; rewrite E; lra.
          -- rewrite upd_same. split; [apply Qeq_refl|]. split; [discriminate|].
             intros _ _ _. apply reported_at_total.
        * do 3 eexists. split; [reflexivity|]. cbn [car_pos car_vel progress incident car_finished].
          assert (Lt : pos1 < total).
          { apply (div_lt_one_inv total_pos). apply Qnot_le_lt. intro L.
            apply Qle_bool_iff in L. congruence. }
          split; [|split]; [| |split; [reflexivity|]].
          -- intro p. cbn [car_pos car_vel]. destruct (Ok p) as [Hv' [Hp0' Hp1']].
             destruct (upd_cases (car_vel st) pid p vel) as [E|E]; rewrite E;
               destruct (upd_cases (car_pos st) pid p pos1) as [E'|E']; rewrite E';
               repeat split; try assumption; unfold pos1 in *; lra.
          -- intro p. cbn [car_pos car_vel]. unfold upd.
             destruct (String.eqb_spec p pid) as [->|_]; unfold pos1 in *; lra.
          -- rewrite upd_same. split; [apply Qeq_refl|]. split; [discriminate|].
             intros _ Nn. exfalso. apply Nn. exact Fin.
  Qed.
End StepFacts.

Lemma random_range (g : Random.t) : 0 <= fst (Random.random g) < 1.
Proof.
  unfold Random.random, Random.next. cbn [fst].
  set (w := Z.of_N (Random.tape g (Random.cursor g))).
  pose proof (Z.mod_pos_bound w (2 ^ 53) ltac:(reflexivity)) as [B0 B1].
  assert (P : 0 < inject_Z (2 ^ 53)) by reflexivity.
  split.
  - apply Qle_shift_div_l; [exact P|]. rewrite Qmult_0_l.
    change 0 with (inject_Z 0). rewrite <- Zle_Qle. exact B0.
  - apply Qlt_shift_div_r; [exact P|]. rewrite Qmult_1_l.
    rewrite <- Zlt_Qlt. exact B1.
Qed.

Lemma uniform_range (g : Random.t) (a b : Q) :
  a < b -> a <= fst (Random.uniform g a b) < b.
Proof.
  intro H. unfold Random.uniform.
  pose proof (random_range g) as [U0 U1].
  destruct (Random.random g) as [u g']. cbn [fst] in *.
  split; nra.
Qed.

Section SetupFacts.
Variable hash_rng : string -> Random.t.

Definition setup_ok (su : Setup) : Prop :=
    (forall pid, 0 <= car_factor su pid)
    /\ (forall pid stop, dnf_stop su pid = Some stop -> 3 # 10 <= stop < 7 # 10).

Lemma init_setup_ok (rs : list EntryResult) : setup_ok (init_setup hash_rng rs).
  Proof.
    unfold init_setup. set (ms := max_score_of rs). clearbody ms.
    assert (I : setup_ok (mkSetup (fun _ => 0) (fun _ => None))).
    { split; [intro; apply Qle_refl | discriminate]. }
    revert I. generalize (mkSetup (fun _ => 0) (fun _ => None)).
    induction rs as [|r rs IH]; intros su I; [exact I|].
    cbn [fold_left]. apply IH. destruct I as [F S]. split; cbn [car_factor dnf_stop].
    - intro pid. unfold upd. destruct (pid =? player_id r)%string; [|apply F].
      pose proof (Q.le_max_l (3 # 10) (result_score r / ms)). lra.
    - intros pid stop. destruct (dnf r); [|apply S].
      unfold upd. destruct (pid =? player_id r)%string; [|apply S].
      intro E. injection E as <-. apply uniform_range. reflexivity.
  Qed.
End SetupFacts.

Lemma set_nth_Forall (A : Type) (P : A -> Prop) (l : list A) (i : nat) (v : A) :
  Forall P l -> P v -> Forall P (set_nth i v l).
Proof.
  intros F Hv. revert i. induction F as [|a l Ha F IH]; intros [|i]; simpl;
    constructor; auto.
Qed.

Section ProfileNonneg.
Variable sqrt : Q -> Q.
Hypothesis sqrt_nonneg : forall x, 0 <= sqrt x.

Lemma pass_nonneg (a : Q) (nb : nat -> nat) (idx : list nat) (st : list Q * bool) :
    Forall (Qle 0) (fst st) -> Forall (Qle 0) (fst (fold_left (constrain sqrt a nb) idx st)).
  Proof.
    revert st. induction idx as [|i idx IH]; intros [speed changed] H; [exact H|].
    cbn [fold_left]. apply IH. unfold constrain.
    destruct (Qltb _ _); cbn [fst] in *; [|exact H].
    apply set_nth_Forall; [exact H | apply sqrt_nonneg].
  Qed.

Lemma sweeps_nonneg (passes n : nat) (speed : list Q) :
    Forall (Qle 0) speed -> Forall (Qle 0) (sweeps sqrt passes n speed).
  Proof.
    revert speed. induction passes as [|p IH]; intros speed H; [exact H|].
    cbn [sweeps].
    destruct (forward_pass sqrt n (backward_pass sqrt n (speed, false)))
      as [speed' changed] eqn:E.
    assert (H' : Forall (Qle 0) speed').
    { change speed' with (fst (speed', changed)). rewrite <- E.
      apply pass_nonneg, pass_nonneg. exact H. }
    destruct changed; [apply IH, H' | exact H'].
  Qed.

Lemma build_speed_profile_nonneg (track : TrackData) :
    Forall (Qle 0) (build_speed_profile sqrt track).
  Proof.
    apply sweeps_nonneg. unfold raw_speeds. apply Forall_forall.
    intros x Hx. apply in_map_iff in Hx. destruct Hx as [pos [<- _]].
    destruct (tile_type_of track pos); discriminate.
  Qed.
End ProfileNonneg.

Section StreamFacts.
Variable profile : list Q.
Variable n_tiles : Z.
Variable total : Q.
Variable su : Setup.
Hypothesis profile_nonneg : Forall (Qle 0) profile.
Hypothesis total_pos : 0 < total.
Hypothesis factor_nonneg : forall pid, 0 <= car_factor su pid.

  (** What a tick reports for the car of result [r], between the states
      before and after the tick. *)
Definition car_ok (before after : CarState) (r : EntryResult) (ct : CarTick) : Prop :=
    car_id ct = player_id r
    /\ (exists x, progress ct == reported total x
                  /\ 0 <= x
                  /\ car_pos before (player_id r) <= x
                  /\ x <= car_pos after (player_id r))
    /\ (incident ct = Some "dnf_start"%string ->
        exists stop, dnf_stop su (player_id r) = Some stop
                     /\ round_nd 4 stop <= progress ct).

Lemma car_ok_weaken (s0 s1 s2 : CarState) (r : EntryResult) (ct : CarTick) :
    (forall pid, car_pos s0 pid <= car_pos s1 pid) ->
    car_ok s1 s2 r ct -> car_ok s0 s2 r ct.
  Proof.
    intros M [Id [[x [E [X0 [X1 X2]]]] D]]. split; [exact Id|]. split; [|exact D].
    exists x. repeat split; try assumption.
    eapply Qle_trans; [apply M | exact X1].
  Qed.

Lemma fold_car_step (tick_num : Z) (rs : list EntryResult) :
    forall st cars_data all_done,
      state_ok total st ->
      exists st' new all_done',
        fold_left (car_step profile n_tiles total su tick_num) rs (st, cars_data, all_done)
        = (st', cars_data ++ new, all_done')
        /\ state_ok total st'
        /\ (forall pid, car_pos st pid <= car_pos st' pid)
        /\ Forall2 (car_ok st st') rs new.
  Proof.
    induction rs as [|r rs IH]; intros st cars_data all_done Ok.
    - exists st, [], all_done. rewrite app_nil_r.
      split; [reflexivity|]. split; [exact Ok|].
      split; [intro; apply Qle_refl | constructor].
    - destruct (@car_step_spec profile n_tiles total su profile_nonneg total_pos
                  factor_nonneg tick_num st cars_data all_done r Ok)
        as [st1 [ct [d1 [E1 [Ok1 [M1 [Id [P [D _]]]]]]]]].
      destruct (IH st1 (cars_data ++ [ct]) d1 Ok1) as [st' [new [d' [E' [Ok' [M' F']]]]]].
      exists st', (ct :: new), d'. cbn [fold_left]. rewrite E1, E'.
      rewrite <- app_assoc. split; [reflexivity|]. split; [exact Ok'|]. split.
      + intro pid. eapply Qle_trans; [apply M1 | apply M'].
      + constructor.
        * split; [exact Id|]. split; [|exact D].
          exists (car_pos st1 (player_id r)).
          split; [exact P|]. split; [apply (Ok1 (player_id r))|].
          split; [apply M1 | apply M'].
        * eapply Forall2_impl; [|exact F'].
          intros a b. apply car_ok_weaken, M1.
  Qed.

  (** The stream is explained by a run of states, each tick reporting
      positions between the state before it and the state after it. *)
Fixpoint stream_ok (rs : list EntryResult) (st : CarState) (ticks : list Tick) : Prop :=
    match ticks with
    | [] => True
    | t :: rest =>
        exists st', state_ok total st'
                    /\ Forall2 (car_ok st st') rs (cars t)
                    /\ stream_ok rs st' rest
    end.

Lemma tick_loop_ok (rs : list EntryResult) (lap_count : Z) (fuel : nat) :
    forall tick_num st,
      state_ok total st ->
      stream_ok rs st (tick_loop profile n_tiles total su fuel rs lap_count tick_num st).
  Proof.
    induction fuel as [|fuel IH]; intros tick_num st Ok; [exact I|].
    cbn [tick_loop]. unfold run_tick.
    destruct (fold_car_step (tick_num + 1) rs [] true Ok)
      as [st' [new [d' [E [Ok' [_ F]]]]]].
    rewrite E. cbn [app].
    destruct (d' || grace_elapsed st' (tick_num + 1)).
    - exists st'. cbn [cars]. split; [exact Ok'|]. split; [exact F | exact I].
    - exists st'. cbn [cars]. split; [exact Ok'|]. split; [exact F|]. apply IH, Ok'.
  Qed.

Lemma tick_loop_length (rs : list EntryResult) (lap_count : Z) (fuel : nat) :
    forall tick_num st,
      (length (tick_loop profile n_tiles total su fuel rs lap_count tick_num st) <= fuel)%nat.
  Proof.
    induction fuel as [|fuel IH]; intros tick_num st; [apply Nat.le_refl|].
    cbn [tick_loop].
    destruct (run_tick profile n_tiles total su rs (tick_num + 1) st) as [[st' cd] d'].
    destruct (d' || grace_elapsed st' (tick_num + 1)); cbn [length].
    - lia.
    - specialize (IH (tick_num + 1)%Z st'). lia.
  Qed.

Lemma stream_ok_each (rs : list EntryResult) (ticks : list Tick) :
    forall st,
      stream_ok rs st ticks ->
      forall t, In t ticks ->
        Forall2 (fun r ct =>
                   car_id ct = player_id r
                   /\ 0 <= progress ct <= 1
                   /\ (incident ct = Some "dnf_start"%string ->
                       exists stop, dnf_stop su (player_id r) = Some stop
                                    /\ round_nd 4 stop <= progress ct))
                rs (cars t).
  Proof.
    induction ticks as [|t0 ticks IH]; intros st S t Hin; [destruct Hin|].
    destruct S as [st' [Ok' [F S']]]. destruct Hin as [<-|Hin]; [|exact (IH _ S' _ Hin)].
    eapply Forall2_impl; [|exact F].
    intros r ct [Id [[x [E [X0 _]]] D]]. split; [exact Id|]. split; [|exact D].
    pose proof (reported_bounds total_pos X0) as B. lra.
  Qed.

Lemma stream_ok_mono (rs : list EntryResult) (ticks : list Tick) (d : Tick) (dc : CarTick) :
    forall st,
      stream_ok rs st ticks ->
      forall k j, (S k < length ticks)%nat -> (j < length rs)%nat ->
        progress (nth j (cars (nth k ticks d)) dc)
        <= progress (nth j (cars (nth (S k) ticks d)) dc).
  Proof.
    induction ticks as [|t0 ticks IH]; intros st S k j Hk Hj; [simpl in Hk; lia|].
    destruct S as [s0 [Ok0 [F0 S0]]].
    destruct k as [|k].
    - destruct ticks as [|t1 ticks]; [simpl in Hk; lia|].
      destruct S0 as [s1 [Ok1 [F1 _]]]. cbn [nth].
      destruct rs as [|r0 rs']; [simpl in Hj; lia|].
      pose proof (@Forall2_nth _ _ _ _ _ j r0 dc F0 Hj) as [_ [[x0 [E0 [_ [_ U0]]]] _]].
      pose proof (@Forall2_nth _ _ _ _ _ j r0 dc F1 Hj) as [_ [[x1 [E1 [_ [L1 _]]]] _]].
      rewrite E0, E1. apply (reported_mono total_pos).
      eapply Qle_trans; eassumption.
    - cbn [nth]. apply (IH _ S0). simpl in Hk. lia. exact Hj.
  Qed.
End StreamFacts.

(** What every tick of a stream reports for the car of result [r]. *)
Definition tick_car_ok (su : Setup) (r : EntryResult) (ct : CarTick) : Prop :=
  car_id ct = player_id r
  /\ 0 <= progress ct <= 1
  /\ (incident ct = Some "dnf_start"%string ->
      exists stop, dnf_stop su (player_id r) = Some stop
                   /\ 3 # 10 <= stop < 7 # 10
                   /\ round_nd 4 stop <= progress ct).

Definition stream_props (su : Setup) (rs : list EntryResult) (ticks : list Tick) : Prop :=
  (length ticks <= Z.to_nat max_ticks)%nat
  /\ (forall t, In t ticks -> Forall2 (tick_car_ok su) rs (cars t))
  /\ (forall k j d dc,
        (S k < length ticks)%nat -> (j < length rs)%nat ->
        progress (nth j (cars (nth k ticks d)) dc)
        <= progress (nth j (cars (nth (S k) ticks d)) dc)).

Lemma tick_loop_props (profile : list Q) (n_tiles : Z) (total : Q)
      (hash_rng : string -> Random.t) (rs : list EntryResult) (lap_count : Z) :
  Forall (Qle 0) profile -> 0 < total ->
  stream_props (init_setup hash_rng rs) rs
    (tick_loop profile n_tiles total (init_setup hash_rng rs)
               (Z.to_nat max_ticks) rs lap_count 0 init_state).
Proof.
  intros Hp Ht. destruct (init_setup_ok hash_rng rs) as [Hf Hs].
  assert (Ok0 : state_ok total init_state).
  { intro pid. cbn. repeat split; lra. }
  pose proof (@tick_loop_ok profile n_tiles total _ Hp Ht Hf rs lap_count
                (Z.to_nat max_ticks) 0%Z init_state Ok0) as S.
  split; [apply tick_loop_length|]. split.
  - intros t Hin.
    pose proof (@stream_ok_each total _ Ht rs _ _ S t Hin) as F.
    eapply Forall2_impl; [|exact F].
    intros r ct [Id [B D]]. split; [exact Id|]. split; [exact B|].
    intro Hd. destruct (D Hd) as [stop [E L]].
    exists stop. split; [exact E|]. split; [exact (Hs _ _ E) | exact L].
  - intros k j d dc. apply (@stream_ok_mono total _ Ht rs _ d dc _ S).
Qed.

Lemma total_distance_pos (n_tiles lap_count : Z) :
  (0 < n_tiles)%Z -> (0 < lap_count)%Z ->
  0 < TILE_FEET * inject_Z n_tiles * inject_Z lap_count.
Proof.
  intros Hn Hl.
  assert (0 < inject_Z n_tiles) by (change 0 with (inject_Z 0); rewrite <- Zlt_Qlt; exact Hn).
  assert (0 < inject_Z lap_count)
    by (change 0 with (inject_Z 0); rewrite <- Zlt_Qlt; exact Hl).
  assert (0 < TILE_FEET) by reflexivity.
  apply Qmult_lt_0_compat; [apply Qmult_lt_0_compat|]; assumption.
Qed.

Lemma Qeq_bool_pos (x : Q) : 0 < x -> Qeq_bool x 0 = false.
Proof.
  intro H. destruct (Qeq_bool x 0) eqn:E; [|reflexivity].
  apply Qeq_bool_iff in E. lra.
Qed.

(** C7, as the code has it.  For every outcome list, positive lap count
    and track, the stream is produced, has at most [max_ticks] ticks, and in
    it: every tick reports one car per entrant, in order, with progress in
    [0,1]; each entrant's reported progress is non-decreasing from tick to
    tick; a car reported with the "dnf_start" incident has progress at
    least the stop fraction drawn for it (rounded to 4 decimals), a fraction in
    [0.3, 0.7), since it stops at the first tick that finds it at or beyond
    that point; and the step in which a non-DNF car reaches the total
    distance reports exactly 1. *)
Theorem tick_stream_progress (sqrt : Q -> Q) (hash_rng : string -> Random.t)
        (rs : list EntryResult) (lap_count : Z) (track : option TrackData) :
  (forall x, 0 <= sqrt x) -> (0 < lap_count)%Z ->
  (exists ticks,
      generate_tick_stream sqrt hash_rng rs lap_count track = Ok ticks
      /\ stream_props (init_setup hash_rng rs) rs ticks)
  /\ (forall profile n_tiles total su tick_num st cars_data all_done r st' cars' done',
        Forall (Qle 0) profile -> 0 < total -> (forall pid, 0 <= car_factor su pid) ->
        state_ok total st ->
        car_finished st (player_id r) = None -> dnf r = false ->
        car_step profile n_tiles total su tick_num (st, cars_data, all_done) r
        = (st', cars', done') ->
        car_finished st' (player_id r) <> None ->
        exists ct, cars' = cars_data ++ [ct] /\ progress ct == 1).
Proof.
  intros Hs Hl. split.
  - unfold generate_tick_stream. destruct rs as [|r0 rs'].
    + exists []. split; [reflexivity|]. split; [cbn; lia|]. split.
      * intros t [].
      * intros k j d dc Hk. simpl in Hk. lia.
    + set (rs := r0 :: rs').
      assert (G : forall profile n_tiles,
                 Forall (Qle 0) profile -> (0 < n_tiles)%Z ->
                 exists ticks,
                   (if Qeq_bool (TILE_FEET * inject_Z n_tiles * inject_Z lap_count) 0
                    then Raise ZeroDivisionError
                    else Ok (tick_loop profile n_tiles
                               (TILE_FEET * inject_Z n_tiles * inject_Z lap_count)
                               (init_setup hash_rng rs) (Z.to_nat max_ticks) rs
                               lap_count 0 init_state)) = Ok ticks
                   /\ stream_props (init_setup hash_rng rs) rs ticks).
      { intros profile n_tiles Hp Hn.
        pose proof (total_distance_pos Hn Hl) as Ht.
        rewrite (Qeq_bool_pos Ht). eexists. split; [reflexivity|].
        apply tick_loop_props; assumption. }
      assert (Top : Forall (Qle 0) [TOP_SPEED_FPS]) by (repeat constructor; discriminate).
      destruct track as [t|]; [|apply G; [exact Top | reflexivity]].
      destruct (path_order t) as [|p0 po] eqn:Po; [apply G; [exact Top | reflexivity]|].
      apply G; [apply build_speed_profile_nonneg, Hs | simpl; lia].
  - intros profile n_tiles total su tick_num st cars_data all_done r st' cars' done'
           Hp Ht Hf Ok Fin Dn E Fin'.
    destruct (@car_step_spec profile n_tiles total su Hp Ht Hf tick_num st cars_data
                all_done r Ok) as [st1 [ct [d1 [E1 [_ [_ [_ [_ [_ One]]]]]]]]].
    rewrite E1 in E. injection E as <- <- <-.
    exists ct. split; [reflexivity | exact (One Fin Fin' Dn)].
Qed.

(** A stream with one DNF entrant, one lap and no track. *)
Definition sqrt_example (x : Q) : Q := inject_Z (Z.sqrt (Qfloor x)).

Lemma sqrt_example_nonneg (x : Q) : 0 <= sqrt_example x.
Proof.
  unfold sqrt_example. change 0 with (inject_Z 0). rewrite <- Zle_Qle.
  apply Z.sqrt_nonneg.
Qed.

Definition hash_example (pid : string) : Random.t := Random.mk (fun _ => 0%N) 0.

Definition dnf_result : EntryResult :=
  mkEntryResult "dan" "Dan" 1 0 100 100 (8333 # 100) 0 1 [] _LUCK_TAG_NEUTRAL
                true (Some engine).

Lemma tick_stream_progress_witness :
  (exists ticks,
      generate_tick_stream sqrt_example hash_example [dnf_result] 1 None = Ok ticks
      /\ stream_props (init_setup hash_example [dnf_result]) [dnf_result] ticks)
  /\ (forall profile n_tiles total su tick_num st cars_data all_done r st' cars' done',
        Forall (Qle 0) profile -> 0 < total -> (forall pid, 0 <= car_factor su pid) ->
        state_ok total st ->
        car_finished st (player_id r) = None -> dnf r = false ->
        car_step profile n_tiles total su tick_num (st, cars_data, all_done) r
        = (st', cars', done') ->
        car_finished st' (player_id r) <> None ->
        exists ct, cars' = cars_data ++ [ct] /\ progress ct == 1).
Proof.
  apply (@tick_stream_progress sqrt_example hash_example [dnf_result] 1 None).
  - exact sqrt_example_nonneg.
  - reflexivity.
Defined.

(** What the last tick of a stream reports. *)
Definition last_report (r : Result (list Tick)) : list (string * Q * option string) :=
  match r with
  | Ok ticks =>
      map (fun ct => (car_id ct, Qred (progress ct), incident ct))
          (cars (last ticks (mkTick 0 0 [])))
  | Raise _ => []
  end.

(** C7 as stated fails for a DNF entrant: the stop fraction drawn for
    "dan" is 0.3, the car is stopped by the first tick that finds it at or
    beyond 0.3 of the distance, and its last reported progress is 0.3154. *)
Lemma dnf_stops_beyond_stop_fraction :
  option_map Qred (dnf_stop (init_setup hash_example [dnf_result]) "dan") = Some (3 # 10)
  /\ last_report (generate_tick_stream sqrt_example hash_example [dnf_result] 1 None)
     = [("dan"%string, 1577 # 5000, Some "dnf_start"%string)]
  /\ ~ 1577 # 5000 == 3 # 10.
Proof.
  split; [vm_compute; reflexivity|]. split; [vm_compute; reflexivity|].
  intro H. discriminate H.
Qed.

(** * Further properties of the simulator *)

Lemma TIER_SCORES_bounds (t : Tier) : (40 <= TIER_SCORES t <= 100)%Z.
Proof. destruct t; simpl; lia. Qed.

Lemma tier_score_Q_bounds (t : Tier) : 40 <= inject_Z (TIER_SCORES t) <= 100.
Proof.
  pose proof (TIER_SCORES_bounds t) as [L U].
  split; [change 40 with (inject_Z 40) | change 100 with (inject_Z 100)];
    rewrite <- Zle_Qle; assumption.
Qed.

Lemma build_quality_range (car : CarSlots) :
  40 <= _build_quality car <= 100
  /\ (_build_quality car == 100 <-> forall s, tier (get_slot car s) = performance).
Proof.
  unfold _build_quality, len, SLOT_NAMES, Zsum. cbn [map fold_left length].
  set (e := tier (get_slot car engine)). set (t := tier (get_slot car tires)).
  set (s := tier (get_slot car suspension)). set (a := tier (get_slot car aero)).
  set (f := tier (get_slot car fuel)). set (el := tier (get_slot car electronics)).
  assert (D : forall z, inject_Z z / inject_Z (Z.of_nat 6) == inject_Z z * (1 # 6)).
  { intro z. reflexivity. }
  rewrite D. rewrite !Z.add_0_l, !inject_Z_plus.
  pose proof (tier_score_Q_bounds e). pose proof (tier_score_Q_bounds t).
  pose proof (tier_score_Q_bounds s). pose proof (tier_score_Q_bounds a).
  pose proof (tier_score_Q_bounds f). pose proof (tier_score_Q_bounds el).
  split; [split; lra|]. split.
  - intros E sl.
    assert (P : forall x, 100 <= inject_Z (TIER_SCORES x) -> x = performance).
    { intros [] Hx; try reflexivity; exfalso; revert Hx; unfold Qle; simpl; lia. }
    destruct sl; apply P; fold e t s a f el; lra.
  - intro Hall. unfold e, t, s, a, f, el. rewrite !Hall. reflexivity.
Qed.

(** X1. The build quality of every car lies between 40 and 100, and it is
    100 exactly for a car whose six parts are all performance tier. *)
Theorem build_quality_bounds (car : CarSlots) :
  40 <= _build_quality car <= 100
  /\ (_build_quality car == 100 <-> forall s, tier (get_slot car s) = performance).
Proof. exact (build_quality_range car). Qed.

Lemma known_event_cases (event_type : string) :
  known_event event_type ->
  In event_type ["sprint"; "endurance"; "time_trial"; "wet_track"; "night_race";
                 "altitude"; "spec_class"; "weight_limit"]%string.
Proof.
  intros [w Hw]. unfold EVENT_SLOT_WEIGHTS in Hw. cbn [Dict.get] in Hw.
  repeat match type of Hw with
         | context [String.eqb ?a event_type] =>
             destruct (String.eqb_spec a event_type) as [<-|_];
             [simpl; tauto|]
         end.
  discriminate.
Qed.

Lemma event_penalty_bounds (car : CarSlots) (event_type : string) :
  0 <= event_penalty car event_type <= 20.
Proof.
  unfold event_penalty.
  repeat match goal with
         | |- context [if ?b then _ else _] => destruct b
         end; split; unfold Qle; simpl; lia.
Qed.

Lemma event_fit_cases (car : CarSlots) (event_type : string) :
  (Dict.get String.eqb EVENT_SLOT_WEIGHTS event_type = None ->
   _event_fit car event_type = Raise KeyError)
  /\ (known_event event_type ->
      exists ef per_slot,
        _event_fit car event_type = Ok (ef, per_slot)
        /\ 20 <= ef <= 100
        /\ map fst per_slot = SLOT_NAMES
        /\ forall s sr, Dict.get slot_eqb per_slot s = Some sr ->
                        sr_tier sr = tier (get_slot car s)
                        /\ sr_readiness sr = readiness (get_slot car s)
                        /\ tier_score sr = TIER_SCORES (tier (get_slot car s))
                        /\ readiness_penalty sr = 0).
Proof.
  split.
  - intro N. unfold _event_fit, Dict.item. rewrite N. reflexivity.
  - intro K. apply known_event_cases in K.
    pose proof (tier_score_Q_bounds (tier (get_slot car engine))).
    pose proof (tier_score_Q_bounds (tier (get_slot car tires))).
    pose proof (tier_score_Q_bounds (tier (get_slot car suspension))).
    pose proof (tier_score_Q_bounds (tier (get_slot car aero))).
    pose proof (tier_score_Q_bounds (tier (get_slot car fuel))).
    pose proof (tier_score_Q_bounds (tier (get_slot car electronics))).
    assert (Fit : forall ws tw ev, 0 < tw -> 40 * tw <= ws <= 100 * tw ->
                                   20 <= Qmax 0 (ws / tw - event_penalty car ev) <= 100).
    { intros ws tw ev Htw [L U]. pose proof (event_penalty_bounds car ev) as [P0 P1].
      assert (40 <= ws / tw) by (apply Qle_shift_div_l; assumption).
      assert (ws / tw <= 100) by (apply Qle_shift_div_r; assumption).
      destruct (Qmax_cases 0 (ws / tw - event_penalty car ev)) as [[L1 E1]|[L1 E1]]; lra. }
    simpl in K.
    repeat (destruct K as [<-|K]; [
      rewrite event_fit_unfold; unfold Dict.item, EVENT_SLOT_WEIGHTS, weights_row, SLOT_NAMES;
      cbn [Dict.get String.eqb Ascii.eqb Bool.eqb foldM bind slot_eqb Dict.set fst snd map
           get_slot];
      do 2 eexists; split; [reflexivity|];
      cbn [Dict.get String.eqb Ascii.eqb Bool.eqb foldM bind slot_eqb Dict.set fst snd map];
      split;
      [apply Fit; [reflexivity | unfold Qsum; cbn [fold_left]; split; lra]
      |split; [reflexivity|];
       intros s sr; destruct s; cbn [Dict.get slot_eqb get_slot];
       intro E; injection E as <-; cbn; repeat split; reflexivity] |]).
    destruct K.
Qed.


(** X2. [_event_fit] raises KeyError for an event type that
    [EVENT_SLOT_WEIGHTS] does not list; for a listed one it returns a fit
    between 20 and 100 together with one slot record per slot, each with
    the slot's tier and readiness and a zero readiness penalty. *)
Theorem event_fit_range (car : CarSlots) (event_type : string) :
  (Dict.get String.eqb EVENT_SLOT_WEIGHTS event_type = None ->
   _event_fit car event_type = Raise KeyError)
  /\ (known_event event_type ->
      exists ef per_slot,
        _event_fit car event_type = Ok (ef, per_slot)
        /\ 20 <= ef <= 100
        /\ map fst per_slot = SLOT_NAMES
        /\ forall s sr, Dict.get slot_eqb per_slot s = Some sr ->
                        sr_tier sr = tier (get_slot car s)
                        /\ sr_readiness sr = readiness (get_slot car s)
                        /\ tier_score sr = TIER_SCORES (tier (get_slot car s))
                        /\ readiness_penalty sr = 0).
Proof. exact (event_fit_cases car event_type). Qed.

Lemma event_fit_range_witness :
  _event_fit car_example "drag_race" = Raise KeyError
  /\ exists ef per_slot,
       _event_fit car_example "wet_track" = Ok (ef, per_slot) /\ 20 <= ef <= 100.
Proof.
  destruct (event_fit_range car_example "drag_race") as [Unknown _].
  destruct (event_fit_range car_example "wet_track") as [_ Known].
  split; [apply Unknown; reflexivity|].
  destruct (Known ltac:(eexists; reflexivity)) as [ef [ps [E [B _]]]].
  exists ef, ps. split; [exact E | exact B].
Defined.

Lemma slot_contribution_bounds (r : Q) :
  0 <= r -> 0 <= slot_contribution_spec r <= r.
Proof.
  intro H. unfold slot_contribution_spec. destruct (Qltb r 50) eqn:E.
  - apply Qltb_lt in E.
    destruct (Qmax_cases 0 (r - (50 - r))) as [[L1 E1]|[L1 E1]]; lra.
  - lra.
Qed.

Lemma readiness_fold_high (car : CarSlots) (slots : list Slot) (total : Q)
      (ps : Dict.t Slot SlotResult) :
  (forall s, In s slots -> 50 <= readiness (get_slot car s)) ->
  foldM (readiness_step car) slots (total, ps)
  = Ok (fold_left Qplus (map (fun s => readiness (get_slot car s)) slots) total, ps).
Proof.
  revert total. induction slots as [|s slots IH]; intros total H; [reflexivity|].
  cbn [foldM map fold_left]. unfold readiness_step at 1.
  assert (E : Qltb (readiness (get_slot car s)) 50 = false)
    by (apply Qltb_ge, H; left; reflexivity).
  rewrite E. cbn [bind]. apply IH. intros s' Hs'. apply H. right. exact Hs'.
Qed.

Lemma Ok_pair_inj (A B : Type) (a c : A) (b d : B) :
  Ok (a, b) = Ok (c, d) -> a = c /\ b = d.
Proof.
  intro H. split.
  - exact (f_equal (fun r => match r with Ok p => fst p | Raise _ => a end) H).
  - exact (f_equal (fun r => match r with Ok p => snd p | Raise _ => b end) H).
Qed.

(** The mean readiness of the six slots. *)
Definition mean_readiness (car : CarSlots) : Q :=
  Qsum (map (fun s => readiness (get_slot car s)) SLOT_NAMES) / 6.

(** X3. For a car with every readiness in [0,100] and a slot table
    holding all six slots, the readiness score is returned, lies between 0
    and the mean readiness (so at most 100); and when no slot is below 50
    it is exactly the mean readiness and the slot table is returned
    unchanged. *)
Theorem readiness_score_range (car : CarSlots) (per_slot : Dict.t Slot SlotResult) :
  valid_car car -> has_all per_slot ->
  exists rs per_slot',
    _readiness_score car per_slot = Ok (rs, per_slot')
    /\ 0 <= rs <= mean_readiness car
    /\ mean_readiness car <= 100
    /\ ((forall s, 50 <= readiness (get_slot car s)) ->
        rs = mean_readiness car /\ per_slot' = per_slot).
Proof.
  intros V H. destruct (readiness_score_ok car H) as [ps' [E _]].
  exists (readiness_score_spec car), ps'. split; [exact E|].
  assert (Third : (forall s, 50 <= readiness (get_slot car s)) ->
                  readiness_score_spec car = mean_readiness car /\ ps' = per_slot).
  { intro High.
    pose proof (readiness_fold_high car SLOT_NAMES 0 per_slot (fun s _ => High s)) as F.
    unfold _readiness_score in E.
    change (foldM _ SLOT_NAMES (0, per_slot))
      with (foldM (readiness_step car) SLOT_NAMES (0, per_slot)) in E.
    rewrite F in E. cbn [bind fst snd] in E.
    apply Ok_pair_inj in E. destruct E as [E1 E2].
    split; [symmetry; exact E1 | symmetry; exact E2]. }
  split; [|split; [|exact Third]]; clear Third E.
  all: pose proof (slot_contribution_bounds (proj1 (V engine)));
    pose proof (slot_contribution_bounds (proj1 (V tires)));
    pose proof (slot_contribution_bounds (proj1 (V suspension)));
    pose proof (slot_contribution_bounds (proj1 (V aero)));
    pose proof (slot_contribution_bounds (proj1 (V fuel)));
    pose proof (slot_contribution_bounds (proj1 (V electronics)));
    pose proof (proj2 (V engine)); pose proof (proj2 (V tires));
    pose proof (proj2 (V suspension)); pose proof (proj2 (V aero));
    pose proof (proj2 (V fuel)); pose proof (proj2 (V electronics));
    unfold readiness_score_spec, mean_readiness, Qsum, SLOT_NAMES;
    cbn [map fold_left]; cbn [get_slot] in *;
    unfold Qdiv; change (/ 6) with (1 # 6).
  - split; lra.
  - lra.
Qed.

Definition per_slot_example : Dict.t Slot SlotResult :=
  map (fun s => (s, mkSlotResult (tier (get_slot car_example s))
                                 (readiness (get_slot car_example s))
                                 (TIER_SCORES (tier (get_slot car_example s))) 1 0 0))
      SLOT_NAMES.

Lemma per_slot_example_has_all : has_all per_slot_example.
Proof. intros []; discriminate. Qed.

Lemma readiness_score_range_witness :
  exists rs per_slot',
    _readiness_score car_example per_slot_example = Ok (rs, per_slot')
    /\ 0 <= rs <= mean_readiness car_example
    /\ mean_readiness car_example <= 100
    /\ ((forall s, 50 <= readiness (get_slot car_example s)) ->
        rs = mean_readiness car_example /\ per_slot' = per_slot_example).
Proof.
  exact (readiness_score_range car_example_valid per_slot_example_has_all).
Defined.

Lemma check_dnf_loop_spec (car : CarSlots) (slots : list Slot) :
  forall rng,
    let '(is_dnf, slot, rng') := check_dnf_loop slots car rng in
    (is_dnf = true ->
     exists s, slot = Some s /\ In s slots /\ readiness (get_slot car s) < 20)
    /\ (is_dnf = false -> slot = None)
    /\ ((forall s, In s slots -> 20 <= readiness (get_slot car s)) ->
        is_dnf = false /\ rng' = rng)
    /\ Random.tape rng' = Random.tape rng
    /\ (Random.cursor rng <= Random.cursor rng' <= Random.cursor rng + length slots)%nat.
Proof.
  induction slots as [|s slots IH]; intro rng.
  - cbn. repeat split; try discriminate; try reflexivity; lia.
  - cbn [check_dnf_loop].
    destruct (Qltb (readiness (get_slot car s)) 20) eqn:Low.
    + apply Qltb_lt in Low.
      destruct (Random.random rng) as [u rng1] eqn:R.
      assert (T1 : Random.tape rng1 = Random.tape rng /\ Random.cursor rng1 = S (Random.cursor rng)).
      { unfold Random.random, Random.next in R. injection R as _ <-. split; reflexivity. }
      destruct T1 as [T1 C1].
      destruct (Qltb u (1 # 10)).
      * split; [intros _; exists s; split; [reflexivity|]; split; [left; reflexivity | exact Low]|].
        split; [discriminate|]. split.
        -- intro H. specialize (H s (or_introl eq_refl)). lra.
        -- split; [exact T1 | cbn [length]; lia].
      * specialize (IH rng1). destruct (check_dnf_loop slots car rng1) as [[d sl] rng2].
        destruct IH as [A [B [_ [T D]]]].
        split; [intro Hd; destruct (A Hd) as [s' [E [I L]]]; exists s';
                split; [exact E|]; split; [right; exact I | exact L]|].
        split; [exact B|]. split.
        -- intro H. specialize (H s (or_introl eq_refl)). lra.
        -- split; [rewrite T; exact T1 | cbn [length]; lia].
    + apply Qltb_ge in Low. specialize (IH rng).
      destruct (check_dnf_loop slots car rng) as [[d sl] rng2].
      destruct IH as [A [B [C [T D]]]].
      split; [intro Hd; destruct (A Hd) as [s' [E [I L]]]; exists s';
              split; [exact E|]; split; [right; exact I | exact L]|].
      split; [exact B|]. split.
      * intro H. apply C. intros s' Hs'. apply H. right. exact Hs'.
      * split; [exact T | cbn [length]; lia].
Qed.

(** X4. [_check_dnf] reports a DNF only together with a slot whose
    readiness is below 20, and no slot otherwise; a car with every slot at
    20 or above is never DNF and the check draws nothing from the entrant's
    generator; in every case it draws at most six numbers. *)
Theorem check_dnf_spec (car : CarSlots) (rng : Random.t) :
  let '(is_dnf, slot, rng') := _check_dnf car rng in
  (is_dnf = true -> exists s, slot = Some s /\ readiness (get_slot car s) < 20)
  /\ (is_dnf = false -> slot = None)
  /\ ((forall s, 20 <= readiness (get_slot car s)) -> is_dnf = false /\ rng' = rng)
  /\ (Random.cursor rng <= Random.cursor rng' <= Random.cursor rng + 6)%nat.
Proof.
  unfold _check_dnf. pose proof (check_dnf_loop_spec car SLOT_NAMES rng) as H.
  destruct (check_dnf_loop SLOT_NAMES car rng) as [[d sl] rng'].
  destruct H as [A [B [C [_ D]]]].
  split; [intro Hd; destruct (A Hd) as [s [E [_ L]]]; exists s; split; assumption|].
  split; [exact B|]. split; [|exact D].
  intro H. apply C. intros s _. apply H.
Qed.

Lemma check_dnf_spec_witness :
  _check_dnf (mkCarSlots (mkSlotPart standard 100) (mkSlotPart standard 20)
                         (mkSlotPart standard 55) (mkSlotPart standard 100)
                         (mkSlotPart standard 100) (mkSlotPart standard 100))
             global_example
  = (false, None, global_example).
Proof.
  pose proof (check_dnf_spec
                (mkCarSlots (mkSlotPart standard 100) (mkSlotPart standard 20)
                            (mkSlotPart standard 55) (mkSlotPart standard 100)
                            (mkSlotPart standard 100) (mkSlotPart standard 100))
                global_example) as H.
  destruct (_check_dnf _ global_example) as [[d sl] rng'].
  destruct H as [_ [B [C _]]].
  destruct C as [-> ->]; [intros []; unfold Qle; simpl; lia|].
  rewrite (B eq_refl). reflexivity.
Defined.

(** X5. The luck tag is drawn from the positive pool when the luck delta
    exceeds 5 and from the negative pool when it is below -5, each time
    advancing the interpreter-wide generator by one draw; for a delta in
    [-5, 5] the tag is the neutral one and the generator is untouched. *)
Theorem luck_tag_pools (delta : Q) (g : Random.t) :
  (5 < delta ->
   In (fst (_luck_tag delta g)) _LUCK_TAGS_POSITIVE
   /\ Random.cursor (snd (_luck_tag delta g)) = S (Random.cursor g))
  /\ (delta < -5 ->
      In (fst (_luck_tag delta g)) _LUCK_TAGS_NEGATIVE
      /\ Random.cursor (snd (_luck_tag delta g)) = S (Random.cursor g))
  /\ (-5 <= delta <= 5 -> _luck_tag delta g = (_LUCK_TAG_NEUTRAL, g)).
Proof.
  unfold _luck_tag. split; [|split].
  - intro H. apply Qltb_lt in H. rewrite H.
    split; [apply choice_In; discriminate | reflexivity].
  - intro H.
    assert (E : Qltb 5 delta = false) by (apply Qltb_ge; lra).
    apply Qltb_lt in H. rewrite E, H.
    split; [apply choice_In; discriminate | reflexivity].
  - intros [L U].
    assert (E1 : Qltb 5 delta = false) by (apply Qltb_ge; exact U).
    assert (E2 : Qltb delta (-5) = false) by (apply Qltb_ge; exact L).
    rewrite E1, E2. reflexivity.
Qed.

Lemma luck_tag_pools_witness :
  In (fst (_luck_tag (15 # 2) global_example)) _LUCK_TAGS_POSITIVE
  /\ In (fst (_luck_tag (- (6)) global_example)) _LUCK_TAGS_NEGATIVE
  /\ _luck_tag 5 global_example = (_LUCK_TAG_NEUTRAL, global_example).
Proof.
  destruct (luck_tag_pools (15 # 2) global_example) as [P _].
  destruct (luck_tag_pools (- (6)) global_example) as [_ [N _]].
  destruct (luck_tag_pools 5 global_example) as [_ [_ Z]].
  split; [apply P; reflexivity|].
  split; [apply N; reflexivity | apply Z; split; discriminate].
Defined.

Section SimulatorEdges.
Variable rng : string -> string -> Random.t.

Lemma simulate_entry_unknown (id event_type : string) (entry : RaceEntry) (car : CarSlots) :
  Dict.get String.eqb EVENT_SLOT_WEIGHTS event_type = None ->
  simulate_entry rng id event_type entry car = Raise KeyError.
Proof.
  intro N. unfold simulate_entry.
  destruct (_check_dnf car (rng id (entry_player_id entry))) as [[d ds] rng1].
  unfold _event_fit, Dict.item. rewrite N. reflexivity.
Qed.

Lemma collect_raw_unknown (id event_type : string) (es : list RaceEntry) :
  Dict.get String.eqb EVENT_SLOT_WEIGHTS event_type = None ->
  filter has_car es <> [] ->
  collect_raw rng id event_type es = Raise KeyError.
Proof.
  intros N. induction es as [|e es IH]; intro H; [contradiction H; reflexivity|].
  cbn [collect_raw]. cbn [filter] in H. unfold has_car at 1 in H.
  destruct (locked_car e) as [car|]; [|apply IH, H].
  rewrite (@simulate_entry_unknown id event_type e car N). reflexivity.
Qed.

Lemma collect_raw_none_locked (id event_type : string) (es : list RaceEntry) :
  filter has_car es = [] -> collect_raw rng id event_type es = Ok [].
Proof.
  induction es as [|e es IH]; intro H; [reflexivity|].
  cbn [collect_raw]. cbn [filter] in H. unfold has_car at 1 in H.
  destruct (locked_car e) as [car|]; [discriminate | apply IH, H].
Qed.

(** X6. A race in which no entry has a locked car simulates to the
    empty result list, whatever its event type, without touching the
    interpreter-wide generator; a race with at least one locked entry and
    an event type missing from [EVENT_SLOT_WEIGHTS] raises KeyError. *)
Theorem simulate_race_edges (race : Race) (g : Random.t) :
  (filter has_car (entries race) = [] -> simulate_race rng race g = Ok ([], g))
  /\ (filter has_car (entries race) <> [] ->
      Dict.get String.eqb EVENT_SLOT_WEIGHTS (event_type race) = None ->
      simulate_race rng race g = Raise KeyError).
Proof.
  split.
  - intro H. unfold simulate_race, sorted_raw.
    rewrite (@collect_raw_none_locked _ _ _ H). reflexivity.
  - intros H N. unfold simulate_race, sorted_raw.
    rewrite (@collect_raw_unknown _ _ _ N H). reflexivity.
Qed.
End SimulatorEdges.

Lemma simulate_race_edges_witness :
  simulate_race rng_example
    (mkRace "r" "" "sprint" running 100 25 12 None
            [mkRaceEntry "bob" "Bob" None ""] []) global_example
  = Ok ([], global_example)
  /\ simulate_race rng_example
       (mkRace "r" "" "drag_race" running 100 25 12 None
               [mkRaceEntry "ann" "Ann" (Some car_example) ""] []) global_example
     = Raise KeyError.
Proof.
  split.
  - apply (proj1 (simulate_race_edges rng_example _ global_example)). reflexivity.
  - apply (proj2 (simulate_race_edges rng_example _ global_example));
      [discriminate | reflexivity].
Defined.

Lemma round_nd_between (d : nat) (a b : Z) (x : Q) :
  inject_Z a <= x <= inject_Z b -> inject_Z a <= round_nd d x <= inject_Z b.
Proof.
  intros [L U].
  pose proof (round_nd_mono d L) as L'. pose proof (round_nd_mono d U) as U'.
  pose proof (round_nd_inject d a). pose proof (round_nd_inject d b).
  split; lra.
Qed.

Lemma Forall2_In_r (A B : Type) (R : A -> B -> Prop) (l1 : list A) (l2 : list B) (b : B) :
  Forall2 R l1 l2 -> In b l2 -> exists a, In a l1 /\ R a b.
Proof.
  intro F. induction F as [|x y l1 l2 Hxy F IH]; intros [].
  - subst. exists x. split; [left; reflexivity | exact Hxy].
  - destruct (IH H) as [a [Ha Ra]]. exists a. split; [right; exact Ha | exact Ra].
Qed.

Lemma cf_fold_values (a : nat) (l : list (string * Q)) (d : Dict.t string Z)
      (k : string) (v : Z) :
  Dict.get String.eqb (cf_fold a l d) k = Some v ->
  Dict.get String.eqb d k = Some v
  \/ (Z.of_nat a + 1 <= v <= Z.of_nat a + Z.of_nat (length l))%Z.
Proof.
  revert a d. induction l as [|p l IH]; intros a d H; [left; exact H|].
  rewrite cf_fold_cons in H. apply IH in H. destruct H as [H|H].
  - rewrite (@Dict_get_set _ _ String.eqb string_eqb_spec) in H.
    destruct (String.eqb (fst p) k).
    + injection H as <-. right. cbn [length]. lia.
    + left. exact H.
  - right. cbn [length]. lia.
Qed.

Lemma luck_range_cases (event_type : string) :
  luck_range event_type = 5 \/ luck_range event_type = 15.
Proof. unfold luck_range. destruct (is_time_trial event_type); tauto. Qed.

Lemma readiness_score_spec_bounds (car : CarSlots) :
  valid_car car -> 0 <= readiness_score_spec car <= 100.
Proof.
  intro V.
  pose proof (slot_contribution_bounds (proj1 (V engine))).
  pose proof (slot_contribution_bounds (proj1 (V tires))).
  pose proof (slot_contribution_bounds (proj1 (V suspension))).
  pose proof (slot_contribution_bounds (proj1 (V aero))).
  pose proof (slot_contribution_bounds (proj1 (V fuel))).
  pose proof (slot_contribution_bounds (proj1 (V electronics))).
  pose proof (proj2 (V engine)). pose proof (proj2 (V tires)).
  pose proof (proj2 (V suspension)). pose proof (proj2 (V aero)).
  pose proof (proj2 (V fuel)). pose proof (proj2 (V electronics)).
  unfold readiness_score_spec, Qsum, SLOT_NAMES.
  cbn [map fold_left]. cbn [get_slot] in *.
  unfold Qdiv. change (/ 6) with (1 # 6). split; lra.
Qed.

(** X7. For a race with a known event type whose locked cars all have
    readiness in [0,100], every output record has its score in [0,100],
    build quality in [40,100], event fit in [20,100], readiness score in
    [0,100], a luck delta within the event's luck range (5 for a time trial,
    15 otherwise), and a counterfactual position between 1 and the number of
    results; a DNF record has score 0. *)
Theorem simulate_race_ranges (rng : string -> string -> Random.t) (race : Race)
        (g : Random.t) :
  known_event (event_type race) ->
  (forall e car, In e (entries race) -> locked_car e = Some car -> valid_car car) ->
  exists results g',
    simulate_race rng race g = Ok (results, g')
    /\ forall r, In r results ->
         0 <= result_score r <= 100
         /\ 40 <= build_quality r <= 100
         /\ 20 <= event_fit r <= 100
         /\ 0 <= readiness_score r <= 100
         /\ - luck_range (event_type race) <= luck_delta r <= luck_range (event_type race)
         /\ (1 <= counterfactual_position r <= Z.of_nat (length results))%Z
         /\ (dnf r = true -> result_score r == 0).
Proof.
  intros K V. destruct (simulate_race_run rng race g K) as [raws [results [g' [E [C F P]]]]].
  exists results, g'. split; [exact E|]. intros r Hr.
  destruct (@Forall2_In_r _ _ _ _ _ _ F Hr) as [raw [Hraw Ro]].
  apply (Permutation_in _ (sort_desc_perm raw_score raws)) in Hraw.
  destruct (@Forall2_In_r _ _ _ _ _ _ (run_raw_of rng race C) Hraw)
    as [e [He [car [L Rw]]]].
  apply filter_In in He. destruct He as [He _].
  pose proof (V e car He L) as Vc.
  rewrite (ro_score Ro), (ro_build_quality Ro), (ro_event_fit Ro), (ro_readiness Ro),
    (ro_luck Ro), (ro_dnf Ro).
  assert (Sc : 0 <= raw_score raw <= 100).
  { rewrite (rw_score Rw). destruct (raw_dnf raw); [split; discriminate|].
    set (x := neutral_score (event_type race) raw + raw_luck_delta raw).
    destruct (Qmin_cases 100 x) as [[L1 E1]|[L1 E1]];
      destruct (Qmax_cases 0 (Qmin 100 x)) as [[L2 E2]|[L2 E2]]; split; lra. }
  split; [exact (@round_nd_between 2 0 100 _ Sc)|].
  split; [apply (@round_nd_between 2 40 100); rewrite (rw_build_quality Rw);
          exact (proj1 (build_quality_range car))|].
  split.
  { apply (@round_nd_between 2 20 100).
    destruct (rw_event_fit Rw) as [fit [Ef ->]].
    destruct (proj2 (event_fit_cases car (event_type race)) K) as [ef [ps [Ef' [B _]]]].
    rewrite Ef in Ef'. injection Ef' as ->. exact B. }
  split; [apply (@round_nd_between 2 0 100); rewrite (rw_readiness Rw);
          exact (readiness_score_spec_bounds Vc)|].
  split.
  { rewrite (rw_luck Rw).
    set (gen := snd (_check_dnf car (rng (race_id race) (entry_player_id e)))).
    destruct (luck_range_cases (event_type race)) as [R|R]; rewrite R.
    - pose proof (@uniform_range gen (- (5)) 5 ltac:(reflexivity)) as U.
      apply (@round_nd_between 2 (-5) 5). change (inject_Z (-5)) with (- (5)).
      change (inject_Z 5) with 5. lra.
    - pose proof (@uniform_range gen (- (15)) 15 ltac:(reflexivity)) as U.
      apply (@round_nd_between 2 (-15) 15). change (inject_Z (-15)) with (- (15)).
      change (inject_Z 15) with 15. lra. }
  split.
  { pose proof (ro_cf Ro) as G. rewrite cf_rank_of_eq in G.
    apply cf_fold_values in G. destruct G as [G|G]; [discriminate|].
    rewrite neutral_scores_of_eq, sort_desc_length, length_map in G.
    rewrite (Forall2_length F) in G. lia. }
  intro D. rewrite (rw_score Rw), D. exact (round_nd_0 2).
Qed.

Lemma simulate_race_ranges_witness :
  exists results g',
    simulate_race rng_example race_example global_example = Ok (results, g')
    /\ forall r, In r results ->
         0 <= result_score r <= 100
         /\ 40 <= build_quality r <= 100
         /\ 20 <= event_fit r <= 100
         /\ 0 <= readiness_score r <= 100
         /\ - luck_range (event_type race_example) <= luck_delta r
            <= luck_range (event_type race_example)
         /\ (1 <= counterfactual_position r <= Z.of_nat (length results))%Z
         /\ (dnf r = true -> result_score r == 0).
Proof.
  apply (@simulate_race_ranges rng_example race_example global_example).
  - eexists. reflexivity.
  - intros e car [<-|[<-|[<-|[]]]] L; cbn in L; try discriminate;
      injection L as <-; intros []; split; discriminate.
Defined.

(** ** The interpreter-wide generator *)

(** [r.model_copy(update={"luck_tag": tag})] *)
Definition with_luck_tag (tag : string) (r : EntryResult) : EntryResult :=
  mkEntryResult (player_id r) (username r) (position r) (result_score r)
    (build_quality r) (event_fit r) (readiness_score r) (luck_delta r)
    (counterfactual_position r) (per_slot r) tag (dnf r) (dnf_slot r).

(** A record carries a tag drawn from one of the two pools. *)
Definition tagged (r : EntryResult) : bool :=
  negb (luck_tag r =? _LUCK_TAG_NEUTRAL)%string.

(** The luck deltas for which [_luck_tag] draws from a pool. *)
Definition draws_tag (delta : Q) : bool := Qltb 5 delta || Qltb delta (-5).

Lemma with_luck_tag_same (r : EntryResult) : with_luck_tag (luck_tag r) r = r.
Proof. destruct r. reflexivity. Qed.

Lemma pools_not_neutral (tag : string) :
  In tag _LUCK_TAGS_POSITIVE \/ In tag _LUCK_TAGS_NEGATIVE ->
  (tag =? _LUCK_TAG_NEUTRAL)%string = false.
Proof.
  intros [H|H]; cbn in H;
    repeat (destruct H as [<-|H]; [reflexivity|]); destruct H.
Qed.

Lemma luck_tag_draw (delta : Q) (g : Random.t) :
  (fst (_luck_tag delta g) =? _LUCK_TAG_NEUTRAL)%string = negb (draws_tag delta)
  /\ snd (_luck_tag delta g)
     = if draws_tag delta then snd (Random.next g) else g.
Proof.
  unfold _luck_tag, draws_tag. destruct (Qltb 5 delta); cbn [orb negb].
  - split; [|reflexivity]. apply pools_not_neutral. left. apply choice_In. discriminate.
  - destruct (Qltb delta (-5)); cbn [negb].
    + split; [|reflexivity]. apply pools_not_neutral. right. apply choice_In. discriminate.
    + split; reflexivity.
Qed.

Lemma build_results_generator (raws : list RawResult) (cf_rank : Dict.t string Z) :
  forall pos g res g',
    build_results pos raws cf_rank g = Ok (res, g') ->
    map tagged res = map (fun r => draws_tag (raw_luck_delta r)) raws
    /\ Random.tape g' = Random.tape g
    /\ Random.cursor g' = (Random.cursor g + length (filter tagged res))%nat.
Proof.
  induction raws as [|raw raws IH]; intros pos g res g' E.
  - cbn in E. injection E as <- <-. cbn. repeat split. lia.
  - cbn [build_results] in E. unfold Dict.item in E.
    destruct (Dict.get String.eqb cf_rank (raw_player_id raw)) as [cf|]; [|discriminate].
    cbn [bind] in E.
    destruct (luck_tag_draw (raw_luck_delta raw) g) as [T G].
    destruct (_luck_tag (raw_luck_delta raw) g) as [tag g1]. cbn [fst snd] in T, G.
    destruct (build_results (pos + 1) raws cf_rank g1) as [[rest g2]|] eqn:R; [|discriminate].
    cbn [bind fst snd] in E. injection E as <- <-.
    destruct (IH _ _ _ _ R) as [M [Tp Cu]].
    cbn [map filter]. unfold tagged at 1 3. cbn [luck_tag]. rewrite T, Bool.negb_involutive.
    split; [f_equal; exact M|].
    rewrite Tp, Cu, G. destruct (draws_tag (raw_luck_delta raw)); cbn; split; try reflexivity; lia.
Qed.

Lemma build_results_any_generator (raws : list RawResult) (cf_rank : Dict.t string Z) :
  forall pos g1 g2 res1 g1',
    build_results pos raws cf_rank g1 = Ok (res1, g1') ->
    exists res2 g2',
      build_results pos raws cf_rank g2 = Ok (res2, g2')
      /\ Forall2 (fun r1 r2 => with_luck_tag (luck_tag r2) r1 = r2) res1 res2.
Proof.
  induction raws as [|raw raws IH]; intros pos g1 g2 res1 g1' E.
  - cbn in E. injection E as <- <-. exists [], g2. split; [reflexivity|constructor].
  - cbn [build_results] in E |- *. unfold Dict.item in E |- *.
    destruct (Dict.get String.eqb cf_rank (raw_player_id raw)) as [cf|]; [|discriminate].
    cbn [bind] in E |- *.
    destruct (_luck_tag (raw_luck_delta raw) g1) as [tag1 g1a].
    destruct (_luck_tag (raw_luck_delta raw) g2) as [tag2 g2a].
    destruct (build_results (pos + 1) raws cf_rank g1a) as [[rest1 g1b]|] eqn:R; [|discriminate].
    cbn [bind fst snd] in E. injection E as <- <-.
    destruct (IH _ _ g2a _ _ R) as [rest2 [g2b [R2 F]]].
    rewrite R2. cbn [bind fst snd]. do 2 eexists. split; [reflexivity|].
    constructor; [reflexivity | exact F].
Qed.

Lemma untagged_same (res1 res2 : list EntryResult) :
  Forall2 (fun r1 r2 => with_luck_tag (luck_tag r2) r1 = r2) res1 res2 ->
  map tagged res1 = map tagged res2 ->
  forallb (fun r => negb (tagged r)) res1 = true ->
  res2 = res1.
Proof.
  intro F. induction F as [|r1 r2 l1 l2 H F IH]; intros M A; [reflexivity|].
  cbn [map] in M. injection M as M1 M2. cbn [forallb] in A.
  apply andb_prop in A. destruct A as [A1 A2].
  rewrite (IH M2 A2). f_equal.
  apply Bool.negb_true_iff in A1. rewrite A1 in M1. symmetry in M1.
  unfold tagged in A1, M1. apply Bool.negb_false_iff, String.eqb_eq in A1, M1.
  rewrite <- H, M1, <- A1. apply with_luck_tag_same.
Qed.

(** The run of the example race from the example state of the
    interpreter-wide generator. *)
Definition run_example : list EntryResult * Random.t :=
  Eval vm_compute in
    match simulate_race rng_example race_example global_example with
    | Ok p => p
    | Raise _ => ([], global_example)
    end.

(** X8. The part the interpreter-wide generator plays in a race.  A run
    that returns consumes one draw of that generator for every output record
    whose tag is not the neutral one, and none otherwise.  Started from any
    other state of the generator the race also returns, with records that
    differ from the first run's in their luck tags at most and are tagged at
    the same places; when every tag of the first run is the neutral one the
    two runs return the same records. *)
Theorem simulate_race_generator (rng : string -> string -> Random.t) (race : Race)
        (g1 g2 : Random.t) (res1 : list EntryResult) (g1' : Random.t) :
  simulate_race rng race g1 = Ok (res1, g1') ->
  Random.tape g1' = Random.tape g1
  /\ Random.cursor g1' = (Random.cursor g1 + length (filter tagged res1))%nat
  /\ exists res2 g2',
       simulate_race rng race g2 = Ok (res2, g2')
       /\ Forall2 (fun r1 r2 => with_luck_tag (luck_tag r2) r1 = r2) res1 res2
       /\ map tagged res1 = map tagged res2
       /\ (forallb (fun r => negb (tagged r)) res1 = true -> res2 = res1).
Proof.
  unfold simulate_race. intro E.
  destruct (sorted_raw rng race) as [raws|e]; [|discriminate]. cbn [bind] in E |- *.
  destruct (@build_results_generator _ _ _ _ _ _ E) as [M [Tp Cu]].
  split; [exact Tp|]. split; [exact Cu|].
  destruct (@build_results_any_generator _ _ _ _ g2 _ _ E) as [res2 [g2' [E2 F]]].
  exists res2, g2'. split; [exact E2|]. split; [exact F|].
  destruct (@build_results_generator _ _ _ _ _ _ E2) as [M2 _].
  assert (MM : map tagged res1 = map tagged res2) by (rewrite M, M2; reflexivity).
  split; [exact MM|]. exact (untagged_same F MM).
Qed.

Lemma simulate_race_generator_witness :
  Random.tape (snd run_example) = Random.tape global_example
  /\ Random.cursor (snd run_example)
     = (Random.cursor global_example + length (filter tagged (fst run_example)))%nat
  /\ exists res2 g2',
       simulate_race rng_example race_example (Random.mk (fun _ => 3%N) 7) = Ok (res2, g2')
       /\ Forall2 (fun r1 r2 => with_luck_tag (luck_tag r2) r1 = r2) (fst run_example) res2
       /\ map tagged (fst run_example) = map tagged res2
       /\ (forallb (fun r => negb (tagged r)) (fst run_example) = true
           -> res2 = fst run_example).
Proof.
  apply (@simulate_race_generator rng_example race_example global_example
           (Random.mk (fun _ => 3%N) 7) (fst run_example) (snd run_example)).
  vm_compute. reflexivity.
Defined.

(** ** The shape of the tick stream *)

Section StreamShape.
Variable profile : list Q.
Variable n_tiles : Z.
Variable total : Q.
Variable su : Setup.

Lemma car_step_appends (tick_num : Z) (st : CarState) (cars_data : list CarTick)
      (all_done : bool) (r : EntryResult) :
  exists st' ct all_done',
    car_step profile n_tiles total su tick_num (st, cars_data, all_done) r
    = (st', cars_data ++ [ct], all_done')
    /\ car_id ct = player_id r /\ ct_username ct = username r.
Proof.
  unfold car_step. destruct (car_finished st (player_id r)).
  - do 3 eexists. split; [reflexivity|]. split; reflexivity.
  - destruct (at_stop_point total su st r).
    + do 3 eexists. split; [reflexivity|]. split; reflexivity.
    + do 3 eexists. split; [reflexivity|]. split; reflexivity.
Qed.

Lemma run_tick_cars (tick_num : Z) (rs : list EntryResult) :
  forall st cars_data all_done,
  exists st' new all_done',
    fold_left (car_step profile n_tiles total su tick_num) rs (st, cars_data, all_done)
    = (st', cars_data ++ new, all_done')
    /\ map car_id new = map player_id rs
    /\ map ct_username new = map username rs.
Proof.
  induction rs as [|r rs IH]; intros st cars_data all_done.
  - exists st, [], all_done. rewrite app_nil_r. repeat split.
  - destruct (car_step_appends tick_num st cars_data all_done r)
      as [st1 [ct [d1 [E1 [Id Un]]]]].
    destruct (IH st1 (cars_data ++ [ct]) d1) as [st' [new [d' [E' [Ids Uns]]]]].
    exists st', (ct :: new), d'. cbn [fold_left]. rewrite E1, E'.
    rewrite <- app_assoc. cbn [app map]. rewrite Id, Un, Ids, Uns. repeat split.
Qed.

(** What every snapshot of a stream over [rs] looks like. *)
Definition snapshot_of (rs : list EntryResult) (lap_count : Z) (t : Tick) : Prop :=
  tick_lap_count t = lap_count
  /\ map car_id (cars t) = map player_id rs
  /\ map ct_username (cars t) = map username rs.

Lemma tick_loop_shape (rs : list EntryResult) (lap_count : Z) (fuel : nat) :
  forall tick_num st,
    let ticks := tick_loop profile n_tiles total su fuel rs lap_count tick_num st in
    map tick ticks = positions_from (tick_num + 1) (length ticks)
    /\ Forall (snapshot_of rs lap_count) ticks
    /\ (fuel <> 0%nat -> ticks <> []).
Proof.
  induction fuel as [|fuel IH]; intros tick_num st.
  - cbn. split; [reflexivity|]. split; [constructor|]. intro H. destruct H. reflexivity.
  - cbn zeta. cbn [tick_loop]. unfold run_tick.
    destruct (run_tick_cars (tick_num + 1) rs st [] true) as [st' [new [d' [E [Ids Uns]]]]].
    rewrite E. cbn [app].
    assert (S0 : snapshot_of rs lap_count (mkTick (tick_num + 1) lap_count new))
      by (split; [reflexivity|]; split; assumption).
    destruct (d' || grace_elapsed st' (tick_num + 1)).
    + split; [cbn; f_equal; lia|]. split; [constructor; [exact S0|constructor]|].
      intros _. discriminate.
    + destruct (IH (tick_num + 1)%Z st') as [M [F _]]. cbn zeta in M, F.
      split.
      * cbn [map length tick]. rewrite positions_from_S, M. reflexivity.
      * split; [constructor; [exact S0 | exact F]|]. intros _. discriminate.
Qed.

End StreamShape.

(** X9. The shape of the tick stream.  Without results nothing is yielded;
    with results and a lap count of zero the first tick raises
    ZeroDivisionError before anything is yielded; with results and any other
    lap count the stream is non-empty and at most 200000 snapshots long, its
    snapshots are numbered 1, 2, 3, ... without gaps, and every snapshot
    carries the lap count and one car record per result, in the order of the
    results, with that result's player id and username. *)
Theorem tick_stream_shape (sqrt : Q -> Q) (hash_rng : string -> Random.t)
        (rs : list EntryResult) (lap_count : Z) (track : option TrackData) :
  (rs = [] -> generate_tick_stream sqrt hash_rng rs lap_count track = Ok [])
  /\ (rs <> [] -> lap_count = 0%Z ->
      generate_tick_stream sqrt hash_rng rs lap_count track = Raise ZeroDivisionError)
  /\ (rs <> [] -> lap_count <> 0%Z ->
      exists ticks,
        generate_tick_stream sqrt hash_rng rs lap_count track = Ok ticks
        /\ ticks <> []
        /\ (length ticks <= Z.to_nat max_ticks)%nat
        /\ map tick ticks = positions_from 1 (length ticks)
        /\ Forall (snapshot_of rs lap_count) ticks).
Proof.
  split; [intros ->; reflexivity|].
  unfold generate_tick_stream.
  destruct rs as [|r0 rs']; split; intro N; try (destruct N; reflexivity).
  - intros ->.
    destruct (match track with
              | Some t => match path_order t with
                          | [] => ([TOP_SPEED_FPS], 1%Z)
                          | _ :: _ => (build_speed_profile sqrt t, Z.of_nat (length (path_order t)))
                          end
              | None => ([TOP_SPEED_FPS], 1%Z)
              end) as [profile n_tiles].
    assert (E : Qeq_bool (TILE_FEET * inject_Z n_tiles * inject_Z 0) 0 = true).
    { apply Qeq_bool_iff. change (inject_Z 0) with 0. ring. }
    rewrite E. reflexivity.
  - intro L.
    set (pn := match track with
              | Some t => match path_order t with
                          | [] => ([TOP_SPEED_FPS], 1%Z)
                          | _ :: _ => (build_speed_profile sqrt t, Z.of_nat (length (path_order t)))
                          end
              | None => ([TOP_SPEED_FPS], 1%Z)
              end).
    assert (P : (0 < snd pn)%Z).
    { unfold pn. destruct track as [t|]; [|reflexivity].
      destruct (path_order t); [reflexivity|]. cbn [snd length]. lia. }
    destruct pn as [profile n_tiles]. cbn [snd] in P.
    assert (E : Qeq_bool (TILE_FEET * inject_Z n_tiles * inject_Z lap_count) 0 = false).
    { destruct (Qeq_bool _ 0) eqn:B; [|reflexivity]. exfalso.
      apply Qeq_bool_iff in B.
      assert (T : 0 < TILE_FEET) by reflexivity.
      assert (Hn : 0 < inject_Z n_tiles)
        by (change 0 with (inject_Z 0); rewrite <- Zlt_Qlt; exact P).
      assert (Hl : ~ inject_Z lap_count == 0).
      { change 0 with (inject_Z 0). rewrite inject_Z_injective. exact L. }
      apply Qmult_integral in B. destruct B as [B|B]; [|exact (Hl B)].
      apply Qmult_integral in B. destruct B as [B|B]; lra. }
    rewrite E. eexists. split; [reflexivity|].
    destruct (tick_loop_shape profile n_tiles
                (TILE_FEET * inject_Z n_tiles * inject_Z lap_count)
                (init_setup hash_rng (r0 :: rs')) (r0 :: rs') lap_count
                (Z.to_nat max_ticks) 0%Z init_state) as [M [F Ne]].
    cbn zeta in M, F, Ne.
    split; [apply Ne; discriminate|]. split; [apply tick_loop_length|].
    split; [exact M | exact F].
Qed.

Lemma tick_stream_shape_witness :
  generate_tick_stream sqrt_example hash_example [] 25 None = Ok []
  /\ generate_tick_stream sqrt_example hash_example (fst run_example) 0 None
     = Raise ZeroDivisionError
  /\ exists ticks,
       generate_tick_stream sqrt_example hash_example (fst run_example) 25 None = Ok ticks
       /\ ticks <> []
       /\ (length ticks <= Z.to_nat max_ticks)%nat
       /\ map tick ticks = positions_from 1 (length ticks)
       /\ Forall (snapshot_of (fst run_example) 25) ticks.
Proof.
  split; [|split].
  - apply (proj1 (tick_stream_shape sqrt_example hash_example [] 25 None)). reflexivity.
  - apply (proj1 (proj2 (tick_stream_shape sqrt_example hash_example
                           (fst run_example) 0 None))); [discriminate | reflexivity].
  - apply (proj2 (proj2 (tick_stream_shape sqrt_example hash_example
                           (fst run_example) 25 None))); discriminate.
Defined.

(** ** Wear over a series of races *)

(** The car after the races of [event_types], run in order without a
    repair in between: [car = apply_wear(car, event_type)] once per race. *)
Definition wear_races (car : CarSlots) (event_types : list string) : Result CarSlots :=
  foldM apply_wear event_types car.

Lemma worn_readiness_step (r w : Q) :
  12 <= w ->
  round_nd 1 (Qmax 0 (r - w)) == 0
  \/ round_nd 1 (Qmax 0 (r - w)) <= r - (1195 # 100).
Proof.
  intro Hw. destruct (Qmax_cases 0 (r - w)) as [[L E]|[L E]].
  - left. rewrite (round_nd_comp 1 E). apply round_nd_0.
  - right. destruct (round_nd_err 1 (Qmax 0 (r - w))) as [_ U].
    assert (P : (1 # 2) / inject_Z (10 ^ Z.of_nat 1) == 1 # 20) by reflexivity.
    lra.
Qed.

Lemma get_slot_mk (f : Slot -> SlotPart) (s : Slot) :
  get_slot (mkCarSlots (f engine) (f tires) (f suspension) (f aero) (f fuel)
                       (f electronics)) s = f s.
Proof. destruct s; reflexivity. Qed.

Lemma wear_races_bound (event_types : list string) :
  forall (car : CarSlots) (b : Q),
    valid_car car ->
    (forall s, readiness (get_slot car s) == 0 \/ readiness (get_slot car s) <= b) ->
    exists car',
      wear_races car event_types = Ok car'
      /\ valid_car car'
      /\ (forall s, tier (get_slot car' s) = tier (get_slot car s))
      /\ (forall s, readiness (get_slot car' s) <= readiness (get_slot car s))
      /\ forall s, readiness (get_slot car' s) == 0
                   \/ readiness (get_slot car' s)
                      <= b - (1195 # 100) * inject_Z (Z.of_nat (length event_types)).
Proof.
  induction event_types as [|ev evs IH]; intros car b V B.
  - exists car. split; [reflexivity|]. split; [exact V|]. split; [reflexivity|].
    split; [intro s; apply Qle_refl|].
    intro s. destruct (B s) as [Z0|Le]; [left; exact Z0|right].
    cbn [length]. change (inject_Z (Z.of_nat 0)) with 0. lra.
  - unfold wear_races. cbn [foldM]. rewrite (apply_wear_ok ev V). cbn [bind].
    set (car1 := mkCarSlots (worn_part car ev engine) (worn_part car ev tires)
                   (worn_part car ev suspension) (worn_part car ev aero)
                   (worn_part car ev fuel) (worn_part car ev electronics)).
    assert (G : forall s, get_slot car1 s = worn_part car ev s)
      by (intro s; apply (get_slot_mk (worn_part car ev))).
    assert (V1 : valid_car car1).
    { intro s. unfold valid_part. rewrite G. cbn [worn_part readiness].
      destruct (V s) as [V0 V100].
      destruct (worn_readiness_bounds V0 (wear_of_lower ev s)) as [B0 B1].
      split; lra. }
    assert (D1 : forall s, readiness (get_slot car1 s) <= readiness (get_slot car s)).
    { intro s. rewrite G. cbn [worn_part readiness].
      destruct (V s) as [V0 _].
      exact (proj2 (worn_readiness_bounds V0 (wear_of_lower ev s))). }
    assert (B1 : forall s, readiness (get_slot car1 s) == 0
                           \/ readiness (get_slot car1 s) <= b - (1195 # 100)).
    { intro s. rewrite G. cbn [worn_part readiness].
      destruct (worn_readiness_step (readiness (get_slot car s)) (wear_of_lower ev s))
        as [Z0|St]; [left; exact Z0|].
      destruct (B s) as [Z0|Le]; [|right; lra].
      left. destruct (V1 s) as [P0 _]. rewrite G in P0. cbn [worn_part readiness] in P0.
      lra. }
    destruct (IH car1 (b - (1195 # 100)) V1 B1) as [car' [E [V' [T' [D' B']]]]].
    exists car'. split; [exact E|]. split; [exact V'|]. split.
    { intro s. rewrite T', G. reflexivity. }
    split.
    { intro s. eapply Qle_trans; [apply D' | apply D1]. }
    intro s. destruct (B' s) as [Z0|Le]; [left; exact Z0|right].
    cbn [length]. rewrite Nat2Z.inj_succ. unfold Z.succ. rewrite inject_Z_plus.
    change (inject_Z 1) with 1. lra.
Qed.

(** X10. Wear without repair.  For a car whose readiness values are all in
    [0,100] and any series of races, whatever their event types (listed or
    not), applying the wear of each race in turn always returns a car, with
    the tiers unchanged and no readiness above what it was; after nine or
    more races every slot's readiness is exactly 0. *)
Theorem wear_races_wears_out (car : CarSlots) (event_types : list string) :
  valid_car car ->
  exists car',
    wear_races car event_types = Ok car'
    /\ valid_car car'
    /\ (forall s, tier (get_slot car' s) = tier (get_slot car s))
    /\ (forall s, readiness (get_slot car' s) <= readiness (get_slot car s))
    /\ ((9 <= length event_types)%nat -> forall s, readiness (get_slot car' s) == 0).
Proof.
  intro V.
  destruct (@wear_races_bound event_types car 100 V) as [car' [E [V' [T [D B]]]]].
  { intro s. right. exact (proj2 (V s)). }
  exists car'. split; [exact E|]. split; [exact V'|]. split; [exact T|].
  split; [exact D|].
  intros L s. destruct (B s) as [Z0|Le]; [exact Z0|].
  destruct (V' s) as [P0 _].
  assert (N : 9 <= inject_Z (Z.of_nat (length event_types))).
  { change 9 with (inject_Z 9). rewrite <- Zle_Qle. lia. }
  lra.
Qed.

Lemma wear_races_wears_out_witness :
  exists car',
    wear_races car_example
      ["sprint"; "time_trial"; "time_trial"; "drag_race"; "time_trial";
       "time_trial"; "time_trial"; "time_trial"; "time_trial"]%string = Ok car'
    /\ valid_car car'
    /\ (forall s, tier (get_slot car' s) = tier (get_slot car_example s))
    /\ (forall s, readiness (get_slot car' s) <= readiness (get_slot car_example s))
    /\ ((9 <= 9)%nat -> forall s, readiness (get_slot car' s) == 0).
Proof.
  exact (@wear_races_wears_out car_example
           ["sprint"; "time_trial"; "time_trial"; "drag_race"; "time_trial";
            "time_trial"; "time_trial"; "time_trial"; "time_trial"]%string
           car_example_valid).
Defined.

(** ** Wear of an arbitrary car *)

(** The readiness [apply_wear] computes for one slot. *)
Definition worn_readiness (car : CarSlots) (event_type : string) (s : Slot) : Q :=
  round_nd 1 (Qmax 0 (readiness (get_slot car s) - wear_of event_type s)).

Lemma worn_readiness_nonneg (car : CarSlots) (event_type : string) (s : Slot) :
  0 <= worn_readiness car event_type s.
Proof.
  unfold worn_readiness. pose proof (round_nd_0 1) as Z0.
  pose proof (@round_nd_mono 1 0 (Qmax 0 (readiness (get_slot car s) - wear_of event_type s))
                (Q.le_max_l _ _)) as M.
  lra.
Qed.

Lemma SlotPart_new_worn (car : CarSlots) (event_type : string) (s : Slot) :
  SlotPart_new (tier (get_slot car s)) (worn_readiness car event_type s)
  = if Qle_bool (worn_readiness car event_type s) 100
    then Ok (worn_part car event_type s)
    else Raise ValidationError.
Proof.
  unfold SlotPart_new.
  assert (E : Qle_bool 0 (worn_readiness car event_type s) = true)
    by (apply Qle_bool_iff, worn_readiness_nonneg).
  rewrite E. reflexivity.
Qed.

Lemma apply_wear_unfold (car : CarSlots) (event_type : string) :
  apply_wear car event_type
  = if forallb (fun s => Qle_bool (worn_readiness car event_type s) 100) SLOT_NAMES
    then Ok (mkCarSlots (worn_part car event_type engine) (worn_part car event_type tires)
               (worn_part car event_type suspension) (worn_part car event_type aero)
               (worn_part car event_type fuel) (worn_part car event_type electronics))
    else Raise ValidationError.
Proof.
  unfold apply_wear, SLOT_NAMES. cbn [foldM forallb].
  fold (worn_readiness car event_type engine). rewrite SlotPart_new_worn.
  destruct (Qle_bool (worn_readiness car event_type engine) 100); [|reflexivity].
  cbn [bind foldM andb].
  fold (worn_readiness car event_type tires). rewrite SlotPart_new_worn.
  destruct (Qle_bool (worn_readiness car event_type tires) 100); [|reflexivity].
  cbn [bind foldM andb].
  fold (worn_readiness car event_type suspension). rewrite SlotPart_new_worn.
  destruct (Qle_bool (worn_readiness car event_type suspension) 100); [|reflexivity].
  cbn [bind foldM andb].
  fold (worn_readiness car event_type aero). rewrite SlotPart_new_worn.
  destruct (Qle_bool (worn_readiness car event_type aero) 100); [|reflexivity].
  cbn [bind foldM andb].
  fold (worn_readiness car event_type fuel). rewrite SlotPart_new_worn.
  destruct (Qle_bool (worn_readiness car event_type fuel) 100); [|reflexivity].
  cbn [bind foldM andb].
  fold (worn_readiness car event_type electronics). rewrite SlotPart_new_worn.
  destruct (Qle_bool (worn_readiness car event_type electronics) 100); reflexivity.
Qed.

(** X11. [apply_wear] on any car, also one whose readiness values lie
    outside [0,100].  It returns exactly when no slot's worn readiness
    exceeds 100, and raises the model's validation error otherwise; a
    readiness at or below 100 (a negative one included) never makes it
    raise; and whatever it returns is a car with every readiness in
    [0,100]. *)
Theorem apply_wear_validation (car : CarSlots) (event_type : string) :
  ((forall s, worn_readiness car event_type s <= 100) ->
   exists car', apply_wear car event_type = Ok car'
                /\ forall s, readiness (get_slot car' s) = worn_readiness car event_type s)
  /\ ((exists s, 100 < worn_readiness car event_type s) ->
      apply_wear car event_type = Raise ValidationError)
  /\ ((forall s, readiness (get_slot car s) <= 100) ->
      exists car', apply_wear car event_type = Ok car')
  /\ (forall car', apply_wear car event_type = Ok car' -> valid_car car').
Proof.
  rewrite apply_wear_unfold.
  destruct (forallb _ SLOT_NAMES) eqn:F.
  - assert (A : forall s, worn_readiness car event_type s <= 100).
    { intro s. apply Qle_bool_iff.
      rewrite forallb_forall in F. apply F. destruct s; cbn; tauto. }
    split.
    { intros _. eexists. split; [reflexivity|].
      intro s. rewrite (get_slot_mk (worn_part car event_type)). reflexivity. }
    split.
    { intros [s H]. specialize (A s). lra. }
    split; [intros _; eexists; reflexivity|].
    intros car' E. injection E as <-. intro s. unfold valid_part.
    rewrite (get_slot_mk (worn_part car event_type)). cbn [worn_part readiness].
    split; [apply worn_readiness_nonneg | apply A].
  - assert (A : exists s, 100 < worn_readiness car event_type s).
    { destruct (forallb_forall (fun s => Qle_bool (worn_readiness car event_type s) 100)
                  SLOT_NAMES) as [_ B].
      destruct (Qlt_le_dec 100 (worn_readiness car event_type engine)); [eexists; eassumption|].
      destruct (Qlt_le_dec 100 (worn_readiness car event_type tires)); [eexists; eassumption|].
      destruct (Qlt_le_dec 100 (worn_readiness car event_type suspension));
        [eexists; eassumption|].
      destruct (Qlt_le_dec 100 (worn_readiness car event_type aero)); [eexists; eassumption|].
      destruct (Qlt_le_dec 100 (worn_readiness car event_type fuel)); [eexists; eassumption|].
      destruct (Qlt_le_dec 100 (worn_readiness car event_type electronics));
        [eexists; eassumption|].
      exfalso. rewrite B in F; [discriminate|].
      intros s _. apply Qle_bool_iff. destruct s; assumption. }
    destruct A as [s0 H0].
    split; [intro A; specialize (A s0); lra|].
    split; [intros _; reflexivity|].
    split; [|intros car' E; discriminate].
    intro A. exfalso.
    assert (W : worn_readiness car event_type s0 <= 100); [|lra].
    unfold worn_readiness.
    pose proof (wear_of_lower event_type s0) as Wl. specialize (A s0).
    assert (M : Qmax 0 (readiness (get_slot car s0) - wear_of event_type s0) <= 100)
      by (destruct (Qmax_cases 0 (readiness (get_slot car s0) - wear_of event_type s0))
           as [[L E]|[L E]]; lra).
    pose proof (round_nd_mono 1 M) as R. pose proof (round_nd_inject 1 100) as I.
    change (inject_Z 100) with 100 in I. lra.
Qed.

Lemma apply_wear_validation_witness :
  (exists car', apply_wear car_example "sprint" = Ok car'
                /\ forall s, readiness (get_slot car' s) = worn_readiness car_example "sprint" s)
  /\ apply_wear (mkCarSlots (mkSlotPart standard 150) (mkSlotPart standard 100)
                            (mkSlotPart standard 100) (mkSlotPart standard 100)
                            (mkSlotPart standard 100) (mkSlotPart standard 100)) "sprint"
     = Raise ValidationError
  /\ exists car',
       apply_wear (mkCarSlots (mkSlotPart standard (- (30))) (mkSlotPart standard 100)
                              (mkSlotPart standard 100) (mkSlotPart standard 100)
                              (mkSlotPart standard 100) (mkSlotPart standard 100)) "sprint"
       = Ok car' /\ valid_car car'.
Proof.
  split; [|split].
  - apply (proj1 (apply_wear_validation car_example "sprint")).
    intros []; vm_compute; discriminate.
  - apply (proj1 (proj2 (apply_wear_validation _ "sprint"))).
    exists engine. vm_compute. reflexivity.
  - destruct (proj1 (proj2 (proj2 (apply_wear_validation
                (mkCarSlots (mkSlotPart standard (- (30))) (mkSlotPart standard 100)
                            (mkSlotPart standard 100) (mkSlotPart standard 100)
                            (mkSlotPart standard 100) (mkSlotPart standard 100)) "sprint"))))
      as [car' E].
    + intros []; vm_compute; discriminate.
    + exists car'. split; [exact E|].
      exact (proj2 (proj2 (proj2 (apply_wear_validation _ "sprint"))) car' E).
Defined.

(** ** Track generation on small grids *)

Local Open Scope Z_scope.

Lemma candidates_of_empty_grid (n : Z) (visited : list Cell) (current : Cell) :
  n <= 0 -> candidates_of n visited current = [].
Proof.
  intro Hn. unfold candidates_of.
  assert (G : forall c, in_grid n c = false).
  { intro c. unfold in_grid.
    destruct (0 <=? fst c) eqn:A; [|reflexivity].
    destruct (fst c <? n) eqn:B; [|reflexivity]. lia. }
  induction (map (step current) DIRS) as [|c l IH]; [reflexivity|].
  cbn [filter]. rewrite G. exact IH.
Qed.

Lemma walk_loop_short (fuel : nat) (n min_steps : Z) :
  forall visited path current rng,
    Z.of_nat (length path) + Z.of_nat fuel <= min_steps ->
    fst (walk_loop fuel n min_steps visited path current rng) = None.
Proof.
  induction fuel as [|fuel IH]; intros visited path current rng H; [reflexivity|].
  cbn [walk_loop].
  assert (E : (min_steps <=? Z.of_nat (length path)) = false) by lia.
  rewrite E. cbn [andb].
  destruct (candidates_of n visited current) as [|c0 cs]; [reflexivity|].
  destruct (Random.choice rng c0 (c0 :: cs)) as [nxt rng'].
  apply IH. rewrite length_app. cbn [length]. lia.
Qed.

Lemma walk_loop_empty_grid (fuel : nat) (n min_steps : Z) (rng : Random.t) :
  n <= 0 -> 1 < min_steps ->
  fst (walk_loop fuel n min_steps [start] [start] start rng) = None.
Proof.
  intros Hn Hm. destruct fuel as [|fuel]; [reflexivity|].
  cbn [walk_loop length].
  assert (E : (min_steps <=? Z.of_nat 1) = false) by (apply Z.leb_gt; cbn; lia).
  rewrite E. cbn [andb]. rewrite (candidates_of_empty_grid _ _ Hn). reflexivity.
Qed.

Lemma try_walk_small (n : Z) (rng : Random.t) :
  n <= 4 -> fst (_try_walk n rng) = None.
Proof.
  intro Hn. unfold _try_walk.
  destruct (Z_le_gt_dec n 0) as [L|L].
  - apply walk_loop_empty_grid; [exact L|]. unfold TRACK_MIN_STEPS. lia.
  - apply walk_loop_short. cbn [length]. unfold TRACK_MIN_STEPS.
    assert (n * n <= 16) by nia. lia.
Qed.

Lemma retry_loop_small (retries : nat) (n : Z) :
  n <= 4 -> forall rng, retry_loop retries n rng = _oval_fallback n.
Proof.
  intro Hn. induction retries as [|retries IH]; intro rng; [reflexivity|].
  cbn [retry_loop]. pose proof (try_walk_small rng Hn) as W.
  destruct (_try_walk n rng) as [[p|] rng']; [discriminate | apply IH].
Qed.

Lemma oval_path_tiny (n : Z) : n <= 2 -> oval_path n = [].
Proof.
  intro Hn. unfold oval_path, range, range_down.
  replace (Z.to_nat (n - 2 + 1 - 1)) with 0%nat by lia.
  replace (Z.to_nat (n - 2 + 1 - (1 + 1))) with 0%nat by lia.
  replace (Z.to_nat (n - 2 - 1 - (1 - 1))) with 0%nat by lia.
  replace (Z.to_nat (n - 2 - 1 - 1)) with 0%nat by lia.
  reflexivity.
Qed.

(** X12. Grids too small for the random walk.  For a grid size of at most
    4, whatever the generator, no walk attempt can reach the minimum loop
    length, so [generate_track] returns what the oval fallback returns: for
    a size of at most 2 (zero and negative sizes included) it raises
    IndexError, for size 3 it returns a track of the single tile (1,1),
    typed as a vertical straight, and for size 4 the four curve tiles around
    the centre. *)
Theorem generate_track_small (n : Z) (rng : Random.t) :
  n <= 4 ->
  generate_track n rng = _oval_fallback n
  /\ (n <= 2 -> generate_track n rng = Raise IndexError)
  /\ (n = 3 ->
      generate_track n rng
      = Ok (mkTrack 3 3 [mkTile 1 1 straight "vertical"] [(1, 1)]))
  /\ (n = 4 ->
      generate_track n rng
      = Ok (mkTrack 4 4
              [mkTile 1 1 curve "NE"; mkTile 2 1 curve "SE";
               mkTile 2 2 curve "SW"; mkTile 1 2 curve "NW"]
              [(1, 1); (2, 1); (2, 2); (1, 2)])).
Proof.
  intro Hn.
  assert (E : generate_track n rng = _oval_fallback n)
    by (apply retry_loop_small, Hn).
  split; [exact E|]. rewrite E. split; [|split].
  - intro H. unfold _oval_fallback. rewrite (oval_path_tiny H). reflexivity.
  - intros ->. reflexivity.
  - intros ->. reflexivity.
Qed.

Lemma generate_track_small_witness :
  generate_track 2 global_example = Raise IndexError
  /\ generate_track (-7) global_example = Raise IndexError
  /\ generate_track 3 global_example
     = Ok (mkTrack 3 3 [mkTile 1 1 straight "vertical"] [(1, 1)]).
Proof.
  split; [|split].
  - apply (proj1 (proj2 (@generate_track_small 2 global_example ltac:(lia)))). lia.
  - apply (proj1 (proj2 (@generate_track_small (-7) global_example ltac:(lia)))). lia.
  - apply (proj1 (proj2 (proj2 (@generate_track_small 3 global_example ltac:(lia))))).
    reflexivity.
Defined.

Local Open Scope Q_scope.

(** ** Tiles, path and grid of a generated track *)

Local Open Scope Z_scope.

(** The grid cell a tile sits on. *)
Definition tile_cell (t : TileData) : Cell := (tile_x t, tile_y t).

(** [0 <= x < n and 0 <= y < n] *)
Definition inside (n : Z) (c : Cell) : Prop := 0 <= fst c < n /\ 0 <= snd c < n.

Lemma in_grid_inside (n : Z) (c : Cell) : in_grid n c = true <-> inside n c.
Proof. unfold in_grid, inside. rewrite !andb_true_iff. lia. Qed.

Lemma mapM_map (A B C : Type) (f : A -> Result B) (g : B -> C) (h : A -> C) (l : list A) :
  (forall a b, f a = Ok b -> g b = h a) ->
  forall bs, mapM f l = Ok bs -> map g bs = map h l.
Proof.
  intro H. induction l as [|a l IH]; intros bs E; cbn [mapM] in E.
  - injection E as <-. reflexivity.
  - destruct (f a) as [b|] eqn:Eb; [|discriminate]. cbn [bind] in E.
    destruct (mapM f l) as [bs'|]; [|discriminate]. cbn [bind] in E.
    injection E as <-. cbn [map]. rewrite (H _ _ Eb), (IH bs' eq_refl). reflexivity.
Qed.

Lemma map_snd_enumerate (A : Type) (l : list A) : map snd (enumerate l) = l.
Proof.
  unfold enumerate. generalize 0%nat.
  induction l as [|a l IH]; intro k; [reflexivity|].
  cbn [length seq combine map snd]. rewrite IH. reflexivity.
Qed.

Lemma build_track_data_shape (path : list Cell) (n : Z) (t : TrackData) :
  _build_track_data path n = Ok t ->
  grid_width t = n /\ grid_height t = n
  /\ path_order t = removelast path
  /\ map tile_cell (tiles t) = removelast path.
Proof.
  unfold _build_track_data.
  destruct (mapM _ _) as [ts|] eqn:E; [|discriminate]. cbn [bind].
  intro H. injection H as <-. cbn [grid_width grid_height path_order tiles].
  repeat split.
  rewrite <- (map_snd_enumerate (removelast path)) at 1.
  refine (@mapM_map _ _ _ _ tile_cell snd _ _ ts E).
  intros [i c] tile. unfold tile_at. cbn [fst snd].
  destruct (_tile_type_orientation _ _) as [ty|]; [|discriminate].
  cbn [bind]. intro H. injection H as <-. unfold tile_cell. cbn [tile_x tile_y].
  destruct c; reflexivity.
Qed.

Lemma candidates_inside (n : Z) (visited : list Cell) (current c : Cell) :
  In c (candidates_of n visited current) -> inside n c.
Proof.
  unfold candidates_of. intro H. apply filter_In in H. destruct H as [_ H].
  apply andb_true_iff in H. apply in_grid_inside, H.
Qed.

Lemma walk_loop_cells (fuel : nat) (n min_steps : Z) :
  forall visited path current rng p rng',
    Forall (inside n) path ->
    walk_loop fuel n min_steps visited path current rng = (Some p, rng') ->
    exists ext, p = (path ++ ext) ++ [start] /\ Forall (inside n) (path ++ ext).
Proof.
  induction fuel as [|fuel IH]; intros visited path current rng p rng' F E;
    cbn [walk_loop] in E; [discriminate|].
  destruct ((min_steps <=? Z.of_nat (length path))
            && existsb (fun d => cell_eqb (step current d) start) DIRS).
  - injection E as <- <-. exists []. rewrite app_nil_r. split; [reflexivity | exact F].
  - destruct (candidates_of n visited current) as [|c0 cs] eqn:Cs; [discriminate|].
    pose proof (@choice_In _ rng c0 (c0 :: cs) ltac:(discriminate)) as Hin.
    destruct (Random.choice rng c0 (c0 :: cs)) as [nxt rng1]. cbn [fst] in Hin.
    rewrite <- Cs in Hin. apply candidates_inside in Hin.
    destruct (IH _ _ _ _ _ _ (proj2 (Forall_app _ _ _) (conj F (Forall_cons _ Hin (Forall_nil _)))) E)
      as [ext [-> F']].
    exists (nxt :: ext). rewrite <- !app_assoc in *. cbn [app] in *.
    split; [reflexivity | exact F'].
Qed.

Lemma in_range (a b x : Z) : In x (range a b) -> a <= x < b.
Proof.
  unfold range. intro H. apply in_map_iff in H. destruct H as [k [<- H]].
  apply in_seq in H. lia.
Qed.

Lemma in_range_down (a b x : Z) : In x (range_down a b) -> b < x <= a.
Proof.
  unfold range_down. intro H. apply in_map_iff in H. destruct H as [k [<- H]].
  apply in_seq in H. lia.
Qed.

Lemma oval_path_inner (n : Z) (c : Cell) :
  In c (oval_path n) -> 1 <= fst c <= n - 2 /\ 1 <= snd c <= n - 2.
Proof.
  unfold oval_path. intro H.
  repeat (apply in_app_or in H; destruct H as [H|H]);
    apply in_map_iff in H; destruct H as [k [<- H]]; cbn [fst snd];
    first [apply in_range in H | apply in_range_down in H]; lia.
Qed.

(** What a returned track looks like, whichever way it was built. *)
Definition track_shape (n : Z) (t : TrackData) : Prop :=
  grid_width t = n /\ grid_height t = n
  /\ map tile_cell (tiles t) = path_order t
  /\ Forall (inside n) (path_order t)
  /\ (hd_error (path_order t) = Some start
      \/ (path_order t = oval_path n
          /\ Forall (fun c => 1 <= fst c <= n - 2 /\ 1 <= snd c <= n - 2) (path_order t))).

Lemma oval_fallback_shape (n : Z) (t : TrackData) :
  _oval_fallback n = Ok t -> track_shape n t.
Proof.
  unfold _oval_fallback. destruct (oval_path n) as [|p0 rest] eqn:E; [discriminate|].
  intro H. apply build_track_data_shape in H.
  destruct H as [W [Hh [P T]]]. rewrite removelast_last in P, T.
  assert (I : Forall (fun c => 1 <= fst c <= n - 2 /\ 1 <= snd c <= n - 2) (path_order t)).
  { rewrite P, <- E. apply Forall_forall. intros c Hc. apply oval_path_inner, Hc. }
  split; [exact W|]. split; [exact Hh|]. split; [rewrite T, P; reflexivity|].
  split.
  - eapply Forall_impl; [|exact I]. intros c Hc. cbv beta in Hc. unfold inside. lia.
  - right. split; [rewrite P, E; reflexivity | exact I].
Qed.

Lemma walk_nonempty_grid (fuel : nat) (n min_steps : Z) (rng rng' : Random.t)
      (p : list Cell) :
  1 < min_steps ->
  walk_loop fuel n min_steps [start] [start] start rng = (Some p, rng') -> 0 < n.
Proof.
  intros Hm E. destruct (Z_le_gt_dec n 0) as [L|L]; [|lia].
  destruct fuel as [|fuel]; [discriminate|]. cbn [walk_loop length] in E.
  assert (B : (min_steps <=? Z.of_nat 1) = false) by (apply Z.leb_gt; cbn; lia).
  rewrite B in E. cbn [andb] in E.
  rewrite (@candidates_of_empty_grid n [start] start L) in E. discriminate.
Qed.

Lemma try_walk_shape (n : Z) (rng rng' : Random.t) (p : list Cell) (t : TrackData) :
  _try_walk n rng = (Some p, rng') -> _build_track_data p n = Ok t -> track_shape n t.
Proof.
  unfold _try_walk. intros W B.
  assert (M : 1 < Z.max TRACK_MIN_STEPS (n * 2)) by (unfold TRACK_MIN_STEPS; lia).
  pose proof (@walk_nonempty_grid _ _ _ _ _ _ M W) as Hn.
  apply walk_loop_cells in W.
  - destruct W as [ext [-> F]]. apply build_track_data_shape in B.
    destruct B as [Wd [Hh [P T]]]. rewrite removelast_last in P, T.
    split; [exact Wd|]. split; [exact Hh|]. split; [rewrite T, P; reflexivity|].
    split; [rewrite P; exact F|]. left. rewrite P. reflexivity.
  - constructor; [|constructor]. unfold inside, start. cbn [fst snd]. lia.
Qed.

Lemma retry_loop_shape (retries : nat) (n : Z) :
  forall rng t, retry_loop retries n rng = Ok t -> track_shape n t.
Proof.
  induction retries as [|retries IH]; intros rng t; cbn [retry_loop].
  - apply oval_fallback_shape.
  - destruct (_try_walk n rng) as [[p|] rng'] eqn:W; [|apply IH].
    apply (@try_walk_shape _ _ _ _ _ W).
Qed.

(** X13. Every track [generate_track] returns, on whatever grid size and
    from whatever generator, has both grid dimensions equal to the size
    asked for, which is at least 3; its tiles sit, in order, exactly on the
    cells of its path; every cell of the path lies inside the grid; and the
    path either starts at the cell (0,0), for a random walk, or is the oval,
    which keeps a border of one cell free. *)
Theorem generate_track_shape (n : Z) (rng : Random.t) (t : TrackData) :
  generate_track n rng = Ok t ->
  3 <= n
  /\ grid_width t = n /\ grid_height t = n
  /\ map tile_cell (tiles t) = path_order t
  /\ Forall (inside n) (path_order t)
  /\ (hd_error (path_order t) = Some start
      \/ (path_order t = oval_path n
          /\ Forall (fun c => 1 <= fst c <= n - 2 /\ 1 <= snd c <= n - 2) (path_order t))).
Proof.
  intro E. split; [|exact (@retry_loop_shape _ _ _ _ E)].
  destruct (Z_le_gt_dec n 2) as [L|L]; [|lia].
  unfold generate_track in E. rewrite (@retry_loop_small _ n ltac:(lia)) in E.
  unfold _oval_fallback in E. rewrite (oval_path_tiny L) in E. discriminate.
Qed.

(** The track every generator gives on a grid of size 4. *)
Definition track_4_example : TrackData :=
  mkTrack 4 4
    [mkTile 1 1 curve "NE"; mkTile 2 1 curve "SE";
     mkTile 2 2 curve "SW"; mkTile 1 2 curve "NW"]
    [(1, 1); (2, 1); (2, 2); (1, 2)].

Lemma generate_track_shape_witness :
  3 <= 4
  /\ grid_width track_4_example = 4 /\ grid_height track_4_example = 4
  /\ map tile_cell (tiles track_4_example) = path_order track_4_example
  /\ Forall (inside 4) (path_order track_4_example)
  /\ (hd_error (path_order track_4_example) = Some start
      \/ (path_order track_4_example = oval_path 4
          /\ Forall (fun c => 1 <= fst c <= 4 - 2 /\ 1 <= snd c <= 4 - 2)
                    (path_order track_4_example))).
Proof.
  assert (E : generate_track 4 global_example = Ok track_4_example)
    by (vm_compute; reflexivity).
  exact (@generate_track_shape 4 global_example track_4_example E).
Defined.

Local Open Scope Q_scope.

(** ** The speed profile of a generated track *)

Lemma tile_types_notin (ts : list TileData) :
  forall (d : Dict.t Cell TileType) (pos : Cell),
    ~ In pos (map tile_cell ts) ->
    Dict.get cell_eqb
      (fold_left (fun d t => Dict.set cell_eqb d (tile_x t, tile_y t) (tile_type t)) ts d) pos
    = Dict.get cell_eqb d pos.
Proof.
  induction ts as [|t0 ts IH]; intros d pos H; [reflexivity|].
  cbn [fold_left]. rewrite IH by (intro Hin; apply H; right; exact Hin).
  rewrite (@Dict_get_set _ _ cell_eqb cell_eqb_eq).
  destruct (cell_eqb (tile_x t0, tile_y t0) pos) eqn:E; [|reflexivity].
  apply cell_eqb_eq in E. exfalso. apply H. left. exact E.
Qed.

Lemma tile_types_in (ts : list TileData) :
  forall (d : Dict.t Cell TileType) (t : TileData),
    NoDup (map tile_cell ts) -> In t ts ->
    Dict.get cell_eqb
      (fold_left (fun d t => Dict.set cell_eqb d (tile_x t, tile_y t) (tile_type t)) ts d)
      (tile_cell t)
    = Some (tile_type t).
Proof.
  induction ts as [|t0 ts IH]; intros d t Nd Hin; [destruct Hin|].
  cbn [map] in Nd. apply NoDup_cons_iff in Nd. destruct Nd as [Ni Nd].
  cbn [fold_left]. destruct Hin as [<-|Hin].
  - rewrite tile_types_notin by exact Ni.
    rewrite (@Dict_get_set _ _ cell_eqb cell_eqb_eq).
    assert (E : cell_eqb (tile_x t0, tile_y t0) (tile_cell t0) = true)
      by (apply cell_eqb_eq; reflexivity).
    rewrite E. reflexivity.
  - apply IH; assumption.
Qed.

Lemma raw_speeds_own_tile (t : TrackData) :
  map tile_cell (tiles t) = path_order t -> NoDup (path_order t) ->
  raw_speeds t = map (fun tile => raw_target (tile_type tile)) (tiles t).
Proof.
  intros P Nd. unfold raw_speeds. rewrite <- P, map_map.
  apply map_ext_in. intros tile Hin. unfold tile_type_of, tile_type_by_pos.
  rewrite tile_types_in; [reflexivity | rewrite P; exact Nd | exact Hin].
Qed.

Lemma generate_track_nodup (n : Z) (rng : Random.t) (t : TrackData) :
  generate_track n rng = Ok t -> NoDup (path_order t).
Proof.
  intro E. destruct (Z_le_gt_dec n 3) as [L|L].
  - unfold generate_track in E. rewrite (@retry_loop_small _ n ltac:(lia)) in E.
    destruct (Z_le_gt_dec n 2) as [L2|L2].
    + unfold _oval_fallback in E. rewrite (oval_path_tiny L2) in E. discriminate.
    + assert (n = 3%Z) by lia. subst n. injection E as <-. cbn [path_order].
      constructor; [intros []|constructor].
  - assert (Hn : (4 <= n)%Z) by lia.
    destruct (retry_loop_spec TRACK_MAX_RETRIES Hn rng) as [t' [E' H]].
    unfold generate_track in E. rewrite E in E'. injection E' as <-.
    destruct H as [Ov|Cw]; [|exact (cw_nodup Cw)].
    rewrite Ov. exact (proj1 (oval_closed_walk Hn)).
Qed.

Lemma Forall2_map_r (A B C : Type) (R : A -> C -> Prop) (f : B -> C)
      (l1 : list A) (l2 : list B) :
  Forall2 R l1 (map f l2) -> Forall2 (fun a b => R a (f b)) l1 l2.
Proof.
  revert l1. induction l2 as [|b l2 IH]; intros l1 H; inversion H; subst; constructor.
  - assumption.
  - apply IH. assumption.
Qed.

Lemma Forall2_Forall_l (A B : Type) (P : A -> Prop) (R : A -> B -> Prop)
      (l1 : list A) (l2 : list B) :
  Forall P l1 -> Forall2 R l1 l2 -> Forall2 (fun a b => P a /\ R a b) l1 l2.
Proof.
  intros F H. induction H as [|a b l1 l2 Hab H IH]; constructor.
  - split; [exact (Forall_inv F) | exact Hab].
  - apply IH. exact (Forall_inv_tail F).
Qed.

Lemma Forall2_Forall_r (A B : Type) (P : B -> Prop) (R : A -> B -> Prop)
      (l1 : list A) (l2 : list B) :
  Forall P l2 -> Forall2 R l1 l2 -> Forall2 (fun a b => R a b /\ P b) l1 l2.
Proof.
  intros F H. induction H as [|a b l1 l2 Hab H IH]; constructor.
  - split; [exact Hab | exact (Forall_inv F)].
  - apply IH. exact (Forall_inv_tail F).
Qed.

(** X14. The speed profile of a generated track.  On every track
    [generate_track] returns, the type looked up by position for a path cell
    is the type of the tile generated for that very cell, so the raw target
    speeds are those of the tiles in order; and, for a square root that is
    never negative, the profile has one speed per tile, each between 0 and
    the target speed of its own tile, which is the top speed on a straight
    and the corner speed on a curve: the chicane speed is never used. *)
Theorem generated_track_profile (sqrt : Q -> Q) (n : Z) (rng : Random.t) (t : TrackData) :
  (forall x, 0 <= sqrt x) ->
  generate_track n rng = Ok t ->
  raw_speeds t = map (fun tile => raw_target (tile_type tile)) (tiles t)
  /\ Forall2 (fun v tile =>
                (0 <= v /\ v <= raw_target (tile_type tile))
                /\ ((tile_type tile = straight /\ raw_target (tile_type tile) = TOP_SPEED_FPS)
                    \/ (tile_type tile = curve
                        /\ raw_target (tile_type tile) = CORNER_SPEED_FPS)))
             (build_speed_profile sqrt t) (tiles t).
Proof.
  intros Hs E.
  assert (R : raw_speeds t = map (fun tile => raw_target (tile_type tile)) (tiles t)).
  { apply raw_speeds_own_tile; [|exact (generate_track_nodup _ _ E)].
    exact (proj1 (proj2 (proj2 (@retry_loop_shape _ _ _ _ E)))). }
  split; [exact R|].
  apply Forall2_Forall_r.
  - pose proof (@retry_loop_types _ _ _ _ E) as Ty.
    eapply Forall_impl; [|exact Ty].
    intros tile [H|H]; rewrite H; [left | right]; split; reflexivity.
  - apply Forall2_Forall_l; [exact (@build_speed_profile_nonneg sqrt Hs t)|].
    apply Forall2_map_r. rewrite <- R. unfold build_speed_profile. apply sweeps_le.
Qed.

Lemma generated_track_profile_witness :
  raw_speeds track_4_example
  = map (fun tile => raw_target (tile_type tile)) (tiles track_4_example)
  /\ Forall2 (fun v tile =>
                (0 <= v /\ v <= raw_target (tile_type tile))
                /\ ((tile_type tile = straight /\ raw_target (tile_type tile) = TOP_SPEED_FPS)
                    \/ (tile_type tile = curve
                        /\ raw_target (tile_type tile) = CORNER_SPEED_FPS)))
             (build_speed_profile sqrt_example track_4_example) (tiles track_4_example).
Proof.
  assert (E : generate_track 4 global_example = Ok track_4_example)
    by (vm_compute; reflexivity).
  exact (@generated_track_profile sqrt_example 4 global_example track_4_example
           sqrt_example_nonneg E).
Defined.
